(** * A B-tree on an explicit store: the Go package [btree] (btree.go, list.go)

    The package keeps its nodes behind pointers and its key and child
    sequences in Go slices.  Both are modelled as they are in the source:
    a slice is a backing array together with a length, a node is a cell of
    a store addressed by a reference, and every method reads and writes
    that store.  Methods with a pointer receiver work on the cell itself;
    methods with a value receiver work on a copy of the slice headers that
    still shares the backing arrays of the cell. *)

From Stdlib Require Import ZArith Lia.
From stdpp Require Import gmap list.


(** ** Results of a run *)

(** A Go call returns, or panics.  [OutOfFuel] is the third outcome of the
    model only: the recursive methods take a bound on the recursion depth. *)
Inductive res (A : Type) : Type :=
| Ok (x : A)
| Panic
| OutOfFuel.
Arguments Ok {A} x.
Arguments Panic {A}.
Arguments OutOfFuel {A}.

Definition res_bind {A B} (r : res A) (f : A → res B) : res B :=
  match r with
  | Ok x => f x
  | Panic => Panic
  | OutOfFuel => OutOfFuel
  end.

(** ** list.go: slices *)

(** [list[T]] is [[]T]: a window of length [len] on a backing array [arr];
    the capacity is the length of the array. *)
Record slice (E : Type) : Type := Slice { arr : list E; len : nat }.
Arguments Slice {E} arr len.
Arguments arr {E} s.
Arguments len {E} s.

Section list_go.
Context {E : Type}.

Definition cap (l : slice E) : nat := length (arr l).
Definition slen (l : slice E) : Z := Z.of_nat (len l).

(** The elements a program can see through the slice. *)
Definition view (l : slice E) : list E := take (len l) (arr l).

(** [a[i:j]] as a list of elements. *)
Definition sub (a : list E) (i j : nat) : list E := take (j - i) (drop i a).

(** Go's [copy(dst, src)] where [dst] is the window [a[d:hi]]: it moves
    [min (hi - d) (length src)] elements, and [src] is read before [a] is
    written (memmove). *)
Definition copy (a : list E) (d hi : nat) (src : list E) : list E :=
  let moved := take (hi - d) src in
  take d a ++ moved ++ drop (d + length moved) a.

(** [newList(capacity)]: [make(list[T], 0, capacity)], a zeroed array. *)
Definition newList (zero : E) (capacity : Z) : slice E :=
  Slice (replicate (Z.to_nat capacity) zero) 0.

(** [l.insertTo(i, items...)]. *)
Definition insertTo (l : slice E) (i : Z) (items : list E) : res (slice E) :=
  let newLen := (Z.of_nat (length items) + slen l)%Z in
  let j := (Z.of_nat (length items) + i)%Z in
  if (Z.of_nat (cap l) <? newLen)%Z then Panic            (* reslice to newLen *)
  else if ((i <? 0) || (newLen <? i))%Z then Panic        (* slice from i *)
  else
    let a1 :=
      if (j <? newLen)%Z
      then copy (arr l) (Z.to_nat j) (Z.to_nat newLen)
                (sub (arr l) (Z.to_nat i) (Z.to_nat newLen))
      else arr l in
    let a2 := copy a1 (Z.to_nat i) (Z.to_nat newLen) items in
    Ok (Slice a2 (Z.to_nat newLen)).

(** [l.insert(i, item)]. *)
Definition insert_ (l : slice E) (i : Z) (item : E) : res (slice E) :=
  insertTo l i [item].

(** [l.removeFrom(i, j)]: the removed elements and the slice left. *)
Definition removeFrom (l : slice E) (i j : Z) : res (list E * slice E) :=
  if ((i <? 0) || (j <? i) || (slen l <? j))%Z then Panic
  else
    let removedList := sub (arr l) (Z.to_nat i) (Z.to_nat j) in
    let newLen := (slen l - (j - i))%Z in
    let a1 := copy (arr l) (Z.to_nat i) (len l)
                   (sub (arr l) (Z.to_nat j) (len l)) in
    Ok (removedList, Slice a1 (Z.to_nat newLen)).

(** [l.remove(i)]: [l.removeFrom(i, i+1)[0]]. *)
Definition remove_ (l : slice E) (i : Z) : res (E * slice E) :=
  res_bind (removeFrom l i (i + 1))
    (λ '(removedList, l'),
       match removedList with
       | x :: _ => Ok (x, l')
       | [] => Panic
       end).

(** [l[i]] and [l[i] = x], with Go's bounds check against the length. *)
Definition index (l : slice E) (i : Z) : res E :=
  if ((i <? 0) || (slen l <=? i))%Z then Panic
  else match arr l !! Z.to_nat i with
       | Some x => Ok x
       | None => Panic
       end.

Definition set_index (l : slice E) (i : Z) (x : E) : res (slice E) :=
  if ((i <? 0) || (slen l <=? i))%Z then Panic
  else Ok (Slice (<[Z.to_nat i := x]> (arr l)) (len l)).
End list_go.

(** ** btree.go *)

(** References to node objects; [0] is the nil interface value. *)
Abbreviation ref := N (only parsing).

Section btree.
(** The element type with its [Compare] method, and its zero value. *)
Context {T : Type}.
Variable Compare : T → T → Z.
Variable zero : T.
(** The constant [t]. *)
Variable t : Z.

(** [find(l, item)]: the loop runs while [low < high], and [high - low]
    decreases, so [S (len l)] rounds are enough. *)
Fixpoint find_loop (fuel : nat) (l : slice T) (item : T) (low high : Z)
  : Z * bool :=
  match fuel with
  | O => (low, false)
  | S fuel' =>
      if (low <? high)%Z then
        let between := ((low + high) `quot` 2)%Z in
        let compared := Compare item (nth (Z.to_nat between) (arr l) zero) in
        if (compared <? 0)%Z then find_loop fuel' l item low between
        else if (0 <? compared)%Z then find_loop fuel' l item (between + 1)%Z high
        else (between, true)
      else (low, false)
  end.

Definition find (l : slice T) (item : T) : Z * bool :=
  find_loop (S (len l)) l item 0%Z (slen l).

(** [baseLeafNode] and [baseInternalNode]. *)
Inductive base : Type :=
| baseLeafNode (keys : slice T)
| baseInternalNode (keys : slice T) (children : slice ref).

(** The four node structs embed one of the two bases: [rootLeafNode],
    [rootInternalNode], [childLeafNode], [childInternalNode]. *)
Inductive role : Type := rootRole | childRole.

Record node : Type := Node { nrole : role; nbase : base }.

Definition keys (n : node) : slice T :=
  match nbase n with
  | baseLeafNode ks => ks
  | baseInternalNode ks _ => ks
  end.

Definition with_keys (n : node) (ks : slice T) : node :=
  match nbase n with
  | baseLeafNode _ => Node (nrole n) (baseLeafNode ks)
  | baseInternalNode _ cs => Node (nrole n) (baseInternalNode ks cs)
  end.

(** The store: the node objects allocated so far. *)
Record store : Type := Store { cells : gmap N node; next : N }.

Definition M (A : Type) : Type := store → res (A * store).

Definition ret {A} (x : A) : M A := λ s, Ok (x, s).
Definition bind {A B} (m : M A) (f : A → M B) : M B :=
  λ s, match m s with
       | Ok (x, s') => f x s'
       | Panic => Panic
       | OutOfFuel => OutOfFuel
       end.
Definition lift {A} (r : res A) : M A :=
  λ s, match r with
       | Ok x => Ok (x, s)
       | Panic => Panic
       | OutOfFuel => OutOfFuel
       end.
Definition panic {A} : M A := λ _, Panic.
Definition out_of_fuel {A} : M A := λ _, OutOfFuel.

Notation "x ← m ; k" := (bind m (λ x, k))
  (at level 20, m at level 100, k at level 200, only parsing).
Notation "' x ← m ; k" := (bind m (λ x, k))
  (at level 20, x pattern, m at level 100, k at level 200, only parsing).
Notation "m ;; k" := (bind m (λ _, k))
  (at level 100, k at level 200, right associativity, only parsing).

(** Dereferencing, updating and allocating node objects.  A call through
    a nil interface value panics. *)
Definition load (a : ref) : M node :=
  λ s, match cells s !! a with
       | Some n => Ok (n, s)
       | None => Panic
       end.

Definition store_ (a : ref) (n : node) : M unit :=
  λ s, Ok (tt, Store (<[a := n]> (cells s)) (next s)).

Definition alloc (n : node) : M ref :=
  λ s, Ok (next s, Store (<[next s := n]> (cells s)) (N.succ (next s))).

(** A bound on the depth of any chain of children: the number of objects
    allocated so far. *)
Definition depth_bound : M nat := λ s, Ok (N.to_nat (next s), s).

(** The two slice fields of a node object, reached through a pointer. *)
Record field (E : Type) : Type :=
  Field { fget : node → res (slice E); fput : node → slice E → res node }.
Arguments fget {E} f n.
Arguments fput {E} f n l.

Definition keysF : field T :=
  Field T (λ n, Ok (keys n)) (λ n ks, Ok (with_keys n ks)).

Definition childrenF : field ref :=
  Field ref
    (λ n, match nbase n with
          | baseInternalNode _ cs => Ok cs
          | baseLeafNode _ => Panic
          end)
    (λ n cs, match nbase n with
             | baseInternalNode ks _ => Ok (Node (nrole n) (baseInternalNode ks cs))
             | baseLeafNode _ => Panic
             end).

Section fields.
Context {E : Type} (f : field E).

Definition getF (a : ref) : M (slice E) :=
  n ← load a; lift (fget f n).
Definition putF (a : ref) (l : slice E) : M unit :=
  n ← load a; n' ← lift (fput f n l); store_ a n'.

(** [len(x.f)], [x.f[i]], [x.f[i] = e], [x.f.insert(i, e)],
    [x.f.remove(i)] for the object [x] at [a]. *)
Definition lenF (a : ref) : M Z :=
  l ← getF a; ret (slen l).
Definition indexF (a : ref) (i : Z) : M E :=
  l ← getF a; lift (index l i).
Definition set_indexF (a : ref) (i : Z) (x : E) : M unit :=
  l ← getF a; l' ← lift (set_index l i x); putF a l'.
Definition insertF (a : ref) (i : Z) (x : E) : M unit :=
  l ← getF a; l' ← lift (insert_ l i x); putF a l'.
Definition removeF (a : ref) (i : Z) : M E :=
  l ← getF a; '(x, l') ← lift (remove_ l i); putF a l';; ret x.

(** [x.f.splice(i, j, &m.f)]: [m.f.removeFrom(j, len(m.f))] runs first,
    then [x.f.insertTo(i, ...)] on what is then in [x.f]. *)
Definition spliceF (a : ref) (i j : Z) (m : ref) : M unit :=
  lm ← getF m;
  '(removedList, lm') ← lift (removeFrom lm j (slen lm));
  putF m lm';;
  l ← getF a;
  l' ← lift (insertTo l i removedList);
  putF a l'.

(** The same operations inside a method with a value receiver: the
    receiver is a copy of the struct, so the slice header (here its
    length [ln]) is local to the call, while the backing array is the
    one of the object at [a].  Writes to the array are seen through
    the object; the new length is not. *)
Definition indexL (a : ref) (ln : nat) (i : Z) : M E :=
  l ← getF a; lift (index (Slice (arr l) ln) i).
Definition insertL (a : ref) (ln : nat) (i : Z) (x : E) : M nat :=
  l ← getF a;
  l' ← lift (insert_ (Slice (arr l) ln) i x);
  putF a (Slice (arr l') (len l));;
  ret (len l').
Definition removeL (a : ref) (ln : nat) (i : Z) : M (E * nat) :=
  l ← getF a;
  '(x, l') ← lift (remove_ (Slice (arr l) ln) i);
  putF a (Slice (arr l') (len l));;
  ret (x, len l').
End fields.

(** Constructors of the four node structs. *)
Definition newBaseLeafNode : base :=
  baseLeafNode (newList zero (2 * t - 1)).
Definition newBaseInternalNode : base :=
  baseInternalNode (newList zero (2 * t - 1)) (newList 0%N (2 * t)).
Definition newChildLeafNode : M ref := alloc (Node childRole newBaseLeafNode).
Definition newChildInternalNode : M ref := alloc (Node childRole newBaseInternalNode).
Definition newRootLeafNode : M ref := alloc (Node rootRole newBaseLeafNode).
Definition newRootInternalNode : M ref := alloc (Node rootRole newBaseInternalNode).

(** [isAboveMin] and [isBelowMax] of the four structs. *)
Definition isAboveMin (a : ref) : M bool :=
  n ← load a;
  ret match nrole n with
      | childRole => (t - 1 <? slen (keys n))%Z
      | rootRole => (0 <? slen (keys n))%Z
      end.

Definition isBelowMax (a : ref) : M bool :=
  n ← load a; ret (slen (keys n) <? 2 * t - 1)%Z.

(** [asRoot] and [asChild] build a new struct around a copy of the base;
    the copy shares the backing arrays with the object it is made from,
    which no reference reaches once the caller has replaced it. *)
Definition asRoot (a : ref) : M ref :=
  n ← load a; alloc (Node rootRole (nbase n)).
Definition asChild (a : ref) : M ref :=
  n ← load a; alloc (Node childRole (nbase n)).

(** The type assertions of [m] to a pointer to [childLeafNode] and to a
    pointer to [childInternalNode]. *)
Definition assertChildLeaf (m : ref) : M unit :=
  n ← load m;
  match nrole n, nbase n with
  | childRole, baseLeafNode _ => ret tt
  | _, _ => panic
  end.
Definition assertChildInternal (m : ref) : M unit :=
  n ← load m;
  match nrole n, nbase n with
  | childRole, baseInternalNode _ _ => ret tt
  | _, _ => panic
  end.

(** [search]. *)
Fixpoint search (fuel : nat) (a : ref) (k : T) : M (T * bool) :=
  match fuel with
  | O => out_of_fuel
  | S fuel' =>
      n ← load a;
      let '(i, found) := find (keys n) k in
      match nbase n with
      | baseLeafNode _ =>
          if found then x ← indexF keysF a i; ret (x, true)
          else ret (zero, false)
      | baseInternalNode _ _ =>
          if found then x ← indexF keysF a i; ret (x, true)
          else c ← indexF childrenF a i; search fuel' c k
      end
  end.

(** [split] of [childLeafNode] and [childInternalNode]. *)
Definition split (a : ref) : M (T * ref) :=
  n ← load a;
  match nbase n with
  | baseLeafNode _ =>
      sibling ← newChildLeafNode;
      spliceF keysF sibling 0 t a;;
      x ← removeF keysF a (t - 1);
      ret (x, sibling)
  | baseInternalNode _ _ =>
      sibling ← newChildInternalNode;
      spliceF childrenF sibling 0 t a;;
      spliceF keysF sibling 0 t a;;
      x ← removeF keysF a (t - 1);
      ret (x, sibling)
  end.

(** [insertBelowMax] of [baseLeafNode] and [baseInternalNode]. *)
Fixpoint insertBelowMax (fuel : nat) (a : ref) (k : T) : M unit :=
  match fuel with
  | O => out_of_fuel
  | S fuel' =>
      n ← load a;
      let '(i, found) := find (keys n) k in
      match nbase n with
      | baseLeafNode _ =>
          if found then set_indexF keysF a i k
          else insertF keysF a i k
      | baseInternalNode _ _ =>
          if found then set_indexF keysF a i k
          else
            child ← indexF childrenF a i;
            below ← isBelowMax child;
            if negb below then
              '(medianKey, newChild) ← split child;
              insertF keysF a i medianKey;;
              insertF childrenF a (i + 1) newChild;;
              ki ← indexF keysF a i;
              if (0 <? Compare k ki)%Z
              then insertBelowMax fuel' newChild k
              else insertBelowMax fuel' child k
            else insertBelowMax fuel' child k
      end
  end.

(** [merge] of [childLeafNode] and [childInternalNode]. *)
Definition merge (a : ref) (medianKey : T) (m : ref) : M unit :=
  n ← load a;
  match nbase n with
  | baseLeafNode _ =>
      assertChildLeaf m;;
      ln ← lenF keysF a;
      insertF keysF a ln medianKey;;
      ln' ← lenF keysF a;
      spliceF keysF a ln' 0 m
  | baseInternalNode _ _ =>
      assertChildInternal m;;
      ln ← lenF keysF a;
      insertF keysF a ln medianKey;;
      ln' ← lenF keysF a;
      spliceF keysF a ln' 0 m;;
      cn ← lenF childrenF a;
      spliceF childrenF a cn 0 m
  end.

(** [shuffleLeft] and [shuffleRight]. *)
Definition shuffleLeft (a : ref) (stolenKey : T) (m : ref) : M T :=
  n ← load a;
  match nbase n with
  | baseLeafNode _ =>
      assertChildLeaf m;;
      ln ← lenF keysF a;
      insertF keysF a ln stolenKey;;
      removeF keysF m 0
  | baseInternalNode _ _ =>
      assertChildInternal m;;
      ln ← lenF keysF a;
      insertF keysF a ln stolenKey;;
      cn ← lenF childrenF a;
      c ← removeF childrenF m 0;
      insertF childrenF a cn c;;
      removeF keysF m 0
  end.

Definition shuffleRight (a : ref) (stolenKey : T) (m : ref) : M T :=
  n ← load a;
  match nbase n with
  | baseLeafNode _ =>
      assertChildLeaf m;;
      insertF keysF a 0 stolenKey;;
      ln ← lenF keysF m;
      removeF keysF m (ln - 1)
  | baseInternalNode _ _ =>
      assertChildInternal m;;
      insertF keysF a 0 stolenKey;;
      kn ← lenF keysF m;
      c ← removeF childrenF m kn;
      insertF childrenF a 0 c;;
      ln ← lenF keysF m;
      removeF keysF m (ln - 1)
  end.

(** [deletePred]: [childLeafNode] has a pointer receiver,
    [childInternalNode] a value receiver. *)
Fixpoint deletePred (fuel : nat) (a : ref) : M T :=
  match fuel with
  | O => out_of_fuel
  | S fuel' =>
      n ← load a;
      match nbase n with
      | baseLeafNode _ =>
          ln ← lenF keysF a;
          removeF keysF a (ln - 1)
      | baseInternalNode ks cs =>
          let i := 0%Z in
          child ← indexL childrenF a (len cs) i;
          above ← isAboveMin child;
          if above then deletePred fuel' child
          else
            right ← indexL childrenF a (len cs) (i + 1);
            above_right ← isAboveMin right;
            if above_right then
              '(key, kn) ← removeL keysF a (len ks) (i + 1);
              x ← shuffleLeft child key right;
              _ ← insertL keysF a kn (i + 1) x;
              deletePred fuel' child
            else
              _ ← removeL childrenF a (len cs) (i + 1);
              '(key, _) ← removeL keysF a (len ks) i;
              merge child key right;;
              deletePred fuel' child
      end
  end.

(** [deleteSucc], with the same receivers. *)
Fixpoint deleteSucc (fuel : nat) (a : ref) : M T :=
  match fuel with
  | O => out_of_fuel
  | S fuel' =>
      n ← load a;
      match nbase n with
      | baseLeafNode _ => removeF keysF a 0
      | baseInternalNode ks cs =>
          let i := slen ks in
          child ← indexL childrenF a (len cs) i;
          above ← isAboveMin child;
          if above then deleteSucc fuel' child
          else
            left ← indexL childrenF a (len cs) (i - 1);
            above_left ← isAboveMin left;
            if above_left then
              '(key, kn) ← removeL keysF a (len ks) (i - 1);
              x ← shuffleRight child key left;
              _ ← insertL keysF a kn (i - 1) x;
              deleteSucc fuel' child
            else
              '(key, _) ← removeL keysF a (len ks) (i - 1);
              merge left key child;;
              deleteSucc fuel' left
      end
  end.

(** [remove] of [baseLeafNode] and [baseInternalNode]. *)
Fixpoint remove (fuel : nat) (a : ref) (k : T) : M unit :=
  match fuel with
  | O => out_of_fuel
  | S fuel' =>
      n ← load a;
      let '(i, found) := find (keys n) k in
      match nbase n with
      | baseLeafNode _ =>
          if found then _ ← removeF keysF a i; ret tt
          else ret tt
      | baseInternalNode _ _ =>
          child ← indexF childrenF a i;
          if found then
            above ← isAboveMin child;
            if above then
              x ← deletePred fuel' child; set_indexF keysF a i x
            else
              right ← indexF childrenF a (i + 1);
              above_right ← isAboveMin right;
              if above_right then
                x ← deleteSucc fuel' right; set_indexF keysF a i x
              else
                key ← removeF keysF a i;
                right' ← indexF childrenF a (i + 1);
                merge child key right';;
                _ ← removeF childrenF a (i + 1);
                remove fuel' child k
          else
            above ← isAboveMin child;
            if above then remove fuel' child k
            else
              above_left ←
                (if (0 <? i)%Z
                 then left ← indexF childrenF a (i - 1); isAboveMin left
                 else ret false);
              if above_left then
                stolen ← removeF keysF a (i - 1);
                left ← indexF childrenF a (i - 1);
                x ← shuffleRight child stolen left;
                insertF keysF a (i - 1) x;;
                remove fuel' child k
              else
                kn ← lenF keysF a;
                above_right ←
                  (if (i <? kn)%Z
                   then right ← indexF childrenF a (i + 1); isAboveMin right
                   else ret false);
                if above_right then
                  stolenKey ← removeF keysF a i;
                  right ← indexF childrenF a (i + 1);
                  x ← shuffleLeft child stolenKey right;
                  insertF keysF a i x;;
                  remove fuel' child k
                else if (0 <? i)%Z then
                  left ← indexF childrenF a (i - 1);
                  key ← removeF keysF a (i - 1);
                  merge left key child;;
                  _ ← removeF childrenF a i;
                  child' ← indexF childrenF a (i - 1);
                  remove fuel' child' k
                else
                  kn' ← lenF keysF a;
                  if (i <? kn')%Z then
                    key ← removeF keysF a i;
                    right ← indexF childrenF a (i + 1);
                    merge child key right;;
                    _ ← removeF childrenF a (i + 1);
                    remove fuel' child k
                  else remove fuel' child k
      end
  end.

(** [shrink] of [rootLeafNode] and [rootInternalNode]. *)
Definition shrink (a : ref) : M ref :=
  n ← load a;
  match nbase n with
  | baseLeafNode _ => alloc n
  | baseInternalNode _ _ =>
      c ← indexF childrenF a 0;
      asRoot c
  end.

(** [BTree]. *)
Record BTree : Type := mkBTree { root : ref }.

Definition NewBTree : M BTree :=
  r ← newRootLeafNode; ret (mkBTree r).

Definition Search (b : BTree) (key : T) : M (T * bool) :=
  fuel ← depth_bound;
  search fuel (root b) key.

(** The body of the [if] of [Insert]: a full root is split below a new
    root. *)
Definition growRoot (b : BTree) : M BTree :=
  root_ ← asChild (root b);
  newRoot ← newRootInternalNode;
  '(medianKey, sibling) ← split root_;
  insertF keysF newRoot 0 medianKey;;
  insertF childrenF newRoot 0 root_;;
  insertF childrenF newRoot 1 sibling;;
  ret (mkBTree newRoot).

Definition Insert (b : BTree) (key : T) : M BTree :=
  below ← isBelowMax (root b);
  b' ← (if negb below then growRoot b else ret b);
  fuel ← depth_bound;
  insertBelowMax fuel (root b') key;;
  ret b'.

Definition Remove (b : BTree) (key : T) : M BTree :=
  fuel ← depth_bound;
  remove fuel (root b) key;;
  above ← isAboveMin (root b);
  if negb above then
    r ← shrink (root b); ret (mkBTree r)
  else ret b.

Definition empty_store : store := Store ∅ 1%N.
End btree.

Arguments BTree : clear implicits.
Arguments store : clear implicits.
Arguments node : clear implicits.
Arguments M : clear implicits.
Arguments fget {T E} f n.
Arguments fput {T E} f n l.

(** ** Observing a tree *)

Section observe.
Context {T : Type}.

(** Children and keys of an internal node in key order: child 0, key 0,
    child 1, key 1, ... *)
Fixpoint interleave (cs : list (list T)) (ks : list T) : list T :=
  match cs with
  | [] => ks
  | c :: cs' =>
      c ++ match ks with
           | [] => concat cs'
           | k :: ks' => k :: interleave cs' ks'
           end
  end.

(** The in-order traversal of the keys stored below [a]. *)
Fixpoint inorder (fuel : nat) (h : gmap N (node T)) (a : ref) : list T :=
  match fuel with
  | O => []
  | S fuel' =>
      match h !! a with
      | None => []
      | Some n =>
          match nbase n with
          | baseLeafNode ks => view ks
          | baseInternalNode ks cs =>
              interleave (map (inorder fuel' h) (view cs)) (view ks)
          end
      end
  end.

Definition traversal (b : BTree) (s : store T) : list T :=
  inorder (N.to_nat (next s)) (cells s) (root b).

Variable Compare : T → T → Z.

(** Strictly increasing under [Compare]. *)
Fixpoint increasing (l : list T) : bool :=
  match l with
  | [] => true
  | x :: l' =>
      match l' with
      | [] => true
      | y :: _ => (Compare x y <? 0)%Z && increasing l'
      end
  end.

Definition stored (k : T) (l : list T) : bool :=
  existsb (λ x, (Compare k x =? 0)%Z) l.

(** The nodes below [a] other than [a] itself, with their key counts:
    what the occupancy bounds speak about. *)
Fixpoint key_counts (fuel : nat) (h : gmap N (node T)) (a : ref) : list Z :=
  match fuel with
  | O => []
  | S fuel' =>
      match h !! a with
      | None => []
      | Some n =>
          match nbase n with
          | baseLeafNode ks => [slen ks]
          | baseInternalNode ks cs =>
              slen ks :: concat (map (key_counts fuel' h) (view cs))
          end
      end
  end.

Definition child_key_counts (b : BTree) (s : store T) : list Z :=
  tail (key_counts (N.to_nat (next s)) (cells s) (root b)).
End observe.

(** ** Sequences of calls on a new tree *)

Section runs.
Context {T : Type}.
Variable Compare : T → T → Z.
Variable zero : T.
Variable t : Z.

Inductive call : Type :=
| CallInsert (key : T)
| CallRemove (key : T).

Definition do_call (b : BTree) (c : call) : M T BTree :=
  match c with
  | CallInsert key => Insert Compare zero t b key
  | CallRemove key => Remove Compare zero t b key
  end.

Fixpoint do_calls (b : BTree) (cs : list call) : M T BTree :=
  match cs with
  | [] => ret b
  | c :: cs' => bind (do_call b c) (λ b', do_calls b' cs')
  end.

(** The tree and store after [NewBTree()] and the calls [cs]. *)
Definition run (cs : list call) : res (BTree * store T) :=
  bind (NewBTree zero t) (λ b, do_calls b cs) empty_store.

(** What the calls leave of [k] when read as operations on a set of
    keys: the last call on a key equal to [k] decides. *)
Fixpoint left_present (k : T) (present : bool) (cs : list call) : bool :=
  match cs with
  | [] => present
  | CallInsert key :: cs' =>
      left_present k (if (Compare k key =? 0)%Z then true else present) cs'
  | CallRemove key :: cs' =>
      left_present k (if (Compare k key =? 0)%Z then false else present) cs'
  end.
End runs.

Arguments CallInsert {T} key.
Arguments CallRemove {T} key.

(** ** The package as compiled: [t = 512], keys with a payload *)

Definition t : Z := 512.

Module KV.
(** Keys are pairs of an integer and a payload; [Compare] looks at the
    integer only. *)
Definition T : Type := Z * Z.
Definition Compare (a b : T) : Z := (fst a - fst b)%Z.
Definition zero : T := (0, 0)%Z.

Definition key (i : Z) : T := (i, 0%Z).

(** [Insert(lo), Insert(lo+1), ...]: [n] calls with ascending keys. *)
Definition ascending (lo : Z) (n : nat) : list (call (T:=T)) :=
  map (λ i, CallInsert (key (lo + Z.of_nat i))) (seq 0 n).

(** [Insert(hi), Insert(hi-1), ...]: [n] calls with descending keys. *)
Definition descending (hi : Z) (n : nat) : list (call (T:=T)) :=
  map (λ i, CallInsert (key (hi - Z.of_nat i))) (seq 0 n).

Definition found_after (t : Z) (cs : list call) (k : T) : res (T * bool) :=
  match run Compare zero t cs with
  | Ok (b, s) =>
      match Search Compare zero b k s with
      | Ok (r, _) => Ok r
      | Panic => Panic
      | OutOfFuel => OutOfFuel
      end
  | Panic => Panic
  | OutOfFuel => OutOfFuel
  end.

Definition traversal_after (t : Z) (cs : list call) : res (list Z) :=
  match run Compare zero t cs with
  | Ok (b, s) => Ok (fst <$> traversal b s)
  | Panic => Panic
  | OutOfFuel => OutOfFuel
  end.
End KV.

(** ** Well-formed slices *)

(** A slice never extends past its array. *)
Definition swf {E} (l : slice E) : Prop := len l ≤ length (arr l).

(** ** Depth of leaves and levels of node objects *)

Section levels.
Context {T : Type}.
Implicit Types (h : gmap N (node T)) (s : store T) (lvl : N → nat).

(** [leaf_at h a d]: a chain of [d] child references leads from the
    object at [a] to a leaf. *)
Inductive leaf_at h : ref → nat → Prop :=
| leaf_here a n ks :
    h !! a = Some n → nbase n = baseLeafNode ks → leaf_at h a 0
| leaf_below a n ks cs i c d :
    h !! a = Some n → nbase n = baseInternalNode ks cs →
    view cs !! i = Some c → leaf_at h c d → leaf_at h a (S d).

(** Every leaf is at the same depth from the root. *)
Definition balanced (b : BTree) s : Prop :=
  ∀ d1 d2,
    leaf_at (cells s) (root b) d1 → leaf_at (cells s) (root b) d2 → d1 = d2.

(** A level for every object: leaves are at level 0, and every slot of
    the child array of an object at level [l] is nil or refers to an
    object at level [l - 1].  The slots past the length of the slice
    are included: a value receiver may expose them. *)
Definition slot_ok lvl (nx : N) (l : nat) (c : ref) : Prop :=
  c = 0%N ∨ ((c < nx)%N ∧ S (lvl c) = l).

Definition node_ok lvl (nx : N) (l : nat) (n : node T) : Prop :=
  match nbase n with
  | baseLeafNode _ => l = 0
  | baseInternalNode _ cs => Forall (slot_ok lvl nx l) (arr cs)
  end.

Definition levelled lvl s : Prop :=
  ∀ a n, cells s !! a = Some n →
         (0 < a < next s)%N
         ∧ lvl a < N.to_nat (next s)
         ∧ node_ok lvl (next s) (lvl a) n.

(** Keys carry no level. *)
Definition no_pred : N → nat → T → Prop := λ _ _ _, True.

(** [s'] comes from [s] by writes to objects at level at most [l],
    without allocation. *)
Definition upd lvl (l : nat) s s' : Prop :=
  levelled lvl s'
  ∧ next s' = next s
  ∧ (∀ x, l < lvl x → cells s' !! x = cells s !! x)
  ∧ (∀ x, is_Some (cells s !! x) → is_Some (cells s' !! x)).

(** [s'] comes from [s] by writes and allocations; [lvl'] gives the
    levels of the new objects. *)
Definition ext lvl s lvl' s' : Prop :=
  levelled lvl' s'
  ∧ (next s ≤ next s')%N
  ∧ (∀ a, (a < next s)%N → lvl' a = lvl a)
  ∧ (∀ x, is_Some (cells s !! x) → is_Some (cells s' !! x)).

(** The levels [lvl] with the object at [a] put at level [l]. *)
Definition set_level lvl (a : ref) (l : nat) : N → nat :=
  λ x, if decide (x = a) then l else lvl x.

(** The outcome of a call satisfies [Q] when the call returns; it may
    panic, but it does not run out of fuel. *)
Definition wp {A} (m : M T A) (Q : A → store T → Prop) s : Prop :=
  match m s with
  | Ok (x, s') => Q x s'
  | Panic => True
  | OutOfFuel => False
  end.

(** A tree whose store has levels and whose root object exists. *)
Definition tree_ok lvl (b : BTree) s : Prop :=
  levelled lvl s ∧ is_Some (cells s !! root b).
End levels.

(** ** What a node holds *)

Section contents.
Context {T : Type}.
Variable t : Z.
Implicit Types (s : store T) (a : ref).

(** The slice [l] shows the elements [v] and has the given capacity. *)
Definition holds {E} (l : slice E) (capacity : Z) (v : list E) : Prop :=
  swf l ∧ view l = v ∧ Z.of_nat (cap l) = capacity.

(** The keys of a node and, for an internal node, its children.  The
    key array has capacity [2t - 1] and the child array [2t], as
    [newList] makes them. *)
Record content : Type :=
  Content { ckeys : list T; cchildren : option (list ref) }.

Definition node_is (n : node T) (r : role) (c : content) : Prop :=
  nrole n = r
  ∧ match nbase n, cchildren c with
    | baseLeafNode ks, None => holds ks (2 * t - 1) (ckeys c)
    | baseInternalNode ks cs, Some cv =>
        holds ks (2 * t - 1) (ckeys c) ∧ holds cs (2 * t) cv
    | _, _ => False
    end.

Definition at_node s a (r : role) (c : content) : Prop :=
  ∃ n, cells s !! a = Some n ∧ node_is n r c.

(** The store [s] with the object at [a] replaced by [n]. *)
Definition set_node s a (n : node T) : store T :=
  Store (<[a := n]> (cells s)) (next s).

(** The call returns, with a result and a store that satisfy [Q]. *)
Definition returns {A} (m : M T A) s (Q : A → store T → Prop) : Prop :=
  ∃ x s', m s = Ok (x, s') ∧ Q x s'.

(** The call [m] in [s] comes down to the call [k] in a store that
    satisfies [D]. *)
Definition leads_to {A} (m : M T A) s (k : M T A) (D : store T → Prop)
  : Prop :=
  ∃ s1, m s = k s1 ∧ D s1.

(** No object of the store lies at or past [next]. *)
Definition bounded s : Prop :=
  ∀ a n, cells s !! a = Some n → (a < next s)%N.
End contents.

Arguments Content {T} ckeys cchildren.
Arguments ckeys {T} c.
Arguments cchildren {T} c.

(** The two fields seen through [content]. *)
Definition keys_view {T} (c : content (T:=T)) : option (list T) := Some (ckeys c).
Definition set_ckeys {T} (c : content (T:=T)) (v : list T) : content :=
  Content v (cchildren c).
Definition set_cchildren {T} (c : content (T:=T)) (v : list ref) : content :=
  Content (ckeys c) (Some v).

(** The children of two nodes of one kind put together. *)
Definition joined (ca cm : option (list ref)) : option (list ref) :=
  match ca, cm with
  | Some va, Some vm => Some (va ++ vm)
  | _, _ => None
  end.

(** ** The ordering contract of [Comparable] *)

Section ordering.
Context {T : Type}.
Variable Compare : T → T → Z.

(** [a.Compare(b)] orders the values by its sign: exchanging the
    arguments exchanges less and greater, and not-greater is
    transitive. *)
Record ordering : Prop := Ordering {
  compare_flip : ∀ a b, (Compare a b < 0 ↔ 0 < Compare b a)%Z;
  compare_trans :
    ∀ a b c, (Compare a b ≤ 0 → Compare b c ≤ 0 → Compare a c ≤ 0)%Z
}.

(** Where [item] stands in [v]: greater than everything before
    position [i], less than everything from [i] on. *)
Definition insertion_point (v : list T) (item : T) (i : nat) : Prop :=
  ∀ j x, v !! j = Some x →
         if decide (j < i) then (0 < Compare item x)%Z
         else (Compare item x < 0)%Z.
End ordering.

(** ** Small trees for [t = 2] *)

Module Small.
Import KV.

(** A slice of capacity 3 holding the keys 1, 3, 5. *)
Definition odd_keys : slice T := Slice [key 1; key 3; key 5] 3.

(** A slice of capacity 3 holding the keys 2, 4 over a stale third
    element. *)
Definition two_keys : slice T := Slice [key 2; key 4; key 9] 2.
End Small.

Section sorted.
Context {T : Type}.
Variable Compare : T → T → Z.

(** Every earlier element is less than every later one. *)
Definition sorted_pairs (v : list T) : Prop :=
  ∀ i j x y, i < j → v !! i = Some x → v !! j = Some y →
             (Compare x y < 0)%Z.
End sorted.

Module Grown.
Import KV.

(** The tree and store after the calls [cs] on a new tree, for
    [t = 2]. *)
Definition after (cs : list (call (T:=T))) : BTree * store T :=
  match run Compare zero 2 cs with
  | Ok bs => bs
  | _ => (mkBTree 0, empty_store)
  end.

(** The store after the root's [remove] of a [Remove] call, before the
    root is looked at again. *)
Definition root_removed (bs : BTree * store T) (k : T) : store T :=
  match remove Compare zero 2 (N.to_nat (next bs.2)) (root bs.1) k bs.2 with
  | Ok (_, s1) => s1
  | _ => empty_store
  end.

(** A root leaf with the keys 1, 2. *)
Definition leaf2 : BTree * store T := after (ascending 1 2).

(** A root leaf with the three keys 1, 2, 3: the root is full. *)
Definition leaf3 : BTree * store T := after (ascending 1 3).

(** The root holds the key 2 over the leaves 1 and 3, 4. *)
Definition uneven : BTree * store T := after (ascending 1 4).

(** The root holds the key 2 over the leaves 1 and 3, both at minimum. *)
Definition two_leaves : BTree * store T :=
  after (ascending 1 4 ++ [CallRemove (key 4)]).

(** The root holds the key 2 over the leaves 1 and 3, 4, 5: the second
    leaf is full. *)
Definition full_child : BTree * store T := after (ascending 1 5).

(** Three levels: the root holds the key 4. *)
Definition levels3 : BTree * store T := after (ascending 1 10).

(** Three levels where the last three leaves hold one key each. *)
Definition thinned : BTree * store T :=
  after (ascending 1 10 ++ [CallRemove (key 10)]).

(** Three levels built downwards: the root holds the key 7. *)
Definition descended : BTree * store T := after (descending 10 10).
End Grown.

(** ** Descendants *)

Section descent.
Context {T : Type}.

(** The object at [c] is one of the children of the internal node at
    [a]. *)
Definition child_of (h : gmap N (node T)) (a c : ref) : Prop :=
  ∃ n ks cs i,
    h !! a = Some n ∧ nbase n = baseInternalNode ks cs
    ∧ view cs !! i = Some c ∧ is_Some (h !! c).

(** The object at [c] is below the one at [a]: a child, or a child of
    a child, and so on. *)
Definition descendant (h : gmap N (node T)) : ref → ref → Prop :=
  tc (child_of h).
End descent.

(** * Properties *)

(** ** Slices *)

Section slice_facts.
Context {E : Type}.
Implicit Types (l : slice E) (a items : list E).

Lemma view_length l : swf l → length (view l) = len l.
Proof. unfold swf, view. intros H. rewrite length_take. lia. Qed.

Lemma sub_mid (A X Z : list E) i j :
  i = length A → j = length A + length X → sub (A ++ X ++ Z) i j = X.
Proof.
  intros -> ->. unfold sub. rewrite drop_app_length.
  replace (length A + length X - length A) with (length X) by lia.
  apply take_app_length.
Qed.

Lemma copy_exact a d hi src :
  length src ≤ hi - d →
  copy a d hi src = take d a ++ src ++ drop (d + length src) a.
Proof. intros H. unfold copy. by rewrite (take_ge src) by done. Qed.

(** Overwriting the block [X] that follows [A]. *)
Lemma copy_block (A X Z src : list E) d hi :
  d = length A → length X = length src → length src ≤ hi - d →
  copy (A ++ X ++ Z) d hi src = A ++ src ++ Z.
Proof.
  intros -> HX Hhi. rewrite copy_exact by done.
  rewrite take_app_length. do 2 f_equal.
  rewrite app_assoc. apply drop_app_length'.
  rewrite length_app. lia.
Qed.

(** The array after [insertTo]: [A] and [B] are the visible elements
    before and from the position, [R1] the slots taken by the items. *)
Lemma insert_block (A B R1 R2 items : list E) :
  length R1 = length items →
  let a0 := A ++ B ++ R1 ++ R2 in
  let i := length A in
  let n := length A + length B + length items in
  let a1 := if bool_decide (B = []) then a0
            else copy a0 (i + length items) n (sub a0 i n) in
  copy a1 i n items = A ++ items ++ B ++ R2.
Proof.
  intros HR a0 i n a1.
  assert (Ha1 : ∃ Y, length Y = length items ∧ a1 = A ++ Y ++ B ++ R2).
  { subst a1. case_bool_decide as HB.
    - subst B. exists R1. by subst a0.
    - exists (take (length items) (B ++ R1)). split.
      { rewrite length_take, length_app. lia. }
      assert (Hsub : sub a0 i n = B ++ R1).
      { subst a0. rewrite (app_assoc B R1 R2).
        apply sub_mid; [done|]. rewrite length_app. lia. }
      rewrite Hsub. unfold copy.
      replace (n - (i + length items)) with (length B) by lia.
      rewrite take_app_length.
      subst a0 i.
      rewrite (app_assoc B R1 R2), take_app_add.
      rewrite (take_app_le (B ++ R1)) by (rewrite length_app; lia).
      rewrite <- !app_assoc. do 3 f_equal.
      rewrite !app_assoc.
      apply drop_app_length'. rewrite !length_app. lia. }
  destruct Ha1 as (Y & HY & ->).
  apply copy_block; [done|done|lia].
Qed.

Lemma insertTo_spec l (i : nat) items :
  swf l → i ≤ len l → len l + length items ≤ cap l →
  ∃ l', insertTo l (Z.of_nat i) items = Ok l'
        ∧ view l' = take i (view l) ++ items ++ drop i (view l)
        ∧ len l' = len l + length items
        ∧ cap l' = cap l.
Proof.
  intros Hwf Hi Hcap. unfold insertTo, slen, cap, swf in *.
  destruct (Z.ltb_spec (Z.of_nat (length (arr l)))
              (Z.of_nat (length items) + Z.of_nat (len l))) as [?|_]; [lia|].
  destruct (Z.ltb_spec (Z.of_nat i) 0) as [?|_]; [lia|].
  destruct (Z.ltb_spec (Z.of_nat (length items) + Z.of_nat (len l))
              (Z.of_nat i)) as [?|_]; [lia|]. simpl.
  replace (Z.to_nat (Z.of_nat (length items) + Z.of_nat (len l)))
    with (len l + length items) by lia.
  replace (Z.to_nat (Z.of_nat (length items) + Z.of_nat i))
    with (i + length items) by lia.
  rewrite Nat2Z.id.
  eexists. split; [reflexivity|]. unfold view at 1, cap; simpl.
  set (A := take i (view l)). set (B := drop i (view l)).
  set (R := drop (len l) (arr l)).
  set (R1 := take (length items) R). set (R2 := drop (length items) R).
  assert (HA : length A = i).
  { subst A. rewrite length_take, view_length by done. lia. }
  assert (HB : length B = len l - i).
  { subst B. by rewrite length_drop, view_length. }
  assert (HR1 : length R1 = length items).
  { subst R1 R. rewrite length_take, length_drop. lia. }
  assert (Harr : arr l = A ++ B ++ R1 ++ R2).
  { subst A B R1 R2 R. rewrite take_drop, app_assoc, take_drop.
    unfold view. by rewrite take_drop. }
  pose proof (insert_block A B R1 R2 items HR1) as Hblk. simpl in Hblk.
  rewrite <- Harr, HA, HB in Hblk.
  replace (i + (len l - i) + length items) with (len l + length items)
    in Hblk by lia.
  assert (Hif : (if (Z.of_nat (length items) + Z.of_nat i
                      <? Z.of_nat (length items) + Z.of_nat (len l))%Z
                 then copy (arr l) (i + length items) (len l + length items)
                        (sub (arr l) i (len l + length items))
                 else arr l)
                = (if bool_decide (B = []) then arr l
                   else copy (arr l) (i + length items) (len l + length items)
                          (sub (arr l) i (len l + length items)))).
  { destruct (Z.ltb_spec (Z.of_nat (length items) + Z.of_nat i)
                (Z.of_nat (length items) + Z.of_nat (len l)));
      case_bool_decide as HBn; try done.
    - rewrite HBn in HB. simpl in HB. lia.
    - destruct B; [done|]. simpl in HB. lia. }
  rewrite Hif, Hblk. split; [|split; [done|]].
  - rewrite !app_assoc. apply take_app_length'.
    rewrite !length_app. lia.
  - rewrite !length_app. rewrite Harr, !length_app in Hcap |- *.
    subst R2. rewrite length_drop. subst R. rewrite length_drop. lia.
Qed.

Lemma insert_spec l (i : nat) x :
  swf l → i ≤ len l → len l < cap l →
  ∃ l', insert_ l (Z.of_nat i) x = Ok l'
        ∧ view l' = take i (view l) ++ x :: drop i (view l)
        ∧ len l' = S (len l)
        ∧ cap l' = cap l.
Proof.
  intros Hwf Hi Hcap.
  destruct (insertTo_spec l i [x]) as (l' & H1 & H2 & H3 & H4);
    [done|done|simpl; lia|].
  exists l'. simpl in H3. repeat split; try done. lia.
Qed.

Lemma removeFrom_spec l (i j : nat) :
  swf l → i ≤ j → j ≤ len l →
  ∃ l', removeFrom l (Z.of_nat i) (Z.of_nat j)
          = Ok (take (j - i) (drop i (view l)), l')
        ∧ view l' = take i (view l) ++ drop j (view l)
        ∧ len l' = len l - (j - i)
        ∧ cap l' = cap l.
Proof.
  intros Hwf Hi Hj. unfold removeFrom, slen, cap, swf in *.
  destruct (Z.ltb_spec (Z.of_nat i) 0) as [?|_]; [lia|].
  destruct (Z.ltb_spec (Z.of_nat j) (Z.of_nat i)) as [?|_]; [lia|].
  destruct (Z.ltb_spec (Z.of_nat (len l)) (Z.of_nat j)) as [?|_]; [lia|].
  simpl. rewrite !Nat2Z.id.
  replace (Z.to_nat (Z.of_nat (len l) - (Z.of_nat j - Z.of_nat i)))
    with (len l - (j - i)) by lia.
  set (A := take i (view l)). set (X := take (j - i) (drop i (view l))).
  set (C := drop j (view l)). set (R := drop (len l) (arr l)).
  assert (HA : length A = i).
  { subst A. rewrite length_take, view_length by done. lia. }
  assert (HX : length X = j - i).
  { subst X. rewrite length_take, length_drop, view_length by done. lia. }
  assert (HC : length C = len l - j).
  { subst C. by rewrite length_drop, view_length. }
  assert (Hview : view l = A ++ X ++ C).
  { subst A X C. rewrite <- (take_drop i (view l)) at 1. f_equal.
    rewrite <- (take_drop (j - i) (drop i (view l))) at 1. f_equal.
    rewrite drop_drop. f_equal. lia. }
  assert (Harr : arr l = A ++ X ++ C ++ R).
  { rewrite <- (take_drop (len l) (arr l)). fold (view l). rewrite Hview.
    by rewrite <- !app_assoc. }
  assert (Hsub1 : sub (arr l) i j = X).
  { rewrite Harr. apply sub_mid; lia. }
  assert (Hsub2 : sub (arr l) j (len l) = C).
  { rewrite Harr, (app_assoc A X (C ++ R)).
    apply sub_mid; rewrite length_app; lia. }
  rewrite Hsub1, Hsub2.
  eexists. split; [reflexivity|]. unfold view at 1, cap; simpl.
  (* the elements after [j] move down to [i] *)
  destruct (decide (j - i ≤ length C)) as [Hle|Hgt].
  - set (X' := take (length C) (X ++ C)).
    set (Z' := drop (length C) (X ++ C)).
    assert (HX' : length X' = length C).
    { subst X'. rewrite length_take, length_app. lia. }
    assert (Hsplit : X ++ C = X' ++ Z') by (subst X' Z'; by rewrite take_drop).
    assert (HZ' : length Z' = j - i).
    { subst Z'. rewrite length_drop, length_app. lia. }
    rewrite Harr, (app_assoc X C R), Hsplit, <- (app_assoc X' Z' R).
    rewrite copy_block by (done || lia).
    split; [|split; [done|]].
    + rewrite app_assoc. rewrite take_app_le by (rewrite length_app; lia).
      apply take_ge. rewrite length_app. lia.
    + rewrite !length_app. lia.
  - set (X' := take (length C) X). set (Z' := drop (length C) X).
    assert (HX' : length X' = length C).
    { subst X'. rewrite length_take. lia. }
    assert (Hsplit : X = X' ++ Z') by (subst X' Z'; by rewrite take_drop).
    rewrite Harr, Hsplit, <- (app_assoc X' Z').
    rewrite copy_block by (done || lia).
    split; [|split; [done|]].
    + rewrite app_assoc. rewrite take_app_le by (rewrite length_app; lia).
      apply take_ge. rewrite length_app. lia.
    + assert (length Z' = j - i - length C).
      { subst Z'. rewrite length_drop. lia. }
      rewrite !length_app. lia.
Qed.

Lemma remove_spec l (i : nat) x :
  swf l → view l !! i = Some x →
  ∃ l', remove_ l (Z.of_nat i) = Ok (x, l')
        ∧ view l' = take i (view l) ++ drop (S i) (view l)
        ∧ S (len l') = len l
        ∧ cap l' = cap l.
Proof.
  intros Hwf Hx.
  assert (Hi : i < len l).
  { apply lookup_lt_Some in Hx. by rewrite view_length in Hx. }
  destruct (removeFrom_spec l i (S i)) as (l' & H1 & H2 & H3 & H4);
    [done|lia|lia|].
  exists l'. unfold remove_.
  replace (Z.of_nat i + 1)%Z with (Z.of_nat (S i)) by lia.
  rewrite H1. simpl.
  replace (S i - i) with 1 by lia.
  rewrite (drop_S _ _ _ Hx). simpl.
  repeat split; try done. lia.
Qed.

Lemma index_spec l (i : nat) x :
  swf l → view l !! i = Some x → index l (Z.of_nat i) = Ok x.
Proof.
  intros Hwf Hx.
  assert (Hi : i < len l).
  { apply lookup_lt_Some in Hx. by rewrite view_length in Hx. }
  unfold index, slen.
  destruct (Z.ltb_spec (Z.of_nat i) 0) as [?|_]; [lia|].
  destruct (Z.leb_spec (Z.of_nat (len l)) (Z.of_nat i)) as [?|_]; [lia|].
  simpl. rewrite Nat2Z.id.
  unfold view in Hx. rewrite lookup_take_lt in Hx by done. by rewrite Hx.
Qed.

Lemma index_inv l (i : Z) x :
  index l i = Ok x →
  (0 ≤ i < slen l)%Z ∧ arr l !! Z.to_nat i = Some x.
Proof.
  unfold index.
  destruct (Z.ltb_spec i 0); [done|].
  destruct (Z.leb_spec (slen l) i); [done|]. simpl.
  destruct (arr l !! Z.to_nat i) eqn:Hl; [|done].
  intros [= ->]. split; [lia|done].
Qed.
End slice_facts.

Section slice_forall.
Context {E : Type} (P : E → Prop).
Implicit Types (l : slice E) (a items : list E).

Lemma Forall_sub a i j : Forall P a → Forall P (sub a i j).
Proof. intros H. unfold sub. by apply Forall_take, Forall_drop. Qed.

Lemma Forall_copy a d hi src :
  Forall P a → Forall P src → Forall P (copy a d hi src).
Proof.
  intros Ha Hs. unfold copy. rewrite !Forall_app.
  auto using Forall_take, Forall_drop.
Qed.

Lemma insertTo_Forall l i items l' :
  insertTo l i items = Ok l' →
  Forall P (arr l) → Forall P items → Forall P (arr l').
Proof.
  unfold insertTo. intros H Ha Hi.
  repeat (case_match; try done); injection H as <-; simpl;
    auto using Forall_copy, Forall_sub.
Qed.

Lemma removeFrom_Forall l i j r l' :
  removeFrom l i j = Ok (r, l') →
  Forall P (arr l) → Forall P r ∧ Forall P (arr l').
Proof.
  unfold removeFrom. intros H Ha.
  case_match; [done|]. injection H as <- <-; simpl.
  auto using Forall_copy, Forall_sub.
Qed.

Lemma remove_Forall l i x l' :
  remove_ l i = Ok (x, l') → Forall P (arr l) → P x ∧ Forall P (arr l').
Proof.
  unfold remove_, res_bind. intros H Ha.
  destruct (removeFrom l i (i + 1)) as [[r l'']| |] eqn:Hr; try done.
  destruct (removeFrom_Forall _ _ _ _ _ Hr Ha) as [Hr1 Hr2].
  destruct r as [|y r]; [done|]. injection H as <- <-.
  by inversion Hr1.
Qed.

Lemma index_Forall l i x : index l i = Ok x → Forall P (arr l) → P x.
Proof.
  intros H Ha. apply index_inv in H as [_ H].
  by eapply Forall_lookup_1 in H.
Qed.

Lemma set_index_Forall l i x l' :
  set_index l i x = Ok l' → Forall P (arr l) → P x → Forall P (arr l').
Proof.
  unfold set_index. intros H Ha Hx. case_match; [done|].
  injection H as <-. simpl. by apply Forall_insert.
Qed.
End slice_forall.

(** No slice operation runs out of fuel. *)
Lemma insertTo_fuel {E} (l : slice E) i items : insertTo l i items ≠ OutOfFuel.
Proof. unfold insertTo. by repeat case_match. Qed.
Lemma removeFrom_fuel {E} (l : slice E) i j : removeFrom l i j ≠ OutOfFuel.
Proof. unfold removeFrom. by repeat case_match. Qed.
Lemma remove_fuel {E} (l : slice E) i : remove_ l i ≠ OutOfFuel.
Proof.
  unfold remove_, res_bind. pose proof (removeFrom_fuel l i (i + 1)).
  by repeat case_match.
Qed.
Lemma index_fuel {E} (l : slice E) i : index l i ≠ OutOfFuel.
Proof. unfold index. by repeat case_match. Qed.
Lemma set_index_fuel {E} (l : slice E) i x : set_index l i x ≠ OutOfFuel.
Proof. unfold set_index. by repeat case_match. Qed.

(** ** Rules for the outcome of calls *)

Section wp_rules.
Context {T : Type}.
Implicit Types (s : store T).

Lemma wp_ret {A} (x : A) (Q : A → store T → Prop) s :
  Q x s → wp (ret x) Q s.
Proof. done. Qed.

Lemma wp_bind {A B} (m : M T A) (f : A → M T B) Q s :
  wp m (λ x s', wp (f x) Q s') s → wp (bind m f) Q s.
Proof. unfold wp, bind. by destruct (m s) as [[x s']| |]. Qed.

Lemma wp_mono {A} (m : M T A) (Q Q' : A → store T → Prop) s :
  wp m Q s → (∀ x s', Q x s' → Q' x s') → wp m Q' s.
Proof. unfold wp. destruct (m s) as [[x s']| |]; auto. Qed.

Lemma wp_lift {A} (r : res A) (Q : A → store T → Prop) s :
  r ≠ OutOfFuel → (∀ x, r = Ok x → Q x s) → wp (lift r) Q s.
Proof. unfold wp, lift. destruct r; auto. Qed.

Lemma wp_panic {A} (Q : A → store T → Prop) s : wp panic Q s.
Proof. done. Qed.

Lemma wp_load a (Q : node T → store T → Prop) s :
  (∀ n, cells s !! a = Some n → Q n s) → wp (load a) Q s.
Proof. unfold wp, load. destruct (cells s !! a); auto. Qed.

Lemma wp_store a n (Q : unit → store T → Prop) s :
  Q tt (Store (<[a := n]> (cells s)) (next s)) → wp (store_ a n) Q s.
Proof. done. Qed.

Lemma wp_alloc n (Q : ref → store T → Prop) s :
  Q (next s) (Store (<[next s := n]> (cells s)) (N.succ (next s))) →
  wp (alloc n) Q s.
Proof. done. Qed.

Lemma wp_depth_bound (Q : nat → store T → Prop) s :
  Q (N.to_nat (next s)) s → wp depth_bound Q s.
Proof. done. Qed.
End wp_rules.

(** ** Levels are kept by every method *)

Section level_facts.
Context {T : Type}.
Variable lvl : N → nat.
Implicit Types (s : store T) (a m : ref).

Lemma upd_refl l s : levelled lvl s → upd lvl l s s.
Proof. by intros H. Qed.

Lemma upd_trans l s1 s2 s3 :
  upd lvl l s1 s2 → upd lvl l s2 s3 → upd lvl l s1 s3.
Proof.
  intros (_ & Hn1 & Hf1 & Hd1) (H2 & Hn2 & Hf2 & Hd2).
  split; [done|]. split; [congruence|]. split.
  - intros x Hx. rewrite Hf2, Hf1; done.
  - auto.
Qed.

Lemma upd_weaken l l' s1 s2 : l ≤ l' → upd lvl l s1 s2 → upd lvl l' s1 s2.
Proof.
  intros Hl (H1 & H2 & H3 & H4). split; [done|]. split; [done|].
  split; [|done]. intros x Hx. apply H3. lia.
Qed.

Lemma upd_levelled l s s' : upd lvl l s s' → levelled lvl s'.
Proof. by intros [? _]. Qed.

(** Sequencing two calls that write at level at most [l]. *)
Lemma wp_upd_bind {A B} (mm : M T A) (f : A → M T B) l
    (R : A → Prop) (R' : B → Prop) s :
  wp mm (λ x s1, upd lvl l s s1 ∧ R x) s →
  (∀ x s1, upd lvl l s s1 → R x →
           wp (f x) (λ y s2, upd lvl l s1 s2 ∧ R' y) s1) →
  wp (bind mm f) (λ y s2, upd lvl l s s2 ∧ R' y) s.
Proof.
  intros Hm Hf. apply wp_bind. eapply wp_mono; [exact Hm|].
  intros x s1 [Hu HR]. eapply wp_mono; [by apply Hf|].
  intros y s2 [Hu' HR']. split; [|done]. by eapply upd_trans.
Qed.

(** A call that leaves the store as it is. *)
Lemma wp_upd_read {A B} (mm : M T A) (f : A → M T B) l
    (R : A → Prop) (R' : B → Prop) s0 s :
  wp mm (λ x s1, s1 = s ∧ R x) s →
  (∀ x, R x → wp (f x) (λ y s2, upd lvl l s0 s2 ∧ R' y) s) →
  wp (bind mm f) (λ y s2, upd lvl l s0 s2 ∧ R' y) s.
Proof.
  intros Hm Hf. apply wp_bind. eapply wp_mono; [exact Hm|].
  intros x s1 [-> HR]. by apply Hf.
Qed.

Section field_ops.
Context {E : Type} (f : field (T:=T) E) (P : N → nat → E → Prop).
Hypothesis Hget : ∀ nx l n sl,
  node_ok lvl nx l n → fget f n = Ok sl → Forall (P nx l) (arr sl).
Hypothesis Hput : ∀ nx l n sl n',
  node_ok lvl nx l n → fput f n sl = Ok n' →
  Forall (P nx l) (arr sl) → node_ok lvl nx l n'.
Hypothesis Hget_fuel : ∀ n, fget f n ≠ OutOfFuel.
Hypothesis Hput_fuel : ∀ n sl, fput f n sl ≠ OutOfFuel.

Lemma wp_getF a s :
  levelled lvl s →
  wp (getF f a)
     (λ sl s', s' = s ∧ Forall (P (next s) (lvl a)) (arr sl)) s.
Proof.
  intros Hs. unfold getF. apply wp_bind, wp_load. intros n Hn.
  apply wp_lift; [done|]. intros sl Hsl. split; [done|].
  destruct (Hs _ _ Hn) as (_ & _ & Hok). eauto.
Qed.

Lemma wp_putF a sl s :
  levelled lvl s → Forall (P (next s) (lvl a)) (arr sl) →
  wp (putF f a sl) (λ _ s', upd lvl (lvl a) s s' ∧ True) s.
Proof.
  intros Hs Hsl. unfold putF. apply wp_bind, wp_load. intros n Hn.
  apply wp_bind, wp_lift; [done|]. intros n' Hn'.
  apply wp_store. split; [|done].
  destruct (Hs _ _ Hn) as (Ha & Hl & Hok).
  split; [|split; [done|split]].
  - intros a0 n0. simpl. rewrite lookup_insert.
    case_decide as Heq.
    + intros [= <-]. subst a0. eauto.
    + intros H0. by apply Hs.
  - intros x Hx. simpl. rewrite lookup_insert_ne; [done|].
    intros ->. lia.
  - intros x Hx. simpl. rewrite lookup_insert. by case_decide.
Qed.

Lemma wp_lenF a s :
  wp (lenF f a) (λ _ s', s' = s ∧ True) s.
Proof.
  unfold lenF, getF. apply wp_bind, wp_bind, wp_load. intros n Hn.
  apply wp_lift; [done|]. intros sl Hsl. by apply wp_ret.
Qed.

Lemma wp_indexF a i s :
  levelled lvl s →
  wp (indexF f a i) (λ x s', s' = s ∧ P (next s) (lvl a) x) s.
Proof.
  intros Hs. unfold indexF. apply wp_bind.
  eapply wp_mono; [by apply wp_getF|]. intros sl s' [-> Hsl].
  apply wp_lift; [apply index_fuel|]. intros x Hx. split; [done|].
  by eapply index_Forall.
Qed.

Lemma wp_set_indexF a i x s :
  levelled lvl s → P (next s) (lvl a) x →
  wp (set_indexF f a i x) (λ _ s', upd lvl (lvl a) s s' ∧ True) s.
Proof.
  intros Hs Hx. unfold set_indexF. apply wp_bind.
  eapply wp_mono; [by apply wp_getF|]. intros sl s' [-> Hsl].
  apply wp_bind, wp_lift; [apply set_index_fuel|]. intros sl' Hsl'.
  apply wp_putF; [done|]. by eapply set_index_Forall.
Qed.

Lemma wp_insertF a i x s :
  levelled lvl s → P (next s) (lvl a) x →
  wp (insertF f a i x) (λ _ s', upd lvl (lvl a) s s' ∧ True) s.
Proof.
  intros Hs Hx. unfold insertF. apply wp_bind.
  eapply wp_mono; [by apply wp_getF|]. intros sl s' [-> Hsl].
  apply wp_bind, wp_lift; [apply insertTo_fuel|]. intros sl' Hsl'.
  apply wp_putF; [done|].
  eapply insertTo_Forall; [exact Hsl'|done|]. by constructor.
Qed.

Lemma wp_removeF a i s :
  levelled lvl s →
  wp (removeF f a i)
     (λ x s', upd lvl (lvl a) s s' ∧ P (next s) (lvl a) x) s.
Proof.
  intros Hs. unfold removeF. apply wp_bind.
  eapply wp_mono; [by apply wp_getF|]. intros sl s' [-> Hsl].
  apply wp_bind, wp_lift; [apply remove_fuel|]. intros [x sl'] Hsl'.
  destruct (remove_Forall _ _ _ _ _ Hsl' Hsl) as [Hx Hsl2].
  apply wp_bind. eapply wp_mono; [by apply wp_putF|].
  intros _ s' [Hu _]. by apply wp_ret.
Qed.

Lemma wp_spliceF a i j m s :
  levelled lvl s → lvl m = lvl a →
  wp (spliceF f a i j m) (λ _ s', upd lvl (lvl a) s s' ∧ True) s.
Proof.
  intros Hs Hm. unfold spliceF. apply wp_bind.
  eapply wp_mono; [by apply wp_getF|]. intros sm s' [-> Hsm].
  apply wp_bind, wp_lift; [apply removeFrom_fuel|]. intros [r sm'] Hr.
  destruct (removeFrom_Forall _ _ _ _ _ _ Hr Hsm) as [Hr1 Hr2].
  apply wp_bind. eapply wp_mono; [by apply wp_putF|].
  intros _ s1 [Hu1 _]. rewrite Hm in Hu1.
  pose proof (upd_levelled _ _ _ Hu1) as Hs1.
  pose proof Hu1 as (_ & Hn1 & _).
  apply wp_bind. eapply wp_mono; [by apply wp_getF|].
  intros sa s' [-> Hsa].
  apply wp_bind, wp_lift; [apply insertTo_fuel|]. intros sa' Hsa'.
  eapply wp_mono.
  - apply wp_putF; [done|].
    eapply insertTo_Forall; [exact Hsa'|done|].
    rewrite Hn1, <- Hm. done.
  - intros _ s2 [Hu2 _]. split; [|done]. by eapply upd_trans.
Qed.

(** The operations on the copy of a value receiver. *)
Lemma wp_indexL a ln i s :
  levelled lvl s →
  wp (indexL f a ln i) (λ x s', s' = s ∧ P (next s) (lvl a) x) s.
Proof.
  intros Hs. unfold indexL. apply wp_bind.
  eapply wp_mono; [by apply wp_getF|]. intros sl s' [-> Hsl].
  apply wp_lift; [apply index_fuel|]. intros x Hx. split; [done|].
  by eapply (index_Forall _ (Slice (arr sl) ln)).
Qed.

Lemma wp_insertL a ln i x s :
  levelled lvl s → P (next s) (lvl a) x →
  wp (insertL f a ln i x) (λ _ s', upd lvl (lvl a) s s' ∧ True) s.
Proof.
  intros Hs Hx. unfold insertL. apply wp_bind.
  eapply wp_mono; [by apply wp_getF|]. intros sl s' [-> Hsl].
  apply wp_bind, wp_lift; [apply insertTo_fuel|]. intros sl' Hsl'.
  apply wp_bind. eapply wp_mono.
  - apply wp_putF; [done|]. simpl.
    eapply (insertTo_Forall _ (Slice (arr sl) ln)); [exact Hsl'|done|].
    by constructor.
  - intros _ s1 [Hu _]. by apply wp_ret.
Qed.

Lemma wp_removeL a ln i s :
  levelled lvl s →
  wp (removeL f a ln i)
     (λ x s', upd lvl (lvl a) s s' ∧ P (next s) (lvl a) x.1) s.
Proof.
  intros Hs. unfold removeL. apply wp_bind.
  eapply wp_mono; [by apply wp_getF|]. intros sl s' [-> Hsl].
  apply wp_bind, wp_lift; [apply remove_fuel|]. intros [x sl'] Hsl'.
  destruct (remove_Forall _ (Slice (arr sl) ln) _ _ _ Hsl' Hsl)
    as [Hx Hsl2].
  apply wp_bind. eapply wp_mono.
  - apply wp_putF; [done|]. done.
  - intros _ s1 [Hu _]. by apply wp_ret.
Qed.
End field_ops.

(** The two fields. *)
Lemma keysF_get nx l (n : node T) sl :
  node_ok lvl nx l n → fget keysF n = Ok sl → Forall (no_pred nx l) (arr sl).
Proof. intros _ _. by apply Forall_forall. Qed.

Lemma keysF_put nx l (n : node T) sl n' :
  node_ok lvl nx l n → fput keysF n sl = Ok n' →
  Forall (no_pred nx l) (arr sl) → node_ok lvl nx l n'.
Proof.
  unfold node_ok, with_keys. simpl. intros Hn [= <-] _.
  unfold with_keys. by destruct (nbase n).
Qed.

Lemma childrenF_get nx l (n : node T) sl :
  node_ok lvl nx l n → fget childrenF n = Ok sl →
  Forall (slot_ok lvl nx l) (arr sl).
Proof.
  unfold node_ok. simpl. destruct (nbase n); [done|]. by intros ? [= <-].
Qed.

Lemma childrenF_put nx l (n : node T) sl n' :
  node_ok lvl nx l n → fput childrenF n sl = Ok n' →
  Forall (slot_ok lvl nx l) (arr sl) → node_ok lvl nx l n'.
Proof.
  unfold node_ok. simpl. destruct (nbase n); [done|]. by intros ? [= <-].
Qed.

Lemma keysF_get_fuel (n : node T) : fget keysF n ≠ OutOfFuel.
Proof. done. Qed.
Lemma keysF_put_fuel (n : node T) sl : fput keysF n sl ≠ OutOfFuel.
Proof. done. Qed.
Lemma childrenF_get_fuel (n : node T) : fget childrenF n ≠ OutOfFuel.
Proof. simpl. by destruct (nbase n). Qed.
Lemma childrenF_put_fuel (n : node T) sl : fput childrenF n sl ≠ OutOfFuel.
Proof. simpl. by destruct (nbase n). Qed.

Lemma wp_upd_weaken {A} (mm : M T A) l l' (R : A → Prop) s :
  wp mm (λ x s', upd lvl l s s' ∧ R x) s → l ≤ l' →
  wp mm (λ x s', upd lvl l' s s' ∧ R x) s.
Proof.
  intros H Hl. eapply wp_mono; [exact H|]. intros x s' [Hu HR].
  split; [|done]. by eapply upd_weaken.
Qed.

Lemma wp_keys_len a s : wp (lenF keysF a) (λ _ s', s' = s ∧ True) s.
Proof. by apply wp_lenF. Qed.

Lemma wp_children_len a s : wp (lenF childrenF a) (λ _ s', s' = s ∧ True) s.
Proof. apply wp_lenF, childrenF_get_fuel. Qed.

Lemma wp_keys_index a i s : wp (indexF keysF a i) (λ _ s', s' = s ∧ True) s.
Proof.
  unfold indexF, getF. apply wp_bind, wp_bind, wp_load. intros n Hn.
  apply wp_lift; [done|]. intros sl _.
  apply wp_lift; [apply index_fuel|]. done.
Qed.

Lemma wp_children_index a i s :
  levelled lvl s →
  wp (indexF childrenF a i)
     (λ c s', s' = s ∧ slot_ok lvl (next s) (lvl a) c) s.
Proof.
  intros. by apply (wp_indexF childrenF (slot_ok lvl) childrenF_get
                      childrenF_get_fuel).
Qed.

Lemma wp_children_indexL a ln i s :
  levelled lvl s →
  wp (indexL childrenF a ln i)
     (λ c s', s' = s ∧ slot_ok lvl (next s) (lvl a) c) s.
Proof.
  intros. by apply (wp_indexL childrenF (slot_ok lvl) childrenF_get
                      childrenF_get_fuel).
Qed.

Lemma wp_keys_set_index l a i x s :
  levelled lvl s → lvl a ≤ l →
  wp (set_indexF keysF a i x) (λ x s', upd lvl l s s' ∧ True) s.
Proof.
  intros. eapply wp_upd_weaken; [|done]. eapply wp_mono.
  - by apply (wp_set_indexF keysF no_pred keysF_get keysF_put keysF_get_fuel keysF_put_fuel).
  - intros ?? [? ?]. done.
Qed.

Lemma wp_keys_insert l a i x s :
  levelled lvl s → lvl a ≤ l →
  wp (insertF keysF a i x) (λ x s', upd lvl l s s' ∧ True) s.
Proof.
  intros. eapply wp_upd_weaken; [|done]. eapply wp_mono.
  - by apply (wp_insertF keysF no_pred keysF_get keysF_put keysF_get_fuel keysF_put_fuel).
  - intros ?? [? ?]. done.
Qed.

Lemma wp_keys_remove l a i s :
  levelled lvl s → lvl a ≤ l →
  wp (removeF keysF a i) (λ x s', upd lvl l s s' ∧ True) s.
Proof.
  intros. eapply wp_upd_weaken; [|done]. eapply wp_mono.
  - by apply (wp_removeF keysF no_pred keysF_get keysF_put keysF_get_fuel keysF_put_fuel).
  - intros ?? [? ?]. by split.
Qed.

Lemma wp_keys_splice l a i j m s :
  levelled lvl s → lvl a ≤ l → lvl m = lvl a →
  wp (spliceF keysF a i j m) (λ x s', upd lvl l s s' ∧ True) s.
Proof.
  intros. eapply wp_upd_weaken; [|done]. eapply wp_mono.
  - by apply (wp_spliceF keysF no_pred keysF_get keysF_put keysF_get_fuel keysF_put_fuel).
  - intros ?? [? ?]. done.
Qed.

Lemma wp_keys_insertL l a ln i x s :
  levelled lvl s → lvl a ≤ l →
  wp (insertL keysF a ln i x) (λ x s', upd lvl l s s' ∧ True) s.
Proof.
  intros. eapply wp_upd_weaken; [|done]. eapply wp_mono.
  - by apply (wp_insertL keysF no_pred keysF_get keysF_put keysF_get_fuel keysF_put_fuel).
  - intros ?? [? ?]. done.
Qed.

Lemma wp_keys_removeL l a ln i s :
  levelled lvl s → lvl a ≤ l →
  wp (removeL keysF a ln i) (λ x s', upd lvl l s s' ∧ True) s.
Proof.
  intros. eapply wp_upd_weaken; [|done]. eapply wp_mono.
  - by apply (wp_removeL keysF no_pred keysF_get keysF_put keysF_get_fuel keysF_put_fuel).
  - intros ?? [? ?]. by split.
Qed.

Lemma wp_children_insert l a i c s :
  levelled lvl s → lvl a ≤ l → slot_ok lvl (next s) (lvl a) c →
  wp (insertF childrenF a i c) (λ x s', upd lvl l s s' ∧ True) s.
Proof.
  intros. eapply wp_upd_weaken; [|done]. eapply wp_mono.
  - by apply (wp_insertF childrenF (slot_ok lvl) childrenF_get childrenF_put childrenF_get_fuel childrenF_put_fuel).
  - intros ?? [? ?]. done.
Qed.

Lemma wp_children_remove l a i s :
  levelled lvl s → lvl a ≤ l →
  wp (removeF childrenF a i) (λ x s', upd lvl l s s' ∧ slot_ok lvl (next s) (lvl a) x) s.
Proof.
  intros. eapply wp_upd_weaken; [|done]. eapply wp_mono.
  - by apply (wp_removeF childrenF (slot_ok lvl) childrenF_get childrenF_put childrenF_get_fuel childrenF_put_fuel).
  - intros ?? [? ?]. done.
Qed.

Lemma wp_children_splice l a i j m s :
  levelled lvl s → lvl a ≤ l → lvl m = lvl a →
  wp (spliceF childrenF a i j m) (λ x s', upd lvl l s s' ∧ True) s.
Proof.
  intros. eapply wp_upd_weaken; [|done]. eapply wp_mono.
  - by apply (wp_spliceF childrenF (slot_ok lvl) childrenF_get childrenF_put childrenF_get_fuel childrenF_put_fuel).
  - intros ?? [? ?]. done.
Qed.

Lemma wp_children_removeL l a ln i s :
  levelled lvl s → lvl a ≤ l →
  wp (removeL childrenF a ln i) (λ x s', upd lvl l s s' ∧ True) s.
Proof.
  intros. eapply wp_upd_weaken; [|done]. eapply wp_mono.
  - by apply (wp_removeL childrenF (slot_ok lvl) childrenF_get childrenF_put childrenF_get_fuel childrenF_put_fuel).
  - intros ?? [? ?]. by split.
Qed.

End level_facts.

Section method_levels.
Context {T : Type}.
Variable Compare : T → T → Z.
Variable zero : T.
Variable t : Z.
Variable lvl : N → nat.
Implicit Types (s : store T) (a m : ref).

Lemma allocated_pos s a n : levelled lvl s → cells s !! a = Some n → a ≠ 0%N.
Proof. intros Hs Hn. destruct (Hs _ _ Hn) as [? _]. lia. Qed.

Lemma slot_level nx l c : slot_ok lvl nx l c → c ≠ 0%N → S (lvl c) = l.
Proof. by intros [?|[_ ?]]. Qed.

Lemma wp_isAboveMin a s :
  wp (isAboveMin t a) (λ _ s', s' = s ∧ is_Some (cells s !! a)) s.
Proof.
  unfold isAboveMin. apply wp_bind, wp_load. intros n Hn.
  apply wp_ret. eauto.
Qed.

Lemma wp_isBelowMax a s :
  wp (isBelowMax t a) (λ _ s', s' = s ∧ is_Some (cells s !! a)) s.
Proof.
  unfold isBelowMax. apply wp_bind, wp_load. intros n Hn.
  apply wp_ret. eauto.
Qed.

Lemma wp_assertChildLeaf m s :
  wp (assertChildLeaf m) (λ _ s', s' = s ∧ is_Some (cells s !! m)) s.
Proof.
  unfold assertChildLeaf. apply wp_bind, wp_load. intros n Hn.
  destruct (nrole n), (nbase n); try apply wp_panic. apply wp_ret. eauto.
Qed.

Lemma wp_assertChildInternal m s :
  wp (assertChildInternal m) (λ _ s', s' = s ∧ is_Some (cells s !! m)) s.
Proof.
  unfold assertChildInternal. apply wp_bind, wp_load. intros n Hn.
  destruct (nrole n), (nbase n); try apply wp_panic. apply wp_ret. eauto.
Qed.

(** One call that reads, one call that writes, and the last call. *)
Tactic Notation "rd" uconstr(lem) :=
  eapply (wp_upd_read lvl); [eapply lem; eauto|]; simpl.
Tactic Notation "wr" uconstr(lem) :=
  eapply (wp_upd_bind lvl); [eapply lem; eauto; try lia|]; simpl.
Ltac step_state Hs Hnx :=
  let s1 := fresh "s" in
  let Hu := fresh "Hu" in
  intros ? s1 Hu ?;
  pose proof (upd_levelled lvl _ _ _ Hu) as Hs;
  (pose proof (proj1 (proj2 Hu)) as Hnx);
  clear Hu.

Lemma merge_upd l a key m s :
  levelled lvl s → a = 0%N ∨ lvl a ≤ l → a = 0%N ∨ m = 0%N ∨ lvl m = lvl a →
  wp (merge a key m) (λ _ s', upd lvl l s s' ∧ True) s.
Proof.
  intros Hs Hl Hm. unfold merge.
  apply wp_bind, wp_load. intros n Hn.
  pose proof (allocated_pos _ _ _ Hs Hn) as Ha.
  destruct Hl as [?|Hl]; [done|]. destruct Hm as [?|Hm]; [done|].
  destruct (nbase n).
  - rd wp_assertChildLeaf. intros _ [nm Hnm].
    pose proof (allocated_pos _ _ _ Hs Hnm) as Hm0.
    destruct Hm as [?|Hm]; [done|].
    rd wp_keys_len. intros ln _.
    wr wp_keys_insert. clear Hs. step_state Hs Hnx.
    rd wp_keys_len. intros ln' _.
    eapply wp_keys_splice; eauto.
  - rd wp_assertChildInternal. intros _ [nm Hnm].
    pose proof (allocated_pos _ _ _ Hs Hnm) as Hm0.
    destruct Hm as [?|Hm]; [done|].
    rd wp_keys_len. intros ln _.
    wr wp_keys_insert. clear Hs. step_state Hs Hnx.
    rd wp_keys_len. intros ln' _.
    wr wp_keys_splice. clear Hs Hnx. step_state Hs Hnx.
    rd wp_children_len. intros cn _.
    eapply wp_children_splice; eauto.
Qed.

Lemma shuffleLeft_upd l a key m s :
  levelled lvl s → a = 0%N ∨ lvl a ≤ l → a = 0%N ∨ m = 0%N ∨ lvl m = lvl a →
  wp (shuffleLeft a key m) (λ _ s', upd lvl l s s' ∧ True) s.
Proof.
  intros Hs Hl Hm. unfold shuffleLeft.
  apply wp_bind, wp_load. intros n Hn.
  pose proof (allocated_pos _ _ _ Hs Hn) as Ha.
  destruct Hl as [?|Hl]; [done|]. destruct Hm as [?|Hm]; [done|].
  destruct (nbase n).
  - rd wp_assertChildLeaf. intros _ [nm Hnm].
    pose proof (allocated_pos _ _ _ Hs Hnm) as Hm0.
    destruct Hm as [?|Hm]; [done|].
    rd wp_keys_len. intros ln _.
    wr wp_keys_insert. clear Hs. step_state Hs Hnx.
    eapply wp_keys_remove; eauto. lia.
  - rd wp_assertChildInternal. intros _ [nm Hnm].
    pose proof (allocated_pos _ _ _ Hs Hnm) as Hm0.
    destruct Hm as [?|Hm]; [done|].
    rd wp_keys_len. intros ln _.
    wr wp_keys_insert. clear Hs. step_state Hs Hnx.
    rd wp_children_len. intros cn _.
    wr wp_children_remove. clear Hs. intros c s1 Hu Hc.
    pose proof (upd_levelled lvl _ _ _ Hu) as Hs.
    pose proof (proj1 (proj2 Hu)) as Hnx1. clear Hu.
    wr wp_children_insert.
    { rewrite Hnx1, <- Hm. done. }
    clear Hs. step_state Hs Hnx2.
    eapply wp_keys_remove; eauto. lia.
Qed.

Lemma shuffleRight_upd l a key m s :
  levelled lvl s → a = 0%N ∨ lvl a ≤ l → a = 0%N ∨ m = 0%N ∨ lvl m = lvl a →
  wp (shuffleRight a key m) (λ _ s', upd lvl l s s' ∧ True) s.
Proof.
  intros Hs Hl Hm. unfold shuffleRight.
  apply wp_bind, wp_load. intros n Hn.
  pose proof (allocated_pos _ _ _ Hs Hn) as Ha.
  destruct Hl as [?|Hl]; [done|]. destruct Hm as [?|Hm]; [done|].
  destruct (nbase n).
  - rd wp_assertChildLeaf. intros _ [nm Hnm].
    pose proof (allocated_pos _ _ _ Hs Hnm) as Hm0.
    destruct Hm as [?|Hm]; [done|].
    wr wp_keys_insert. clear Hs. step_state Hs Hnx.
    rd wp_keys_len. intros ln _.
    eapply wp_keys_remove; eauto. lia.
  - rd wp_assertChildInternal. intros _ [nm Hnm].
    pose proof (allocated_pos _ _ _ Hs Hnm) as Hm0.
    destruct Hm as [?|Hm]; [done|].
    wr wp_keys_insert. clear Hs. step_state Hs Hnx.
    rd wp_keys_len. intros kn _.
    wr wp_children_remove. clear Hs. intros c s1 Hu Hc.
    pose proof (upd_levelled lvl _ _ _ Hu) as Hs.
    pose proof (proj1 (proj2 Hu)) as Hnx1. clear Hu.
    wr wp_children_insert.
    { rewrite Hnx1, <- Hm. done. }
    clear Hs. step_state Hs Hnx2.
    rd wp_keys_len. intros ln _.
    eapply wp_keys_remove; eauto. lia.
Qed.

Lemma slot_sibling nx l c m :
  slot_ok lvl nx l c → slot_ok lvl nx l m →
  c = 0%N ∨ m = 0%N ∨ lvl m = lvl c.
Proof. intros [?|[_ ?]] [?|[_ ?]]; auto. right. right. lia. Qed.

Lemma slot_below nx l l' c :
  slot_ok lvl nx l c → l ≤ l' → c = 0%N ∨ lvl c ≤ l'.
Proof. intros [?|[_ ?]] ?; auto. right. lia. Qed.

(** The store moves on: [Hs] and [Hnx] speak about the new store. *)
Ltac nx_goal :=
  match goal with Hnx : next _ = _ |- _ => rewrite ?Hnx end.
Ltac nx_in H :=
  match goal with Hnx : next _ = _ |- _ => rewrite ?Hnx in H end.
Ltac lv :=
  solve [ eauto | lia | right; lia | right; right; lia
        | split; [lia | right; lia]
        | eapply slot_sibling; eassumption
        | eapply slot_below; [eassumption|lia] ].
Tactic Notation "rd'" uconstr(lem) "as" simple_intropattern(x) ident(R) :=
  eapply (wp_upd_read lvl); [eapply lem; eauto|]; simpl;
  intros x R; nx_in R.
Tactic Notation "wr'" uconstr(lem) "as" simple_intropattern(x) ident(R) :=
  eapply (wp_upd_bind lvl);
  [eapply lem; try nx_goal; lv|]; simpl;
  let s1 := fresh "s" in
  let Hu := fresh "Hu" in
  intros x s1 Hu R; nx_in R;
  match goal with
  | Hs : levelled lvl ?s0, Hnx : next ?s0 = _ |- _ =>
      rewrite <- (proj1 (proj2 Hu)) in Hnx; clear Hs;
      pose proof (upd_levelled lvl _ _ _ Hu) as Hs; clear Hu
  end.
Tactic Notation "wr'" uconstr(lem) "as" simple_intropattern(x) :=
  let R := fresh "R" in wr' lem as x R; clear R.
Tactic Notation "wr'" uconstr(lem) := wr' lem as _.

Lemma deletePred_upd fuel : ∀ l a s,
  levelled lvl s → a = 0%N ∨ lvl a ≤ l →
  0 < fuel ∧ (a = 0%N ∨ lvl a < fuel) →
  wp (deletePred t fuel a) (λ _ s', upd lvl l s s' ∧ True) s.
Proof.
  induction fuel as [|fuel IH]; intros l a s Hs Hl [Hf0 Hf]; [lia|].
  simpl. apply wp_bind, wp_load. intros n Hn.
  pose proof (allocated_pos _ _ _ Hs Hn) as Ha.
  destruct Hl as [?|Hl]; [done|]. destruct Hf as [?|Hf]; [done|].
  remember (next s) as nx eqn:Hnx. symmetry in Hnx.
  destruct (nbase n) as [ks|ks cs].
  - rd' wp_keys_len as ln R. eapply wp_keys_remove; eauto.
  - rd' wp_children_indexL as child Hchild.
    rd' wp_isAboveMin as above Hnc. destruct Hnc as [nc Hnc].
    pose proof (allocated_pos _ _ _ Hs Hnc) as Hc0.
    pose proof (slot_level _ _ _ Hchild Hc0) as Hcl.
    destruct above.
    + apply IH; lv.
    + rd' wp_children_indexL as right Hright.
      rd' wp_isAboveMin as above_right Hnr. destruct Hnr as [nr Hnr].
      pose proof (allocated_pos _ _ _ Hs Hnr) as Hr0.
      pose proof (slot_level _ _ _ Hright Hr0) as Hrl.
      destruct above_right.
      * wr' wp_keys_removeL as [key kn].
        wr' shuffleLeft_upd as x.
        wr' wp_keys_insertL.
        apply IH; lv.
      * wr' wp_children_removeL.
        wr' wp_keys_removeL as [key kn].
        wr' merge_upd.
        apply IH; lv.
Qed.

Lemma deleteSucc_upd fuel : ∀ l a s,
  levelled lvl s → a = 0%N ∨ lvl a ≤ l →
  0 < fuel ∧ (a = 0%N ∨ lvl a < fuel) →
  wp (deleteSucc t fuel a) (λ _ s', upd lvl l s s' ∧ True) s.
Proof.
  induction fuel as [|fuel IH]; intros l a s Hs Hl [Hf0 Hf]; [lia|].
  simpl. apply wp_bind, wp_load. intros n Hn.
  pose proof (allocated_pos _ _ _ Hs Hn) as Ha.
  destruct Hl as [?|Hl]; [done|]. destruct Hf as [?|Hf]; [done|].
  remember (next s) as nx eqn:Hnx. symmetry in Hnx.
  destruct (nbase n) as [ks|ks cs].
  - eapply wp_keys_remove; eauto.
  - rd' wp_children_indexL as child Hchild.
    rd' wp_isAboveMin as above Hnc. destruct Hnc as [nc Hnc].
    pose proof (allocated_pos _ _ _ Hs Hnc) as Hc0.
    pose proof (slot_level _ _ _ Hchild Hc0) as Hcl.
    destruct above.
    + apply IH; lv.
    + rd' wp_children_indexL as left Hleft.
      rd' wp_isAboveMin as above_left Hnl. destruct Hnl as [nl Hnl].
      pose proof (allocated_pos _ _ _ Hs Hnl) as Hl0.
      pose proof (slot_level _ _ _ Hleft Hl0) as Hll.
      destruct above_left.
      * wr' wp_keys_removeL as [key kn].
        wr' shuffleRight_upd as x.
        wr' wp_keys_insertL.
        apply IH; lv.
      * wr' wp_keys_removeL as [key kn].
        wr' merge_upd.
        apply IH; lv.
Qed.

Lemma wp_read_bind {A B} (mm : M T A) (f : A → M T B)
    (R : A → Prop) (R' : B → Prop) s :
  wp mm (λ x s', s' = s ∧ R x) s →
  (∀ x, R x → wp (f x) (λ y s', s' = s ∧ R' y) s) →
  wp (bind mm f) (λ y s', s' = s ∧ R' y) s.
Proof.
  intros Hm Hf. apply wp_bind. eapply wp_mono; [exact Hm|].
  intros x s' [-> HR]. by apply Hf.
Qed.

(** The guarded test [c && n.children[j].isAboveMin()]. *)
Lemma wp_guarded_above (c : bool) a j s :
  levelled lvl s →
  wp (if c then bind (indexF childrenF a j) (λ x, isAboveMin t x)
      else ret false)
     (λ _ s', s' = s ∧ True) s.
Proof.
  intros Hs. destruct c; [|by apply wp_ret].
  eapply wp_read_bind; [by apply wp_children_index|].
  intros x _. eapply wp_mono; [apply wp_isAboveMin|]. by intros ?? [-> _].
Qed.

Lemma remove_upd fuel : ∀ l a k s,
  levelled lvl s → a = 0%N ∨ lvl a ≤ l →
  0 < fuel ∧ (a = 0%N ∨ lvl a < fuel) →
  wp (remove Compare zero t fuel a k) (λ _ s', upd lvl l s s' ∧ True) s.
Proof.
  induction fuel as [|fuel IH]; intros l a k s Hs Hl [Hf0 Hf]; [lia|].
  simpl. apply wp_bind, wp_load. intros n Hn.
  pose proof (allocated_pos _ _ _ Hs Hn) as Ha.
  destruct Hl as [?|Hl]; [done|]. destruct Hf as [?|Hf]; [done|].
  remember (next s) as nx eqn:Hnx. symmetry in Hnx.
  destruct (find Compare zero (keys n) k) as [i found].
  destruct (nbase n) as [ks|ks cs].
  - destruct found.
    + wr' wp_keys_remove. apply wp_ret. by split.
    + apply wp_ret. by split.
  - rd' wp_children_index as child Hchild.
    destruct found.
    + rd' wp_isAboveMin as above Hnc. destruct Hnc as [nc Hnc].
      pose proof (allocated_pos _ _ _ Hs Hnc) as Hc0.
      pose proof (slot_level _ _ _ Hchild Hc0) as Hcl.
      destruct above.
      * wr' deletePred_upd as x.
        eapply wp_keys_set_index; eauto.
      * rd' wp_children_index as right Hright.
        rd' wp_isAboveMin as above_right Hnr. destruct Hnr as [nr Hnr].
        pose proof (allocated_pos _ _ _ Hs Hnr) as Hr0.
        pose proof (slot_level _ _ _ Hright Hr0) as Hrl.
        destruct above_right.
        -- wr' deleteSucc_upd as x.
           eapply wp_keys_set_index; eauto.
        -- wr' wp_keys_remove as key.
           rd' wp_children_index as right' Hright'.
           wr' merge_upd.
           wr' wp_children_remove as removed.
           apply IH; lv.
    + rd' wp_isAboveMin as above Hnc. destruct Hnc as [nc Hnc].
      pose proof (allocated_pos _ _ _ Hs Hnc) as Hc0.
      pose proof (slot_level _ _ _ Hchild Hc0) as Hcl.
      destruct above; [apply IH; lv|].
      rd' wp_guarded_above as above_left R.
      destruct above_left.
      * wr' wp_keys_remove as stolen.
        rd' wp_children_index as left Hleft.
        wr' shuffleRight_upd as x.
        wr' wp_keys_insert.
        apply IH; lv.
      * rd' wp_keys_len as kn R'.
        rd' wp_guarded_above as above_right R''.
        destruct above_right.
        -- wr' wp_keys_remove as stolenKey.
           rd' wp_children_index as right Hright.
           wr' shuffleLeft_upd as x.
           wr' wp_keys_insert.
           apply IH; lv.
        -- destruct (0 <? i)%Z.
           ++ rd' wp_children_index as left Hleft.
              wr' wp_keys_remove as key.
              wr' merge_upd.
              wr' wp_children_remove as removed.
              rd' wp_children_index as child' Hchild'.
              apply IH; [done|lv|].
              split; [lia|]. destruct Hchild' as [?|[_ ?]]; [by left|].
              right. lia.
           ++ rd' wp_keys_len as kn' R3.
              destruct (i <? kn')%Z.
              ** wr' wp_keys_remove as key.
                 rd' wp_children_index as right Hright.
                 wr' merge_upd.
                 wr' wp_children_remove as removed.
                 apply IH; lv.
              ** apply IH; lv.
Qed.
End method_levels.

(** ** Levels under allocation *)

Section alloc_levels.
Context {T : Type}.
Variable Compare : T → T → Z.
Variable zero : T.
Variable t : Z.
Implicit Types (s : store T) (a m : ref) (lvl : N → nat).

Lemma slot_ok_mono lvl lvl' nx nx' l c :
  slot_ok lvl nx l c → (nx ≤ nx')%N → (∀ x, (x < nx)%N → lvl' x = lvl x) →
  slot_ok lvl' nx' l c.
Proof.
  intros [?|[Hc Hl]] Hnx Hlvl; [by left|]. right. split; [lia|].
  by rewrite Hlvl.
Qed.

Lemma node_ok_mono lvl lvl' nx nx' l (n : node T) :
  node_ok lvl nx l n → (nx ≤ nx')%N → (∀ x, (x < nx)%N → lvl' x = lvl x) →
  node_ok lvl' nx' l n.
Proof.
  unfold node_ok. destruct (nbase n); [done|]. intros H Hnx Hlvl.
  eapply Forall_impl; [exact H|]. intros c Hc. by eapply slot_ok_mono.
Qed.

Lemma ext_refl lvl s : levelled lvl s → ext lvl s lvl s.
Proof. intros H. split; [done|]. split; [lia|]. split; auto. Qed.

Lemma ext_trans lvl1 lvl2 lvl3 s1 s2 s3 :
  ext lvl1 s1 lvl2 s2 → ext lvl2 s2 lvl3 s3 → ext lvl1 s1 lvl3 s3.
Proof.
  intros (_ & Hn1 & Hl1 & Hd1) (H2 & Hn2 & Hl2 & Hd2).
  split; [done|]. split; [lia|]. split; [|auto].
  intros a Ha. rewrite Hl2 by lia. by apply Hl1.
Qed.

Lemma upd_ext lvl l s s' : upd lvl l s s' → ext lvl s lvl s'.
Proof.
  intros (H1 & H2 & _ & H4). split; [done|]. split; [lia|]. split; auto.
Qed.

Lemma ext_levelled lvl s lvl' s' : ext lvl s lvl' s' → levelled lvl' s'.
Proof. by intros [? _]. Qed.

Lemma wp_alloc_ext lvl l (n : node T) s :
  levelled lvl s → (0 < next s)%N → l ≤ N.to_nat (next s) →
  node_ok (set_level lvl (next s) l) (N.succ (next s)) l n →
  wp (alloc n)
     (λ a s', a = next s
              ∧ ext lvl s (set_level lvl (next s) l) s'
              ∧ cells s' !! a = Some n
              ∧ next s' = N.succ (next s)) s.
Proof.
  intros Hs Hpos Hl Hn. apply wp_alloc.
  assert (Hsame : ∀ x, (x < next s)%N → set_level lvl (next s) l x = lvl x).
  { intros x Hx. unfold set_level. case_decide; [lia|done]. }
  split; [done|]. split; [|split]; simpl.
  - unfold ext. simpl. split; [|split; [lia|split; [done|]]].
    + intros a0 n0. simpl. rewrite lookup_insert. case_decide as Heq.
      * intros [= <-]. subst a0. split; [lia|].
        assert (Hnew : set_level lvl (next s) l (next s) = l).
        { unfold set_level. by rewrite decide_True. }
        rewrite Hnew. split; [lia|done].
      * intros H0. destruct (Hs _ _ H0) as (Ha0 & Hl0 & Hok).
        split; [lia|]. rewrite Hsame by lia. split; [lia|].
        eapply node_ok_mono; [exact Hok|lia|done].
    + intros x Hx. simpl. rewrite lookup_insert. by case_decide.
  - by rewrite lookup_insert_eq.
  - done.
Qed.

Lemma wp_ext_bind {A B} (mm : M T A) (f : A → M T B) lvl
    (R : (N → nat) → store T → A → Prop)
    (R' : (N → nat) → store T → B → Prop) s :
  wp mm (λ x s1, ∃ lvl1, ext lvl s lvl1 s1 ∧ R lvl1 s1 x) s →
  (∀ x s1 lvl1, ext lvl s lvl1 s1 → R lvl1 s1 x →
     wp (f x) (λ y s2, ∃ lvl2, ext lvl1 s1 lvl2 s2 ∧ R' lvl2 s2 y) s1) →
  wp (bind mm f) (λ y s2, ∃ lvl2, ext lvl s lvl2 s2 ∧ R' lvl2 s2 y) s.
Proof.
  intros Hm Hf. apply wp_bind. eapply wp_mono; [exact Hm|].
  intros x s1 (lvl1 & He & HR). eapply wp_mono; [by eapply Hf|].
  intros y s2 (lvl2 & He' & HR'). exists lvl2. split; [|done].
  by eapply ext_trans.
Qed.

Lemma wp_ext_upd {A B} (mm : M T A) (f : A → M T B) lvl l
    (R : A → Prop) (R' : (N → nat) → store T → B → Prop) s :
  wp mm (λ x s1, upd lvl l s s1 ∧ R x) s →
  (∀ x s1, upd lvl l s s1 → R x →
     wp (f x) (λ y s2, ∃ lvl2, ext lvl s1 lvl2 s2 ∧ R' lvl2 s2 y) s1) →
  wp (bind mm f) (λ y s2, ∃ lvl2, ext lvl s lvl2 s2 ∧ R' lvl2 s2 y) s.
Proof.
  intros Hm Hf. apply wp_bind. eapply wp_mono; [exact Hm|].
  intros x s1 (Hu & HR). eapply wp_mono; [by eapply Hf|].
  intros y s2 (lvl2 & He' & HR'). exists lvl2. split; [|done].
  eapply ext_trans; [|exact He']. by eapply upd_ext.
Qed.

Lemma wp_ext_read {A B} (mm : M T A) (f : A → M T B) lvl
    (R : A → Prop) (R' : (N → nat) → store T → B → Prop) s0 s :
  wp mm (λ x s1, s1 = s ∧ R x) s →
  (∀ x, R x →
     wp (f x) (λ y s2, ∃ lvl2, ext lvl s0 lvl2 s2 ∧ R' lvl2 s2 y) s) →
  wp (bind mm f) (λ y s2, ∃ lvl2, ext lvl s0 lvl2 s2 ∧ R' lvl2 s2 y) s.
Proof.
  intros Hm Hf. apply wp_bind. eapply wp_mono; [exact Hm|].
  intros x s1 [-> HR]. by apply Hf.
Qed.

Lemma wp_ext_last {A} (mm : M T A) lvl l (R : A → Prop)
    (R' : (N → nat) → store T → A → Prop) s :
  wp mm (λ x s1, upd lvl l s s1 ∧ R x) s →
  (∀ x s1, upd lvl l s s1 → R x → R' lvl s1 x) →
  wp mm (λ y s2, ∃ lvl2, ext lvl s lvl2 s2 ∧ R' lvl2 s2 y) s.
Proof.
  intros Hm HR. eapply wp_mono; [exact Hm|]. intros x s1 [Hu Hx].
  exists lvl. split; [by eapply upd_ext|]. by eapply HR.
Qed.

Lemma replicate_nil_slots lvl nx l k : Forall (slot_ok lvl nx l) (replicate k 0%N).
Proof. apply Forall_replicate. by left. Qed.

(** [split] puts the new sibling at the level of its receiver. *)
Lemma split_ext lvl a s :
  levelled lvl s →
  wp (split zero t a)
     (λ r s', ∃ lvl', ext lvl s lvl' s'
                      ∧ (0 < r.2 < next s')%N ∧ lvl' r.2 = lvl a) s.
Proof.
  intros Hs. unfold split. apply wp_bind, wp_load. intros n Hn.
  destruct (Hs _ _ Hn) as (Ha & Hla & Hok).
  unfold node_ok in Hok.
  set (l := lvl a). set (lvl1 := set_level lvl (next s) l).
  assert (Hl1a : lvl1 a = l).
  { unfold lvl1, set_level. case_decide; [lia|done]. }
  assert (Hl1s : lvl1 (next s) = l).
  { unfold lvl1, set_level. by rewrite decide_True. }
  destruct (nbase n) as [ks|ks cs].
  - eapply (wp_ext_bind _ _ lvl
              (λ lvl' s' r, r = next s ∧ lvl' = lvl1 ∧ next s' = N.succ (next s))).
    { eapply wp_mono.
      - apply (wp_alloc_ext lvl l); [done|lia|lia|]. unfold node_ok. simpl.
        done.
      - intros r s' (-> & He & _ & Hnx). exists lvl1. auto. }
    intros sib s1 ? He (-> & -> & Hnx1).
    pose proof (ext_levelled _ _ _ _ He) as Hs1.
    eapply (wp_ext_upd _ _ lvl1 l (λ _, True)).
    { apply wp_keys_splice; [done|lia|congruence]. }
    intros _ s2 Hu2 _.
    eapply (wp_ext_upd _ _ lvl1 l (λ _, True)).
    { apply wp_keys_remove; [by destruct Hu2|lia]. }
    intros x s3 Hu3 _. apply wp_ret. exists lvl1.
    split; [apply ext_refl; by destruct Hu3|]. simpl.
    destruct Hu2 as (_ & Hn2 & _). destruct Hu3 as (_ & Hn3 & _).
    split; [lia|done].
  - eapply (wp_ext_bind _ _ lvl
              (λ lvl' s' r, r = next s ∧ lvl' = lvl1 ∧ next s' = N.succ (next s))).
    { eapply wp_mono.
      - apply (wp_alloc_ext lvl l); [done|lia|lia|]. unfold node_ok. simpl.
        apply replicate_nil_slots.
      - intros r s' (-> & He & _ & Hnx). exists lvl1. auto. }
    intros sib s1 ? He (-> & -> & Hnx1).
    pose proof (ext_levelled _ _ _ _ He) as Hs1.
    eapply (wp_ext_upd _ _ lvl1 l (λ _, True)).
    { apply wp_children_splice; [done|lia|congruence]. }
    intros _ s2 Hu2 _.
    eapply (wp_ext_upd _ _ lvl1 l (λ _, True)).
    { apply wp_keys_splice; [by destruct Hu2|lia|congruence]. }
    intros _ s3 Hu3 _.
    eapply (wp_ext_upd _ _ lvl1 l (λ _, True)).
    { apply wp_keys_remove; [by destruct Hu3|lia]. }
    intros x s4 Hu4 _. apply wp_ret. exists lvl1.
    split; [apply ext_refl; by destruct Hu4|]. simpl.
    destruct Hu2 as (_ & Hn2 & _). destruct Hu3 as (_ & Hn3 & _).
    destruct Hu4 as (_ & Hn4 & _).
    split; [lia|done].
Qed.

Lemma insertBelowMax_ext fuel : ∀ lvl a k s,
  levelled lvl s → 0 < fuel ∧ (a = 0%N ∨ lvl a < fuel) →
  wp (insertBelowMax Compare zero t fuel a k)
     (λ _ s', ∃ lvl', ext lvl s lvl' s' ∧ True) s.
Proof.
  induction fuel as [|fuel IH]; intros lvl a k s Hs [Hf0 Hf]; [lia|].
  simpl. apply wp_bind, wp_load. intros n Hn.
  destruct (Hs _ _ Hn) as (Ha & Hla & _).
  destruct Hf as [?|Hf]; [lia|].
  destruct (find Compare zero (keys n) k) as [i found].
  destruct (nbase n) as [ks|ks cs].
  - destruct found.
    + eapply (wp_ext_last _ lvl (lvl a) (λ _, True) (λ _ _ _, True));
        [by apply wp_keys_set_index|done].
    + eapply (wp_ext_last _ lvl (lvl a) (λ _, True) (λ _ _ _, True));
        [by apply wp_keys_insert|done].
  - destruct found.
    { eapply (wp_ext_last _ lvl (lvl a) (λ _, True) (λ _ _ _, True));
        [by apply wp_keys_set_index|done]. }
    eapply (wp_ext_read _ _ lvl); [by apply wp_children_index|].
    intros child Hchild. simpl in Hchild.
    eapply (wp_ext_read _ _ lvl); [by apply wp_isBelowMax|].
    intros below [nc Hnc].
    destruct (Hs _ _ Hnc) as (Hc & _ & _).
    assert (Hcl : S (lvl child) = lvl a).
    { destruct Hchild as [?|[_ ?]]; [lia|done]. }
    destruct below; simpl.
    { apply IH; [done|]. split; [lia|right; lia]. }
    eapply (wp_ext_bind _ _ lvl
              (λ lvl' s' r, (0 < r.2 < next s')%N ∧ lvl' r.2 = lvl child)).
    { by apply split_ext. }
    intros [medianKey newChild] s1 lvl1 He1 [Hnew Hnewl]. simpl in *.
    pose proof (ext_levelled _ _ _ _ He1) as Hs1.
    destruct He1 as (_ & Hnx1 & Hsame1 & _).
    assert (Hla1 : lvl1 a = lvl a) by (apply Hsame1; lia).
    assert (Hlc1 : lvl1 child = lvl child) by (apply Hsame1; lia).
    eapply (wp_ext_upd _ _ lvl1 (lvl1 a) (λ _, True)).
    { by apply wp_keys_insert. }
    intros _ s2 Hu2 _.
    pose proof (proj1 Hu2) as Hs2. pose proof (proj1 (proj2 Hu2)) as Hnx2.
    eapply (wp_ext_upd _ _ lvl1 (lvl1 a) (λ _, True)).
    { apply wp_children_insert; [done|done|]. right. split; [lia|lia]. }
    intros _ s3 Hu3 _.
    pose proof (proj1 Hu3) as Hs3.
    eapply (wp_ext_read _ _ lvl1); [by apply wp_keys_index|].
    intros ki _.
    destruct (0 <? Compare k ki)%Z.
    + apply IH; [done|]. split; [lia|right; lia].
    + apply IH; [done|]. split; [lia|right; lia].
Qed.

(** [asRoot], [asChild] and [shrink] copy an object at its level. *)
Lemma copy_ext lvl (r : role) a s :
  levelled lvl s →
  wp (bind (load a) (λ n, alloc (Node r (nbase n))))
     (λ x s', ∃ lvl', ext lvl s lvl' s'
                      ∧ is_Some (cells s' !! x) ∧ lvl' x = lvl a) s.
Proof.
  intros Hs. apply wp_bind, wp_load. intros n Hn.
  destruct (Hs _ _ Hn) as (Ha & Hla & Hok).
  eapply wp_mono.
  - apply (wp_alloc_ext lvl (lvl a)); [done|lia|lia|].
    eapply node_ok_mono; [exact Hok|lia|].
    intros x Hx. unfold set_level. case_decide; [lia|done].
  - intros x s' (-> & He & Hx & _). simpl.
    exists (set_level lvl (next s) (lvl a)). split; [done|].
    split; [by rewrite Hx|]. unfold set_level. by rewrite decide_True.
Qed.

Lemma shrink_ext lvl a s :
  levelled lvl s →
  wp (shrink a)
     (λ x s', ∃ lvl', ext lvl s lvl' s' ∧ is_Some (cells s' !! x)) s.
Proof.
  intros Hs. unfold shrink. apply wp_bind, wp_load. intros n Hn.
  destruct (Hs _ _ Hn) as (Ha & Hla & Hok).
  destruct (nbase n) as [ks|ks cs] eqn:Hb.
  - eapply wp_mono.
    + apply (wp_alloc_ext lvl (lvl a)); [done|lia|lia|].
      eapply node_ok_mono; [exact Hok|lia|].
      intros x Hx. unfold set_level. case_decide; [lia|done].
    + intros x s' (-> & He & Hx & _). simpl.
      exists (set_level lvl (next s) (lvl a)). split; [done|].
      by rewrite Hx.
  - eapply (wp_ext_read _ _ lvl (λ _, True)
              (λ _ s' x, is_Some (cells s' !! x))).
    { eapply wp_mono; [by apply wp_children_index|]. by intros ?? [-> _]. }
    intros c _. unfold asRoot. eapply wp_mono; [by apply copy_ext|].
    intros x s' (lvl' & He & Hx & _). eauto.
Qed.

Lemma growRoot_ok lvl b s :
  tree_ok lvl b s →
  wp (growRoot zero t b) (λ b' s', ∃ lvl', tree_ok lvl' b' s') s.
Proof.
  intros [Hs [nr Hr]]. unfold growRoot.
  destruct (Hs _ _ Hr) as (Hrpos & Hrl & _).
  set (R := λ (lvl' : N → nat) (s' : store T) (b' : BTree),
              is_Some (cells s' !! root b')).
  eapply wp_mono with
    (Q := λ b' s', ∃ lvl', ext lvl s lvl' s' ∧ R lvl' s' b').
  2:{ intros b' s' (lvl' & He & Hb'). exists lvl'. split; [|done].
      by eapply ext_levelled. }
  unfold asChild.
  eapply (wp_ext_bind _ _ lvl
            (λ lvl' s' x, (0 < x < next s')%N ∧ lvl' x = lvl (root b))).
  { eapply wp_mono; [by apply copy_ext|].
    intros x s' (lvl' & He & [nx Hx] & Hl). exists lvl'.
    split; [done|]. split; [|done].
    by destruct (ext_levelled _ _ _ _ He _ _ Hx) as (? & _). }
  intros root_ s1 lvl1 He1 [Hr1 Hl1].
  pose proof (ext_levelled _ _ _ _ He1) as Hs1.
  pose proof (proj1 (proj2 He1)) as Hnx1.
  set (l2 := S (lvl (root b))).
  set (lvl2 := set_level lvl1 (next s1) l2).
  eapply (wp_ext_bind _ _ lvl1
            (λ lvl' s' x, x = next s1 ∧ lvl' = lvl2
                          ∧ is_Some (cells s' !! x)
                          ∧ next s' = N.succ (next s1))).
  { unfold newRootInternalNode. eapply wp_mono.
    - apply (wp_alloc_ext lvl1 l2); [done|lia|unfold l2; lia|].
      unfold node_ok. simpl. apply replicate_nil_slots.
    - intros x s' (-> & He & Hx & Hnx). exists lvl2.
      split; [done|]. rewrite Hx. eauto. }
  intros newRoot s2 ? He2 (-> & -> & Hnew2 & Hnx2).
  pose proof (ext_levelled _ _ _ _ He2) as Hs2.
  assert (Hl2r : lvl2 root_ = lvl (root b)).
  { unfold lvl2, set_level. case_decide; [lia|done]. }
  assert (Hl2n : lvl2 (next s1) = l2).
  { unfold lvl2, set_level. by rewrite decide_True. }
  eapply (wp_ext_bind _ _ lvl2
            (λ lvl' s' r, (0 < r.2 < next s')%N ∧ lvl' r.2 = lvl2 root_)).
  { by apply split_ext. }
  intros [medianKey sibling] s3 lvl3 He3 [Hsib Hsibl]. simpl in *.
  pose proof (ext_levelled _ _ _ _ He3) as Hs3.
  destruct He3 as (_ & Hnx3 & Hsame3 & Hdom3).
  assert (Hl3r : lvl3 root_ = lvl (root b)).
  { rewrite Hsame3 by lia. done. }
  assert (Hl3n : lvl3 (next s1) = l2).
  { rewrite Hsame3 by lia. done. }
  eapply (wp_ext_upd _ _ lvl3 l2 (λ _, True)).
  { apply wp_keys_insert; [done|lia]. }
  intros _ s4 Hu4 _.
  pose proof (proj1 Hu4) as Hs4. pose proof (proj1 (proj2 Hu4)) as Hnx4.
  eapply (wp_ext_upd _ _ lvl3 l2 (λ _, True)).
  { apply wp_children_insert; [done|lia|].
    right. split; [lia|]. rewrite Hl3r, Hl3n. done. }
  intros _ s5 Hu5 _.
  pose proof (proj1 Hu5) as Hs5. pose proof (proj1 (proj2 Hu5)) as Hnx5.
  eapply (wp_ext_upd _ _ lvl3 l2 (λ _, True)).
  { apply wp_children_insert; [done|lia|].
    right. split; [lia|]. rewrite Hsibl, Hl3n, Hl2r. done. }
  intros _ s6 Hu6 _. apply wp_ret. exists lvl3.
  split; [apply ext_refl; by destruct Hu6|]. unfold R. simpl.
  destruct Hu4 as (_ & _ & _ & Hd4). destruct Hu5 as (_ & _ & _ & Hd5).
  destruct Hu6 as (_ & _ & _ & Hd6). auto.
Qed.

Lemma Insert_ok lvl b key s :
  tree_ok lvl b s →
  wp (Insert Compare zero t b key) (λ b' s', ∃ lvl', tree_ok lvl' b' s') s.
Proof.
  intros Hok. unfold Insert. apply wp_bind.
  eapply wp_mono; [apply wp_isBelowMax|]. intros below s' [-> _].
  apply wp_bind.
  eapply wp_mono with (Q := λ b' s', ∃ lvl', tree_ok lvl' b' s').
  { destruct below; simpl; [apply wp_ret; eauto|by apply (growRoot_ok lvl)]. }
  intros b1 s1 (lvl1 & Hs1 & [n1 Hr1]).
  apply wp_bind, wp_depth_bound.
  destruct (Hs1 _ _ Hr1) as (Hrpos & Hrl & _).
  apply wp_bind. eapply wp_mono.
  { apply (insertBelowMax_ext _ lvl1); [done|]. split; [lia|right; lia]. }
  intros _ s2 (lvl2 & He2 & _). apply wp_ret. exists lvl2.
  split; [by eapply ext_levelled|]. destruct He2 as (_ & _ & _ & Hd).
  apply Hd. eauto.
Qed.

Lemma Remove_ok lvl b key s :
  tree_ok lvl b s →
  wp (Remove Compare zero t b key) (λ b' s', ∃ lvl', tree_ok lvl' b' s') s.
Proof.
  intros [Hs [nr Hr]]. unfold Remove.
  destruct (Hs _ _ Hr) as (Hrpos & Hrl & _).
  apply wp_bind, wp_depth_bound. apply wp_bind. eapply wp_mono.
  { apply (remove_upd _ _ _ lvl _ (lvl (root b))); [done|right; lia|].
    split; [lia|right; lia]. }
  intros _ s1 [(Hs1 & _ & _ & Hd1) _].
  apply wp_bind. eapply wp_mono; [apply wp_isAboveMin|].
  intros above s' [-> Hr1]. destruct above; simpl.
  - apply wp_ret. exists lvl. by split.
  - apply wp_bind. eapply wp_mono; [by apply shrink_ext|].
    intros r s2 (lvl2 & He2 & Hr2). apply wp_ret. exists lvl2.
    split; [by eapply ext_levelled|done].
Qed.

Lemma do_calls_ok cs : ∀ lvl b s,
  tree_ok lvl b s →
  wp (do_calls Compare zero t b cs) (λ b' s', ∃ lvl', tree_ok lvl' b' s') s.
Proof.
  induction cs as [|c cs IH]; intros lvl b s Hok; simpl.
  - apply wp_ret. eauto.
  - apply wp_bind. eapply wp_mono.
    + destruct c; simpl; [by eapply Insert_ok|by eapply Remove_ok].
    + intros b1 s1 (lvl1 & Hok1). by eapply IH.
Qed.

Lemma run_ok cs :
  match run Compare zero t cs with
  | Ok (b, s) => ∃ lvl, tree_ok lvl b s
  | Panic => True
  | OutOfFuel => False
  end.
Proof.
  unfold run.
  change (wp (bind (NewBTree zero t) (λ b, do_calls Compare zero t b cs))
            (λ b s, ∃ lvl, tree_ok lvl b s) empty_store).
  apply wp_bind. unfold NewBTree, newRootLeafNode.
  apply wp_bind, wp_alloc, wp_ret. simpl.
  apply (do_calls_ok cs (λ _, 0)). split.
  - intros a n. simpl. rewrite lookup_insert. case_decide as Heq.
    + intros [= <-]. subst a. split; [lia|]. split; [lia|done].
    + by rewrite lookup_empty.
  - simpl. rewrite lookup_insert_eq. eauto.
Qed.

Lemma leaf_at_level lvl s a d :
  levelled lvl s → leaf_at (cells s) a d → d = lvl a.
Proof.
  intros Hs Hleaf. induction Hleaf as [a n ks Hn Hb|a n ks cs i c d Hn Hb Hc Hleaf IH].
  - destruct (Hs _ _ Hn) as (_ & _ & Hok). unfold node_ok in Hok.
    by rewrite Hb in Hok.
  - destruct (Hs _ _ Hn) as (_ & _ & Hok). unfold node_ok in Hok.
    rewrite Hb in Hok. unfold view in Hc.
    apply lookup_take_Some in Hc as [Hc _].
    eapply Forall_lookup_1 in Hok; [|exact Hc].
    assert (c ≠ 0%N).
    { inversion Hleaf; subst;
        match goal with
        | H : cells s !! c = Some _ |- _ => destruct (Hs _ _ H) as (? & _)
        end; lia. }
    destruct Hok as [?|[_ Hl]]; [done|]. lia.
Qed.
End alloc_levels.

(** ** Calls that return *)

Section exec_rules.
Context {T : Type}.
Implicit Types (s : store T) (a : ref).

Lemma returns_ret {A} (x : A) s (Q : A → store T → Prop) :
  Q x s → returns (ret x) s Q.
Proof. intros H. by exists x, s. Qed.

Lemma returns_bind {A B} (m : M T A) (f : A → M T B) s Q :
  returns m s (λ x s1, returns (f x) s1 Q) → returns (bind m f) s Q.
Proof.
  intros (x & s1 & Hm & y & s2 & Hf & HQ). exists y, s2.
  split; [|done]. unfold bind. by rewrite Hm.
Qed.

Lemma returns_mono {A} (m : M T A) s (Q Q' : A → store T → Prop) :
  returns m s Q → (∀ x s', Q x s' → Q' x s') → returns m s Q'.
Proof. intros (x & s' & Hm & HQ) H. exists x, s'. auto. Qed.

Lemma returns_lift {A} (r : res A) x s (Q : A → store T → Prop) :
  r = Ok x → Q x s → returns (lift r) s Q.
Proof. intros -> H. by exists x, s. Qed.

Lemma returns_load a n s (Q : node T → store T → Prop) :
  cells s !! a = Some n → Q n s → returns (load a) s Q.
Proof. intros Hn H. exists n, s. split; [|done]. unfold load. by rewrite Hn. Qed.

Lemma returns_store a n s (Q : unit → store T → Prop) :
  Q tt (set_node s a n) → returns (store_ a n) s Q.
Proof. intros H. by exists tt, (set_node s a n). Qed.

Lemma returns_alloc n s (Q : ref → store T → Prop) :
  Q (next s) (Store (<[next s := n]> (cells s)) (N.succ (next s))) →
  returns (alloc n) s Q.
Proof. intros H. by eexists _, _. Qed.

Lemma returns_depth_bound s (Q : nat → store T → Prop) :
  Q (N.to_nat (next s)) s → returns depth_bound s Q.
Proof. intros H. by eexists _, _. Qed.

Lemma leads_bind {A B} (m : M T A) (f : A → M T B) s k D :
  returns m s (λ x s1, leads_to (f x) s1 k D) → leads_to (bind m f) s k D.
Proof.
  intros (x & s1 & Hm & s2 & Hf & HD). exists s2. split; [|done].
  unfold bind. by rewrite Hm.
Qed.

Lemma leads_here {A} (k : M T A) s (D : store T → Prop) :
  D s → leads_to k s k D.
Proof. intros H. by exists s. Qed.

Lemma lookup_set_node s a b (n : node T) :
  cells (set_node s a n) !! b
  = if decide (a = b) then Some n else cells s !! b.
Proof. unfold set_node. simpl. apply lookup_insert. Qed.

Lemma lookup_set_node_eq s a (n : node T) :
  cells (set_node s a n) !! a = Some n.
Proof. rewrite lookup_set_node. by rewrite decide_True. Qed.

Lemma lookup_set_node_ne s a b (n : node T) :
  a ≠ b → cells (set_node s a n) !! b = cells s !! b.
Proof. intros H. rewrite lookup_set_node. by rewrite decide_False. Qed.
End exec_rules.

(** ** Slices by what they show *)

Section holds_facts.
Context {E : Type}.
Implicit Types (l : slice E) (v : list E) (c : Z).

Lemma holds_slen l c v : holds l c v → slen l = Z.of_nat (length v).
Proof.
  intros (Hwf & <- & _). unfold slen. by rewrite view_length.
Qed.

Lemma holds_length l c v : holds l c v → (Z.of_nat (length v) ≤ c)%Z.
Proof.
  intros (Hwf & <- & <-). rewrite view_length by done.
  unfold swf, cap in *. lia.
Qed.

Lemma holds_newList (z : E) c : (0 ≤ c)%Z → holds (newList z c) c [].
Proof.
  intros Hc. unfold holds, newList, swf, view, cap. simpl.
  rewrite length_replicate. split; [lia|]. split; [done|lia].
Qed.

Lemma holds_insertTo l c v (i : nat) items :
  holds l c v → i ≤ length v →
  (Z.of_nat (length v + length items) ≤ c)%Z →
  ∃ l', insertTo l (Z.of_nat i) items = Ok l'
        ∧ holds l' c (take i v ++ items ++ drop i v).
Proof.
  intros (Hwf & Hv & Hc) Hi Hcap.
  assert (Hlen : length v = len l) by (rewrite <- Hv; by apply view_length).
  destruct (insertTo_spec l i items) as (l' & H1 & H2 & H3 & H4);
    [done|lia|lia|].
  exists l'. split; [done|]. unfold holds. rewrite H2, Hv, H4.
  split; [|done]. unfold swf. unfold cap in *. lia.
Qed.

Lemma holds_insert l c v (i : nat) x :
  holds l c v → i ≤ length v → (Z.of_nat (length v) < c)%Z →
  ∃ l', insert_ l (Z.of_nat i) x = Ok l'
        ∧ holds l' c (take i v ++ x :: drop i v).
Proof.
  intros Hl Hi Hc. apply (holds_insertTo l c v i [x]); [done|done|].
  simpl. lia.
Qed.

Lemma holds_removeFrom l c v (i j : nat) :
  holds l c v → i ≤ j → j ≤ length v →
  ∃ l', removeFrom l (Z.of_nat i) (Z.of_nat j)
          = Ok (take (j - i) (drop i v), l')
        ∧ holds l' c (take i v ++ drop j v).
Proof.
  intros (Hwf & Hv & Hc) Hi Hj.
  assert (Hlen : length v = len l) by (rewrite <- Hv; by apply view_length).
  destruct (removeFrom_spec l i j) as (l' & H1 & H2 & H3 & H4);
    [done|lia|lia|].
  exists l'. rewrite <- Hv. split; [done|]. unfold holds. rewrite H2, H4.
  split; [|done]. unfold swf, cap in *. lia.
Qed.

Lemma holds_remove l c v (i : nat) x :
  holds l c v → v !! i = Some x →
  ∃ l', remove_ l (Z.of_nat i) = Ok (x, l')
        ∧ holds l' c (take i v ++ drop (S i) v).
Proof.
  intros (Hwf & Hv & Hc) Hx. rewrite <- Hv in Hx.
  destruct (remove_spec l i x) as (l' & H1 & H2 & H3 & H4); [done|done|].
  exists l'. rewrite <- Hv. split; [done|]. unfold holds. rewrite H2, H4.
  split; [|done]. unfold swf, cap in *. lia.
Qed.

Lemma holds_index l c v (i : nat) x :
  holds l c v → v !! i = Some x → index l (Z.of_nat i) = Ok x.
Proof. intros (Hwf & Hv & Hc) Hx. rewrite <- Hv in Hx. by apply index_spec. Qed.

Lemma holds_set_index l c v (i : nat) x :
  holds l c v → i < length v →
  ∃ l', set_index l (Z.of_nat i) x = Ok l' ∧ holds l' c (<[i := x]> v).
Proof.
  intros (Hwf & Hv & Hc) Hi.
  assert (Hlen : length v = len l) by (rewrite <- Hv; by apply view_length).
  unfold set_index, slen.
  destruct (Z.ltb_spec (Z.of_nat i) 0) as [?|_]; [lia|].
  destruct (Z.leb_spec (Z.of_nat (len l)) (Z.of_nat i)) as [?|_]; [lia|].
  simpl. eexists. split; [reflexivity|]. rewrite Nat2Z.id.
  unfold holds, swf, view, cap in *. simpl. rewrite length_insert.
  split; [done|]. split; [|done].
  rewrite take_insert_lt by lia. by rewrite Hv.
Qed.
End holds_facts.

(** ** Field operations by what the node holds *)

Section field_exec.
Context {T : Type}.
Variable t : Z.
Context {E : Type} (f : field (T:=T) E) (capf : Z).
Variable fview : content (T:=T) → option (list E).
Variable fset : content (T:=T) → list E → content (T:=T).
Implicit Types (s : store T) (a m : ref) (c : content (T:=T)).

Hypothesis Hget : ∀ n r c v,
  node_is t n r c → fview c = Some v → ∃ l, fget f n = Ok l ∧ holds l capf v.
Hypothesis Hput : ∀ n r c l v',
  node_is t n r c → is_Some (fview c) → holds l capf v' →
  ∃ n', fput f n l = Ok n' ∧ node_is t n' r (fset c v').

Lemma returns_getF s a n r c v (Q : slice E → store T → Prop) :
  cells s !! a = Some n → node_is t n r c → fview c = Some v →
  (∀ l, holds l capf v → Q l s) →
  returns (getF f a) s Q.
Proof.
  intros Hn Hc Hv HQ. unfold getF.
  destruct (Hget _ _ _ _ Hc Hv) as (l & Hl & Hh).
  apply returns_bind. eapply returns_load; [done|].
  eapply returns_lift; [done|]. by apply HQ.
Qed.

Lemma returns_putF s a n r c l v' (Q : unit → store T → Prop) :
  cells s !! a = Some n → node_is t n r c → is_Some (fview c) →
  holds l capf v' →
  (∀ n', node_is t n' r (fset c v') → Q tt (set_node s a n')) →
  returns (putF f a l) s Q.
Proof.
  intros Hn Hc Hv Hl HQ. unfold putF.
  destruct (Hput _ _ _ _ _ Hc Hv Hl) as (n' & Hn' & Hc').
  apply returns_bind. eapply returns_load; [done|].
  apply returns_bind. eapply returns_lift; [done|].
  apply returns_store. by apply HQ.
Qed.

Lemma returns_lenF s a n r c v (Q : Z → store T → Prop) :
  cells s !! a = Some n → node_is t n r c → fview c = Some v →
  Q (Z.of_nat (length v)) s →
  returns (lenF f a) s Q.
Proof.
  intros Hn Hc Hv HQ. unfold lenF. apply returns_bind.
  eapply returns_getF; [done..|]. intros l Hl.
  apply returns_ret. by rewrite (holds_slen _ _ _ Hl).
Qed.

Lemma returns_indexF s a n r c v (i : Z) x (Q : E → store T → Prop) :
  cells s !! a = Some n → node_is t n r c → fview c = Some v →
  (0 ≤ i)%Z → v !! Z.to_nat i = Some x →
  Q x s →
  returns (indexF f a i) s Q.
Proof.
  intros Hn Hc Hv Hi Hx HQ. unfold indexF. apply returns_bind.
  eapply returns_getF; [done..|]. intros l Hl.
  eapply returns_lift; [|done].
  rewrite <- (Z2Nat.id i) by done. by eapply holds_index.
Qed.

Lemma returns_set_indexF s a n r c v (i : Z) x
    (Q : unit → store T → Prop) :
  cells s !! a = Some n → node_is t n r c → fview c = Some v →
  (0 ≤ i < Z.of_nat (length v))%Z →
  (∀ n', node_is t n' r (fset c (<[Z.to_nat i := x]> v)) →
         Q tt (set_node s a n')) →
  returns (set_indexF f a i x) s Q.
Proof.
  intros Hn Hc Hv Hi HQ. unfold set_indexF. apply returns_bind.
  eapply returns_getF; [done..|]. intros l Hl.
  destruct (holds_set_index l capf v (Z.to_nat i) x) as (l' & Hl' & Hh');
    [done|lia|].
  rewrite Z2Nat.id in Hl' by lia.
  apply returns_bind. eapply returns_lift; [done|].
  eapply returns_putF; [done|done|by rewrite Hv|done|done].
Qed.

Lemma returns_insertF s a n r c v (i : Z) x (Q : unit → store T → Prop) :
  cells s !! a = Some n → node_is t n r c → fview c = Some v →
  (0 ≤ i ≤ Z.of_nat (length v))%Z → (Z.of_nat (length v) < capf)%Z →
  (∀ n', node_is t n' r
           (fset c (take (Z.to_nat i) v ++ x :: drop (Z.to_nat i) v)) →
         Q tt (set_node s a n')) →
  returns (insertF f a i x) s Q.
Proof.
  intros Hn Hc Hv Hi Hcap HQ. unfold insertF. apply returns_bind.
  eapply returns_getF; [done..|]. intros l Hl.
  destruct (holds_insert l capf v (Z.to_nat i) x) as (l' & Hl' & Hh');
    [done|lia|done|].
  rewrite Z2Nat.id in Hl' by lia.
  apply returns_bind. eapply returns_lift; [done|].
  eapply returns_putF; [done|done|by rewrite Hv|done|done].
Qed.

Lemma returns_removeF s a n r c v (i : Z) x (Q : E → store T → Prop) :
  cells s !! a = Some n → node_is t n r c → fview c = Some v →
  (0 ≤ i)%Z → v !! Z.to_nat i = Some x →
  (∀ n', node_is t n' r
           (fset c (take (Z.to_nat i) v ++ drop (S (Z.to_nat i)) v)) →
         Q x (set_node s a n')) →
  returns (removeF f a i) s Q.
Proof.
  intros Hn Hc Hv Hi Hx HQ. unfold removeF. apply returns_bind.
  eapply returns_getF; [done..|]. intros l Hl.
  destruct (holds_remove l capf v (Z.to_nat i) x) as (l' & Hl' & Hh');
    [done|done|].
  rewrite Z2Nat.id in Hl' by lia.
  apply returns_bind. eapply returns_lift; [done|]. simpl.
  apply returns_bind.
  eapply returns_putF; [done|done|by rewrite Hv|done|].
  intros n' Hn'. apply returns_ret. by apply HQ.
Qed.

Lemma returns_spliceF s a m na ra ca va nm rm cm vm (i j : Z)
    (Q : unit → store T → Prop) :
  a ≠ m →
  cells s !! a = Some na → node_is t na ra ca → fview ca = Some va →
  cells s !! m = Some nm → node_is t nm rm cm → fview cm = Some vm →
  (0 ≤ i ≤ Z.of_nat (length va))%Z → (0 ≤ j ≤ Z.of_nat (length vm))%Z →
  (Z.of_nat (length va) + (Z.of_nat (length vm) - j) ≤ capf)%Z →
  (∀ nm' na',
     node_is t nm' rm (fset cm (take (Z.to_nat j) vm)) →
     node_is t na' ra
       (fset ca (take (Z.to_nat i) va ++ drop (Z.to_nat j) vm
                 ++ drop (Z.to_nat i) va)) →
     Q tt (set_node (set_node s m nm') a na')) →
  returns (spliceF f a i j m) s Q.
Proof.
  intros Hne Hna Hca Hva Hnm Hcm Hvm Hi Hj Hcap HQ. unfold spliceF.
  apply returns_bind.
  eapply (returns_getF s m); [done..|]. intros lm Hlm.
  destruct (holds_removeFrom lm capf vm (Z.to_nat j) (length vm))
    as (lm' & Hlm' & Hhm'); [done|lia|lia|].
  rewrite Z2Nat.id in Hlm' by lia.
  rewrite (holds_slen _ _ _ Hlm).
  rewrite take_ge in Hlm' by (rewrite length_drop; lia).
  rewrite drop_all, app_nil_r in Hhm'.
  apply returns_bind. eapply returns_lift; [done|]. simpl.
  apply returns_bind.
  eapply returns_putF; [done|done|by rewrite Hvm|done|].
  intros nm' Hnm'.
  assert (Hna' : cells (set_node s m nm') !! a = Some na).
  { by rewrite lookup_set_node_ne. }
  apply returns_bind.
  eapply (returns_getF _ a); [done..|]. intros la Hla.
  destruct (holds_insertTo la capf va (Z.to_nat i) (drop (Z.to_nat j) vm))
    as (la' & Hla' & Hha'); [done|lia|rewrite length_drop; lia|].
  rewrite Z2Nat.id in Hla' by lia.
  apply returns_bind. eapply returns_lift; [done|].
  eapply returns_putF; [done|done|by rewrite Hva|done|].
  intros na' Hna''. by apply HQ.
Qed.
End field_exec.

Section field_instances.
Context {T : Type}.
Variable t : Z.
Implicit Types (c : content (T:=T)).

Lemma keysF_holds (n : node T) r c v :
  node_is t n r c → keys_view c = Some v →
  ∃ l, fget keysF n = Ok l ∧ holds l (2 * t - 1) v.
Proof.
  intros [Hr Hc] [= <-]. exists (keys n). split; [done|].
  unfold keys. destruct (nbase n), (cchildren c); try done. by destruct Hc.
Qed.

Lemma keysF_sets (n : node T) r c l v' :
  node_is t n r c → is_Some (keys_view c) → holds l (2 * t - 1) v' →
  ∃ n', fput keysF n l = Ok n' ∧ node_is t n' r (set_ckeys c v').
Proof.
  intros [Hr Hc] _ Hl. exists (with_keys n l). split; [done|].
  unfold node_is, with_keys, set_ckeys. simpl.
  destruct (nbase n), (cchildren c); simpl; try done.
  destruct Hc. done.
Qed.

Lemma childrenF_holds (n : node T) r c v :
  node_is t n r c → cchildren c = Some v →
  ∃ l, fget childrenF n = Ok l ∧ holds l (2 * t) v.
Proof.
  intros [Hr Hc] Hv. rewrite Hv in Hc. simpl.
  destruct (nbase n) as [ks|ks cs]; [done|]. exists cs. by destruct Hc.
Qed.

Lemma childrenF_sets (n : node T) r c l v' :
  node_is t n r c → is_Some (cchildren c) → holds l (2 * t) v' →
  ∃ n', fput childrenF n l = Ok n' ∧ node_is t n' r (set_cchildren c v').
Proof.
  intros [Hr Hc] [v Hv] Hl. rewrite Hv in Hc. simpl.
  destruct (nbase n) as [ks|ks cs]; [done|].
  eexists. split; [done|]. unfold node_is, set_cchildren. simpl.
  destruct Hc. done.
Qed.
End field_instances.

(** ** What [split] and [growRoot] do *)

Section split_facts.
Context {T : Type}.
Variable Compare : T → T → Z.
Variable zero : T.
Variable t : Z.
Implicit Types (s : store T) (a : ref) (c : content (T:=T)).

Tactic Notation "keys_rd" uconstr(lem) :=
  eapply (lem _ _ keysF _ keys_view (keysF_holds _)).
Tactic Notation "keys_wr" uconstr(lem) :=
  eapply (lem _ _ keysF _ keys_view set_ckeys (keysF_holds _) (keysF_sets _)).
Tactic Notation "children_rd" uconstr(lem) :=
  eapply (lem _ _ childrenF _ cchildren (childrenF_holds _)).
Tactic Notation "children_wr" uconstr(lem) :=
  eapply (lem _ _ childrenF _ cchildren set_cchildren
            (childrenF_holds _) (childrenF_sets _)).

Lemma newBaseLeafNode_is r :
  (1 ≤ t)%Z →
  node_is t (Node r (newBaseLeafNode zero t)) r (Content [] None).
Proof.
  intros Ht. split; [done|]. simpl. apply holds_newList. lia.
Qed.

Lemma newBaseInternalNode_is r :
  (1 ≤ t)%Z →
  node_is t (Node r (newBaseInternalNode zero t)) r (Content [] (Some [])).
Proof.
  intros Ht. split; [done|]. simpl. split; apply holds_newList; lia.
Qed.

Lemma split_spec s a n r c :
  cells s !! a = Some n → node_is t n r c → (a < next s)%N → (1 ≤ t)%Z →
  Z.of_nat (length (ckeys c)) = (2 * t - 1)%Z →
  (∀ cv, cchildren c = Some cv → Z.of_nat (length cv) = (2 * t)%Z) →
  returns (split zero t a) s
    (λ res s',
       ∃ median,
         res = (median, next s)
         ∧ ckeys c !! Z.to_nat (t - 1) = Some median
         ∧ at_node t s' a r
             (Content (take (Z.to_nat (t - 1)) (ckeys c))
                      (take (Z.to_nat t) <$> cchildren c))
         ∧ at_node t s' (next s) childRole
             (Content (drop (Z.to_nat t) (ckeys c))
                      (drop (Z.to_nat t) <$> cchildren c))
         ∧ next s' = N.succ (next s)
         ∧ ∀ x, x ≠ a → x ≠ next s → cells s' !! x = cells s !! x).
Proof.
  intros Hn Hc Ha Ht Hlen Hclen. unfold split.
  apply returns_bind. eapply returns_load; [done|].
  destruct (lookup_lt_is_Some_2 (ckeys c) (Z.to_nat (t - 1))) as [median Hmed];
    [lia|].
  destruct c as [kv cvo]. simpl in *.
  pose proof Hc as [Hr Hb].
  destruct (nbase n) as [ks|ks cs] eqn:Hbase, cvo as [cv|]; simpl in Hb;
    try done.
  - (* leaf *)
    apply returns_bind. apply returns_alloc.
    set (sib := next s).
    set (s1 := Store (<[sib := Node childRole (newBaseLeafNode zero t)]>
                        (cells s)) (N.succ sib)).
    assert (Hs1a : cells s1 !! a = Some n).
    { unfold s1. simpl. rewrite lookup_insert_ne; [done|]. unfold sib. lia. }
    assert (Hs1s : cells s1 !! sib
                   = Some (Node childRole (newBaseLeafNode zero t))).
    { unfold s1. simpl. by rewrite lookup_insert_eq. }
    assert (Hne : sib ≠ a) by (unfold sib; lia).
    apply returns_bind.
    keys_wr returns_spliceF;
      [exact Hne|exact Hs1s|by apply newBaseLeafNode_is|done
      |exact Hs1a|exact Hc|done|simpl; lia|simpl; lia|simpl; lia|].
    intros n2 sn2 Hn2 Hsn2. simpl in Hn2, Hsn2.
    unfold set_ckeys in Hn2, Hsn2. simpl in Hn2, Hsn2.
    rewrite app_nil_r in Hsn2.
    apply returns_bind.
    keys_wr returns_removeF;
      [rewrite lookup_set_node_ne by done; apply lookup_set_node_eq
      |exact Hn2|done|lia| |].
    { simpl. rewrite lookup_take_lt by lia. exact Hmed. }
    intros n3 Hn3. simpl in Hn3. unfold set_ckeys in Hn3. simpl in Hn3.
    apply returns_ret. exists median. split; [done|]. split; [done|].
    assert (Hk3 : take (Z.to_nat (t - 1)) (take (Z.to_nat t) kv)
                  ++ drop (S (Z.to_nat (t - 1))) (take (Z.to_nat t) kv)
                  = take (Z.to_nat (t - 1)) kv).
    { rewrite take_take, Nat.min_l by lia.
      rewrite drop_ge by (rewrite length_take; lia). apply app_nil_r. }
    rewrite Hk3 in Hn3.
    split; [|split; [|split; [done|]]].
    + exists n3. split; [|done]. apply lookup_set_node_eq.
    + exists sn2. split; [|done].
      rewrite lookup_set_node_ne by done. apply lookup_set_node_eq.
    + intros x Hxa Hxs. rewrite !lookup_set_node_ne by done.
      unfold s1. simpl. by rewrite lookup_insert_ne.
  - (* internal *)
    specialize (Hclen cv eq_refl).
    apply returns_bind. apply returns_alloc.
    set (sib := next s).
    set (s1 := Store (<[sib := Node childRole (newBaseInternalNode zero t)]>
                        (cells s)) (N.succ sib)).
    assert (Hs1a : cells s1 !! a = Some n).
    { unfold s1. simpl. rewrite lookup_insert_ne; [done|]. unfold sib. lia. }
    assert (Hs1s : cells s1 !! sib
                   = Some (Node childRole (newBaseInternalNode zero t))).
    { unfold s1. simpl. by rewrite lookup_insert_eq. }
    assert (Hne : sib ≠ a) by (unfold sib; lia).
    apply returns_bind.
    children_wr returns_spliceF;
      [exact Hne|exact Hs1s|by apply newBaseInternalNode_is|done
      |exact Hs1a|exact Hc|done|simpl; lia|lia|simpl; lia|].
    intros n1 sn1 Hn1 Hsn1. simpl in Hn1, Hsn1.
    unfold set_cchildren in Hn1, Hsn1. simpl in Hn1, Hsn1.
    rewrite app_nil_r in Hsn1.
    set (s2 := set_node (set_node s1 a n1) sib sn1).
    apply returns_bind.
    keys_wr returns_spliceF;
      [exact Hne
      |apply lookup_set_node_eq|exact Hsn1|done
      |unfold s2; rewrite lookup_set_node_ne by done;
       apply lookup_set_node_eq|exact Hn1|done
      |simpl; lia|simpl; lia|simpl; lia|].
    intros n2 sn2 Hn2 Hsn2. simpl in Hn2, Hsn2.
    unfold set_ckeys in Hn2, Hsn2. simpl in Hn2, Hsn2.
    rewrite app_nil_r in Hsn2.
    apply returns_bind.
    keys_wr returns_removeF;
      [rewrite lookup_set_node_ne by done; apply lookup_set_node_eq
      |exact Hn2|done|lia| |].
    { simpl. rewrite lookup_take_lt by lia. exact Hmed. }
    intros n3 Hn3. simpl in Hn3. unfold set_ckeys in Hn3. simpl in Hn3.
    apply returns_ret. exists median. split; [done|]. split; [done|].
    assert (Hk3 : take (Z.to_nat (t - 1)) (take (Z.to_nat t) kv)
                  ++ drop (S (Z.to_nat (t - 1))) (take (Z.to_nat t) kv)
                  = take (Z.to_nat (t - 1)) kv).
    { rewrite take_take, Nat.min_l by lia.
      rewrite drop_ge by (rewrite length_take; lia). apply app_nil_r. }
    rewrite Hk3 in Hn3.
    split; [|split; [|split; [done|]]].
    + exists n3. split; [|done]. apply lookup_set_node_eq.
    + exists sn2. split; [|done].
      rewrite lookup_set_node_ne by done. apply lookup_set_node_eq.
    + intros x Hxa Hxs. rewrite !lookup_set_node_ne by done.
      unfold s2. rewrite !lookup_set_node_ne by done.
      unfold s1. simpl. by rewrite lookup_insert_ne.
Qed.
End split_facts.

(** ** Field operations on a node and the rest of the store *)

Section field_at.
Context {T : Type}.
Variable t : Z.
Context {E : Type} (f : field (T:=T) E) (capf : Z).
Variable fview : content (T:=T) → option (list E).
Variable fset : content (T:=T) → list E → content (T:=T).
Implicit Types (s : store T) (a m : ref) (c : content (T:=T)).

Hypothesis Hget : ∀ n r c v,
  node_is t n r c → fview c = Some v → ∃ l, fget f n = Ok l ∧ holds l capf v.
Hypothesis Hput : ∀ n r c l v',
  node_is t n r c → is_Some (fview c) → holds l capf v' →
  ∃ n', fput f n l = Ok n' ∧ node_is t n' r (fset c v').

Lemma at_lenF s a r c v (Q : Z → store T → Prop) :
  at_node t s a r c → fview c = Some v →
  Q (Z.of_nat (length v)) s →
  returns (lenF f a) s Q.
Proof.
  intros (n & Hn & Hc) Hv HQ.
  by eapply (returns_lenF t f capf fview Hget).
Qed.

Lemma at_indexF s a r c v (i : Z) x (Q : E → store T → Prop) :
  at_node t s a r c → fview c = Some v →
  (0 ≤ i)%Z → v !! Z.to_nat i = Some x →
  Q x s →
  returns (indexF f a i) s Q.
Proof.
  intros (n & Hn & Hc) Hv Hi Hx HQ.
  by eapply (returns_indexF t f capf fview Hget).
Qed.

Lemma at_set_indexF s a r c v (i : Z) x (Q : unit → store T → Prop) :
  at_node t s a r c → fview c = Some v →
  (0 ≤ i < Z.of_nat (length v))%Z →
  (∀ s', at_node t s' a r (fset c (<[Z.to_nat i := x]> v)) →
         next s' = next s →
         (∀ y, y ≠ a → cells s' !! y = cells s !! y) →
         Q tt s') →
  returns (set_indexF f a i x) s Q.
Proof.
  intros (n & Hn & Hc) Hv Hi HQ.
  eapply (returns_set_indexF t f capf fview fset Hget Hput); [done..|].
  intros n' Hn'. apply HQ; [|done|].
  - exists n'. split; [apply lookup_set_node_eq|done].
  - intros y Hy. by apply lookup_set_node_ne.
Qed.

Lemma at_insertF s a r c v (i : Z) x (Q : unit → store T → Prop) :
  at_node t s a r c → fview c = Some v →
  (0 ≤ i ≤ Z.of_nat (length v))%Z → (Z.of_nat (length v) < capf)%Z →
  (∀ s', at_node t s' a r
           (fset c (take (Z.to_nat i) v ++ x :: drop (Z.to_nat i) v)) →
         next s' = next s →
         (∀ y, y ≠ a → cells s' !! y = cells s !! y) →
         Q tt s') →
  returns (insertF f a i x) s Q.
Proof.
  intros (n & Hn & Hc) Hv Hi Hcap HQ.
  eapply (returns_insertF t f capf fview fset Hget Hput); [done..|].
  intros n' Hn'. apply HQ; [|done|].
  - exists n'. split; [apply lookup_set_node_eq|done].
  - intros y Hy. by apply lookup_set_node_ne.
Qed.

Lemma at_removeF s a r c v (i : Z) x (Q : E → store T → Prop) :
  at_node t s a r c → fview c = Some v →
  (0 ≤ i)%Z → v !! Z.to_nat i = Some x →
  (∀ s', at_node t s' a r
           (fset c (take (Z.to_nat i) v ++ drop (S (Z.to_nat i)) v)) →
         next s' = next s →
         (∀ y, y ≠ a → cells s' !! y = cells s !! y) →
         Q x s') →
  returns (removeF f a i) s Q.
Proof.
  intros (n & Hn & Hc) Hv Hi Hx HQ.
  eapply (returns_removeF t f capf fview fset Hget Hput); [done..|].
  intros n' Hn'. apply HQ; [|done|].
  - exists n'. split; [apply lookup_set_node_eq|done].
  - intros y Hy. by apply lookup_set_node_ne.
Qed.

Lemma at_spliceF s a m ra ca va rm cm vm (i j : Z)
    (Q : unit → store T → Prop) :
  a ≠ m →
  at_node t s a ra ca → fview ca = Some va →
  at_node t s m rm cm → fview cm = Some vm →
  (0 ≤ i ≤ Z.of_nat (length va))%Z → (0 ≤ j ≤ Z.of_nat (length vm))%Z →
  (Z.of_nat (length va) + (Z.of_nat (length vm) - j) ≤ capf)%Z →
  (∀ s', at_node t s' a ra
           (fset ca (take (Z.to_nat i) va ++ drop (Z.to_nat j) vm
                     ++ drop (Z.to_nat i) va)) →
         at_node t s' m rm (fset cm (take (Z.to_nat j) vm)) →
         next s' = next s →
         (∀ y, y ≠ a → y ≠ m → cells s' !! y = cells s !! y) →
         Q tt s') →
  returns (spliceF f a i j m) s Q.
Proof.
  intros Hne (na & Hna & Hca) Hva (nm & Hnm & Hcm) Hvm Hi Hj Hcap HQ.
  eapply (returns_spliceF t f capf fview fset Hget Hput); [done..|].
  intros nm' na' Hnm' Hna'. apply HQ; [| |done|].
  - exists na'. split; [apply lookup_set_node_eq|done].
  - exists nm'. split; [|done].
    rewrite lookup_set_node_ne by done. apply lookup_set_node_eq.
  - intros y Hya Hym. by rewrite !lookup_set_node_ne.
Qed.
End field_at.

Section store_frames.
Context {T : Type}.
Variable t : Z.
Implicit Types (s : store T) (a m : ref) (c : content (T:=T)).

Lemma at_node_frame s s' a r c :
  at_node t s a r c → cells s' !! a = cells s !! a → at_node t s' a r c.
Proof. intros (n & Hn & Hc) H. exists n. by rewrite H. Qed.

Lemma at_node_kind s a r c r' c' :
  at_node t s a r c → at_node t s a r' c' →
  r = r' ∧ (is_Some (cchildren c) ↔ is_Some (cchildren c')).
Proof.
  intros (n & Hn & Hr & Hc) (n' & Hn' & Hr' & Hc').
  rewrite Hn in Hn'. injection Hn' as <-. split; [congruence|].
  destruct (nbase n), (cchildren c), (cchildren c'); try done.
Qed.

Lemma at_node_load s a r c {A} (k : node T → M T A) Q :
  at_node t s a r c →
  (∀ n, cells s !! a = Some n → node_is t n r c → returns (k n) s Q) →
  returns (bind (load a) k) s Q.
Proof.
  intros (n & Hn & Hc) H. apply returns_bind.
  eapply returns_load; [done|]. by apply H.
Qed.
End store_frames.

Tactic Notation "keys_rd" uconstr(lem) :=
  eapply (lem _ _ keysF _ keys_view (keysF_holds _)).
Tactic Notation "keys_wr" uconstr(lem) :=
  eapply (lem _ _ keysF _ keys_view set_ckeys (keysF_holds _) (keysF_sets _)).
Tactic Notation "children_rd" uconstr(lem) :=
  eapply (lem _ _ childrenF _ cchildren (childrenF_holds _)).
Tactic Notation "children_wr" uconstr(lem) :=
  eapply (lem _ _ childrenF _ cchildren set_cchildren
            (childrenF_holds _) (childrenF_sets _)).

(** ** What the methods of the child nodes do *)

Section list_shapes.
Context {E : Type}.
Implicit Types (v w : list E).

Lemma insert_at_end v x :
  take (Z.to_nat (Z.of_nat (length v))) v
    ++ x :: drop (Z.to_nat (Z.of_nat (length v))) v = v ++ [x].
Proof. by rewrite Nat2Z.id, firstn_all, drop_all. Qed.

Lemma insert_at_front v x :
  take (Z.to_nat 0) v ++ x :: drop (Z.to_nat 0) v = x :: v.
Proof. done. Qed.

Lemma splice_at_end v w :
  take (Z.to_nat (Z.of_nat (length v))) v ++ drop (Z.to_nat 0) w
    ++ drop (Z.to_nat (Z.of_nat (length v))) v = v ++ w.
Proof. by rewrite Nat2Z.id, firstn_all, drop_all, app_nil_r. Qed.

Lemma remove_at_front x v :
  take (Z.to_nat 0) (x :: v) ++ drop (S (Z.to_nat 0)) (x :: v) = v.
Proof. done. Qed.

Lemma remove_at_end v x :
  take (Z.to_nat (Z.of_nat (length (v ++ [x])) - 1)) (v ++ [x])
    ++ drop (S (Z.to_nat (Z.of_nat (length (v ++ [x])) - 1))) (v ++ [x]) = v.
Proof.
  rewrite length_app. simpl.
  replace (Z.to_nat (Z.of_nat (length v + 1) - 1)) with (length v) by lia.
  rewrite take_app_length.
  rewrite drop_ge by (rewrite length_app; simpl; lia).
  apply app_nil_r.
Qed.
End list_shapes.

Ltac sz := cbn [ckeys cchildren set_ckeys set_cchildren keys_view length]; lia.

Section node_specs.
Context {T : Type}.
Variable Compare : T → T → Z.
Variable zero : T.
Variable t : Z.
Implicit Types (s : store T) (a m : ref) (c : content (T:=T)).

Lemma returns_assertChildLeaf s m km (Q : unit → store T → Prop) :
  at_node t s m childRole (Content km None) →
  Q tt s → returns (assertChildLeaf m) s Q.
Proof.
  intros (n & Hn & Hr & Hb) HQ. unfold assertChildLeaf.
  apply returns_bind. eapply returns_load; [done|]. rewrite Hr.
  simpl in Hb. destruct (nbase n); [|done]. by apply returns_ret.
Qed.

Lemma returns_assertChildInternal s m km vm (Q : unit → store T → Prop) :
  at_node t s m childRole (Content km (Some vm)) →
  Q tt s → returns (assertChildInternal m) s Q.
Proof.
  intros (n & Hn & Hr & Hb) HQ. unfold assertChildInternal.
  apply returns_bind. eapply returns_load; [done|]. rewrite Hr.
  simpl in Hb. destruct (nbase n); [done|]. by apply returns_ret.
Qed.

Lemma node_is_keys (n : node T) r c :
  node_is t n r c → holds (keys n) (2 * t - 1) (ckeys c).
Proof.
  intros [_ Hb]. unfold keys.
  destruct (nbase n), (cchildren c); try done. by destruct Hb.
Qed.

Lemma returns_isBelowMax s a r c (Q : bool → store T → Prop) :
  at_node t s a r c →
  Q (Z.of_nat (length (ckeys c)) <? 2 * t - 1)%Z s →
  returns (isBelowMax t a) s Q.
Proof.
  intros (n & Hn & Hc) HQ. unfold isBelowMax.
  apply returns_bind. eapply returns_load; [done|]. apply returns_ret.
  by rewrite (holds_slen _ _ _ (node_is_keys _ _ _ Hc)).
Qed.

Lemma returns_isAboveMin s a r c (Q : bool → store T → Prop) :
  at_node t s a r c →
  Q match r with
    | childRole => (t - 1 <? Z.of_nat (length (ckeys c)))%Z
    | rootRole => (0 <? Z.of_nat (length (ckeys c)))%Z
    end s →
  returns (isAboveMin t a) s Q.
Proof.
  intros (n & Hn & Hc) HQ. unfold isAboveMin.
  apply returns_bind. eapply returns_load; [done|]. apply returns_ret.
  rewrite (holds_slen _ _ _ (node_is_keys _ _ _ Hc)).
  destruct Hc as [-> _]. done.
Qed.

Lemma merge_spec s a m ra ka ca km cm median :
  a ≠ m →
  at_node t s a ra (Content ka ca) →
  at_node t s m childRole (Content km cm) →
  (is_Some ca ↔ is_Some cm) →
  (Z.of_nat (length ka + 1 + length km) ≤ 2 * t - 1)%Z →
  (∀ va vm, ca = Some va → cm = Some vm →
            (Z.of_nat (length va + length vm) ≤ 2 * t)%Z) →
  returns (merge a median m) s
    (λ _ s',
       at_node t s' a ra (Content (ka ++ median :: km) (joined ca cm))
       ∧ at_node t s' m childRole (Content [] ((λ _, []) <$> cm))
       ∧ next s' = next s
       ∧ ∀ y, y ≠ a → y ≠ m → cells s' !! y = cells s !! y).
Proof.
  intros Hne Ha Hm Hkind Hk Hc. unfold merge.
  eapply at_node_load; [exact Ha|]. intros n Hn [Hr Hb]. simpl in Hb.
  destruct (nbase n) as [ks|ks cs] eqn:Hbase, ca as [va|]; try done.
  - destruct cm as [vm|]; [destruct Hkind as [_ [? ?]]; done|].
    apply returns_bind. eapply returns_assertChildLeaf; [exact Hm|].
    apply returns_bind. keys_rd at_lenF; [exact Ha|done|].
    apply returns_bind. keys_wr at_insertF; [exact Ha|done|sz|sz|].
    intros s1 Ha1 Hnx1 Hfr1. unfold set_ckeys in Ha1. simpl in Ha1.
    rewrite insert_at_end in Ha1.
    pose proof (at_node_frame t _ s1 _ _ _ Hm (Hfr1 m ltac:(done))) as Hm1.
    apply returns_bind. keys_rd at_lenF; [exact Ha1|done|].
    keys_wr at_spliceF; [exact Hne|exact Ha1|done|exact Hm1|done| | | |].
    { sz. } { sz. } { cbn [ckeys]. rewrite length_app. simpl. lia. }
    intros s2 Ha2 Hm2 Hnx2 Hfr2. unfold set_ckeys in Ha2, Hm2.
    simpl in Ha2, Hm2. rewrite splice_at_end in Ha2.
    rewrite <- app_assoc in Ha2. simpl in Ha2.
    split; [done|]. split; [done|]. split; [congruence|].
    intros y Hya Hym. rewrite Hfr2 by done. by apply Hfr1.
  - destruct cm as [vm|]; [|destruct Hkind as [[? ?] _]; done].
    specialize (Hc va vm eq_refl eq_refl).
    apply returns_bind. eapply returns_assertChildInternal; [exact Hm|].
    apply returns_bind. keys_rd at_lenF; [exact Ha|done|].
    apply returns_bind. keys_wr at_insertF; [exact Ha|done|sz|sz|].
    intros s1 Ha1 Hnx1 Hfr1. unfold set_ckeys in Ha1. simpl in Ha1.
    rewrite insert_at_end in Ha1.
    pose proof (at_node_frame t _ s1 _ _ _ Hm (Hfr1 m ltac:(done))) as Hm1.
    apply returns_bind. keys_rd at_lenF; [exact Ha1|done|].
    apply returns_bind.
    keys_wr at_spliceF; [exact Hne|exact Ha1|done|exact Hm1|done| | | |].
    { sz. } { sz. } { cbn [ckeys]. rewrite length_app. simpl. lia. }
    intros s2 Ha2 Hm2 Hnx2 Hfr2. unfold set_ckeys in Ha2, Hm2.
    simpl in Ha2, Hm2. rewrite splice_at_end in Ha2.
    rewrite <- app_assoc in Ha2. simpl in Ha2.
    apply returns_bind. children_rd at_lenF; [exact Ha2|done|].
    children_wr at_spliceF; [exact Hne|exact Ha2|done|exact Hm2|done| | | |].
    { sz. } { sz. } { sz. }
    intros s3 Ha3 Hm3 Hnx3 Hfr3. unfold set_cchildren in Ha3, Hm3.
    simpl in Ha3, Hm3. rewrite splice_at_end in Ha3.
    split; [done|]. split; [done|]. split; [congruence|].
    intros y Hya Hym. rewrite Hfr3, Hfr2 by done. by apply Hfr1.
Qed.

Lemma shuffleLeft_spec s a m ra ka ca km cm stolen x :
  a ≠ m →
  at_node t s a ra (Content ka ca) →
  at_node t s m childRole (Content km cm) →
  (is_Some ca ↔ is_Some cm) →
  (Z.of_nat (length ka) < 2 * t - 1)%Z →
  km !! 0 = Some x →
  (∀ va vm, ca = Some va → cm = Some vm →
            (Z.of_nat (length va) < 2 * t)%Z ∧ vm ≠ []) →
  returns (shuffleLeft a stolen m) s
    (λ res s',
       res = x
       ∧ at_node t s' a ra
           (Content (ka ++ [stolen]) (joined ca (take 1 <$> cm)))
       ∧ at_node t s' m childRole (Content (drop 1 km) (drop 1 <$> cm))
       ∧ next s' = next s
       ∧ ∀ y, y ≠ a → y ≠ m → cells s' !! y = cells s !! y).
Proof.
  intros Hne Ha Hm Hkind Hk Hx Hc. unfold shuffleLeft.
  eapply at_node_load; [exact Ha|]. intros n Hn [Hr Hb]. simpl in Hb.
  destruct (nbase n) as [ks|ks cs] eqn:Hbase, ca as [va|]; try done.
  - destruct cm as [vm|]; [destruct Hkind as [_ [? ?]]; done|].
    apply returns_bind. eapply returns_assertChildLeaf; [exact Hm|].
    apply returns_bind. keys_rd at_lenF; [exact Ha|done|].
    apply returns_bind. keys_wr at_insertF; [exact Ha|done|sz|sz|].
    intros s1 Ha1 Hnx1 Hfr1. unfold set_ckeys in Ha1. simpl in Ha1.
    rewrite insert_at_end in Ha1.
    pose proof (at_node_frame t _ s1 _ _ _ Hm (Hfr1 m ltac:(done))) as Hm1.
    keys_wr at_removeF; [exact Hm1|done|lia|exact Hx|].
    intros s2 Hm2 Hnx2 Hfr2. unfold set_ckeys in Hm2. simpl in Hm2.
    pose proof (at_node_frame t _ s2 _ _ _ Ha1 (Hfr2 a ltac:(done))) as Ha2.
    split; [done|]. split; [done|]. split; [done|]. split; [congruence|].
    intros y Hya Hym. rewrite Hfr2 by done. by apply Hfr1.
  - destruct cm as [vm|]; [|destruct Hkind as [[? ?] _]; done].
    destruct (Hc va vm eq_refl eq_refl) as [Hva Hvm].
    destruct vm as [|c0 vm]; [done|].
    apply returns_bind. eapply returns_assertChildInternal; [exact Hm|].
    apply returns_bind. keys_rd at_lenF; [exact Ha|done|].
    apply returns_bind. keys_wr at_insertF; [exact Ha|done|sz|sz|].
    intros s1 Ha1 Hnx1 Hfr1. unfold set_ckeys in Ha1. simpl in Ha1.
    rewrite insert_at_end in Ha1.
    pose proof (at_node_frame t _ s1 _ _ _ Hm (Hfr1 m ltac:(done))) as Hm1.
    apply returns_bind. children_rd at_lenF; [exact Ha1|done|].
    apply returns_bind.
    children_wr at_removeF; [exact Hm1|done|lia|done|].
    intros s2 Hm2 Hnx2 Hfr2. unfold set_cchildren in Hm2. simpl in Hm2.
    pose proof (at_node_frame t _ s2 _ _ _ Ha1 (Hfr2 a ltac:(done))) as Ha2.
    apply returns_bind.
    children_wr at_insertF; [exact Ha2|done|sz|sz|].
    intros s3 Ha3 Hnx3 Hfr3. unfold set_cchildren in Ha3.
    cbn [ckeys cchildren] in Ha3. rewrite insert_at_end in Ha3.
    pose proof (at_node_frame t _ s3 _ _ _ Hm2 (Hfr3 m ltac:(done))) as Hm3.
    keys_wr at_removeF; [exact Hm3|done|lia|exact Hx|].
    intros s4 Hm4 Hnx4 Hfr4. unfold set_ckeys in Hm4. simpl in Hm4.
    pose proof (at_node_frame t _ s4 _ _ _ Ha3 (Hfr4 a ltac:(done))) as Ha4.
    split; [done|]. split; [done|]. split; [|split; [congruence|]].
    { simpl. by rewrite drop_0. }
    intros y Hya Hym. rewrite Hfr4, Hfr3, Hfr2 by done. by apply Hfr1.
Qed.

Lemma shuffleRight_spec s a m ra ka ca km cm stolen x :
  a ≠ m →
  at_node t s a ra (Content ka ca) →
  at_node t s m childRole (Content km cm) →
  (is_Some ca ↔ is_Some cm) →
  (Z.of_nat (length ka) < 2 * t - 1)%Z →
  km !! (length km - 1) = Some x →
  (∀ va vm, ca = Some va → cm = Some vm →
            (Z.of_nat (length va) < 2 * t)%Z ∧ length km < length vm) →
  returns (shuffleRight a stolen m) s
    (λ res s',
       res = x
       ∧ at_node t s' a ra
           (Content (stolen :: ka)
              (joined ((λ vm, take 1 (drop (length km) vm)) <$> cm) ca))
       ∧ at_node t s' m childRole
           (Content (take (length km - 1) km)
              ((λ vm, take (length km) vm ++ drop (S (length km)) vm)
                 <$> cm))
       ∧ next s' = next s
       ∧ ∀ y, y ≠ a → y ≠ m → cells s' !! y = cells s !! y).
Proof.
  intros Hne Ha Hm Hkind Hk Hx Hc. unfold shuffleRight.
  assert (Hkm : 0 < length km).
  { apply lookup_lt_Some in Hx. lia. }
  assert (Hlast : take (Z.to_nat (Z.of_nat (length km) - 1)) km
                  ++ drop (S (Z.to_nat (Z.of_nat (length km) - 1))) km
                  = take (length km - 1) km).
  { replace (Z.to_nat (Z.of_nat (length km) - 1)) with (length km - 1) by lia.
    rewrite drop_ge by lia. apply app_nil_r. }
  eapply at_node_load; [exact Ha|]. intros n Hn [Hr Hb]. simpl in Hb.
  destruct (nbase n) as [ks|ks cs] eqn:Hbase, ca as [va|]; try done.
  - destruct cm as [vm|]; [destruct Hkind as [_ [? ?]]; done|].
    apply returns_bind. eapply returns_assertChildLeaf; [exact Hm|].
    apply returns_bind. keys_wr at_insertF; [exact Ha|done|sz|sz|].
    intros s1 Ha1 Hnx1 Hfr1. unfold set_ckeys in Ha1. simpl in Ha1.
    pose proof (at_node_frame t _ s1 _ _ _ Hm (Hfr1 m ltac:(done))) as Hm1.
    apply returns_bind. keys_rd at_lenF; [exact Hm1|done|].
    keys_wr at_removeF; [exact Hm1|done|sz| |].
    { cbn [ckeys].
      replace (Z.to_nat (Z.of_nat (length km) - 1)) with (length km - 1) by lia.
      exact Hx. }
    intros s2 Hm2 Hnx2 Hfr2. unfold set_ckeys in Hm2.
    cbn [ckeys cchildren] in Hm2. rewrite Hlast in Hm2.
    pose proof (at_node_frame t _ s2 _ _ _ Ha1 (Hfr2 a ltac:(done))) as Ha2.
    split; [done|]. split; [done|]. split; [done|]. split; [congruence|].
    intros y Hya Hym. rewrite Hfr2 by done. by apply Hfr1.
  - destruct cm as [vm|]; [|destruct Hkind as [[? ?] _]; done].
    destruct (Hc va vm eq_refl eq_refl) as [Hva Hvm].
    destruct (lookup_lt_is_Some_2 vm (length km) Hvm) as [c Hcm].
    apply returns_bind. eapply returns_assertChildInternal; [exact Hm|].
    apply returns_bind. keys_wr at_insertF; [exact Ha|done|sz|sz|].
    intros s1 Ha1 Hnx1 Hfr1. unfold set_ckeys in Ha1. simpl in Ha1.
    pose proof (at_node_frame t _ s1 _ _ _ Hm (Hfr1 m ltac:(done))) as Hm1.
    apply returns_bind. keys_rd at_lenF; [exact Hm1|done|].
    apply returns_bind.
    children_wr at_removeF; [exact Hm1|done|sz| |].
    { cbn [ckeys]. rewrite Nat2Z.id. exact Hcm. }
    intros s2 Hm2 Hnx2 Hfr2. unfold set_cchildren in Hm2.
    cbn [ckeys cchildren] in Hm2. rewrite Nat2Z.id in Hm2.
    pose proof (at_node_frame t _ s2 _ _ _ Ha1 (Hfr2 a ltac:(done))) as Ha2.
    apply returns_bind.
    children_wr at_insertF; [exact Ha2|done|sz|sz|].
    intros s3 Ha3 Hnx3 Hfr3. unfold set_cchildren in Ha3.
    cbn [ckeys cchildren] in Ha3. rewrite insert_at_front in Ha3.
    pose proof (at_node_frame t _ s3 _ _ _ Hm2 (Hfr3 m ltac:(done))) as Hm3.
    apply returns_bind. keys_rd at_lenF; [exact Hm3|done|].
    keys_wr at_removeF; [exact Hm3|done|sz| |].
    { cbn [ckeys].
      replace (Z.to_nat (Z.of_nat (length km) - 1)) with (length km - 1) by lia.
      exact Hx. }
    intros s4 Hm4 Hnx4 Hfr4. unfold set_ckeys in Hm4.
    cbn [ckeys cchildren] in Hm4. rewrite Hlast in Hm4.
    pose proof (at_node_frame t _ s4 _ _ _ Ha3 (Hfr4 a ltac:(done))) as Ha4.
    split; [done|]. split; [|split; [done|split; [congruence|]]].
    { simpl. rewrite (take_S_r _ _ c) by (by rewrite lookup_drop, Nat.add_0_r).
      done. }
    intros y Hya Hym. rewrite Hfr4, Hfr3, Hfr2 by done. by apply Hfr1.
Qed.
End node_specs.

(** ** Chains of children across a change of the store *)

Section chains.
Context {T : Type}.
Implicit Types (s : store T) (a : ref) (h : gmap N (node T)).

Lemma leaf_at_mono h h' a d :
  (∀ x n, h !! x = Some n → h' !! x = Some n) →
  leaf_at h a d → leaf_at h' a d.
Proof.
  intros Hsub Hl.
  induction Hl as [a n ks Hn Hb|a n ks cs i c d Hn Hb Hc Hl IH].
  - eapply leaf_here; [by apply Hsub|done].
  - eapply leaf_below; [by apply Hsub|done|done|done].
Qed.

Lemma levelled_bounded lvl s : levelled lvl s → bounded s.
Proof. intros Hs a n Hn. destruct (Hs a n Hn) as [? _]. lia. Qed.

Lemma levelled_child lvl s a n ks cs i c :
  levelled lvl s → cells s !! a = Some n →
  nbase n = baseInternalNode ks cs → view cs !! i = Some c →
  (c < next s)%N.
Proof.
  intros Hs Hn Hb Hc. destruct (Hs a n Hn) as (Ha & _ & Hok).
  unfold node_ok in Hok. rewrite Hb in Hok.
  unfold view in Hc. apply lookup_take_Some in Hc as [Hc _].
  eapply Forall_lookup_1 in Hok; [|exact Hc].
  destruct Hok as [->|[? _]]; lia.
Qed.

(** A chain that starts at an object of [s] stays among the objects of
    [s], so it is a chain of [s] when these are unchanged. *)
Lemma leaf_at_back lvl s h' a d :
  levelled lvl s →
  (∀ y, (y < next s)%N → h' !! y = cells s !! y) →
  (a < next s)%N →
  leaf_at h' a d → leaf_at (cells s) a d.
Proof.
  intros Hs Hfr Ha Hl.
  induction Hl as [a n ks Hn Hb|a n ks cs i c d Hn Hb Hc Hl IH].
  - rewrite Hfr in Hn by done. by eapply leaf_here.
  - rewrite Hfr in Hn by done.
    eapply leaf_below; [done|done|done|]. apply IH.
    by eapply levelled_child.
Qed.

Lemma leaf_at_forth s h' a d :
  bounded s →
  (∀ y, (y < next s)%N → h' !! y = cells s !! y) →
  leaf_at (cells s) a d → leaf_at h' a d.
Proof.
  intros Hb Hfr. apply leaf_at_mono. intros x n Hn.
  rewrite Hfr; [done|]. by apply (Hb x n).
Qed.

(** The chains from an object are those of its children, one longer. *)
Lemma leaf_at_children h a n ks cs d :
  h !! a = Some n → nbase n = baseInternalNode ks cs →
  leaf_at h a d ↔ ∃ d' i c, d = S d' ∧ view cs !! i = Some c ∧ leaf_at h c d'.
Proof.
  intros Hn Hb. split.
  - intros Hl. inversion Hl as [? n' ? Hn' Hb'|? n' ks' cs' i c d' Hn' Hb' Hc Hl'];
      subst; rewrite Hn in Hn'; injection Hn' as <-; rewrite Hb in Hb'; [done|].
    injection Hb' as <- <-. by exists d', i, c.
  - intros (d' & i & c & -> & Hc & Hl). by eapply leaf_below.
Qed.

Lemma leaf_at_leaf h a n ks d :
  h !! a = Some n → nbase n = baseLeafNode ks →
  leaf_at h a d ↔ d = 0.
Proof.
  intros Hn Hb. split.
  - intros Hl. inversion Hl as [? n' ? Hn' Hb'|? n' ks' cs' i c d' Hn' Hb' Hc Hl'];
      subst; [done|].
    rewrite Hn in Hn'. injection Hn' as <-. by rewrite Hb in Hb'.
  - intros ->. by eapply leaf_here.
Qed.
End chains.

(** ** Chains of children by what the nodes hold *)

Section chains_at.
Context {T : Type}.
Variable t : Z.
Implicit Types (s : store T) (a : ref) (c : content (T:=T)).

Lemma leaf_at_internal s a r ka cv d :
  at_node t s a r (Content ka (Some cv)) →
  leaf_at (cells s) a d
  ↔ ∃ d' i x, d = S d' ∧ cv !! i = Some x ∧ leaf_at (cells s) x d'.
Proof.
  intros (n & Hn & Hr & Hb). simpl in Hb.
  destruct (nbase n) as [|ks cs] eqn:Hbase; [done|].
  destruct Hb as [_ (_ & <- & _)]. by eapply leaf_at_children.
Qed.

Lemma leaf_at_external s a r ka d :
  at_node t s a r (Content ka None) →
  leaf_at (cells s) a d ↔ d = 0.
Proof.
  intros (n & Hn & Hr & Hb). simpl in Hb.
  destruct (nbase n) as [ks|] eqn:Hbase; [|done].
  by eapply leaf_at_leaf.
Qed.

(** Two objects with the same base show the same chains. *)
Lemma node_is_role (n : node T) r c r' :
  node_is t n r c → node_is t (Node r' (nbase n)) r' c.
Proof. intros [_ Hb]. split; [done|]. done. Qed.
End chains_at.

(** ** A full root *)

Section grow_specs.
Context {T : Type}.
Variable zero : T.
Variable t : Z.
Implicit Types (s : store T) (a : ref) (c : content (T:=T)).

Lemma growRoot_spec s b r c :
  at_node t s (root b) r c → (root b < next s)%N → (1 ≤ t)%Z →
  Z.of_nat (length (ckeys c)) = (2 * t - 1)%Z →
  (∀ cv, cchildren c = Some cv → Z.of_nat (length cv) = (2 * t)%Z) →
  returns (growRoot zero t b) s
    (λ b' s',
       ∃ median,
         ckeys c !! Z.to_nat (t - 1) = Some median
         ∧ root b' = N.succ (next s)
         ∧ at_node t s' (root b') rootRole
             (Content [median] (Some [next s; N.succ (N.succ (next s))]))
         ∧ at_node t s' (next s) childRole
             (Content (take (Z.to_nat (t - 1)) (ckeys c))
                      (take (Z.to_nat t) <$> cchildren c))
         ∧ at_node t s' (N.succ (N.succ (next s))) childRole
             (Content (drop (Z.to_nat t) (ckeys c))
                      (drop (Z.to_nat t) <$> cchildren c))
         ∧ next s' = N.succ (N.succ (N.succ (next s)))
         ∧ ∀ y, (y < next s)%N → cells s' !! y = cells s !! y).
Proof.
  intros (n & Hn & Hc) Hroot Ht Hlen Hclen. unfold growRoot, asChild.
  apply returns_bind, returns_bind. eapply returns_load; [done|].
  apply returns_alloc.
  set (old := next s).
  set (s1 := Store (<[old := Node childRole (nbase n)]> (cells s))
                   (N.succ old)).
  apply returns_bind. unfold newRootInternalNode. apply returns_alloc.
  simpl.
  set (top := N.succ old).
  set (s2 := Store (<[top := Node rootRole (newBaseInternalNode zero t)]>
                      (cells s1)) (N.succ top)).
  assert (Hold2 : cells s2 !! old = Some (Node childRole (nbase n))).
  { unfold s2, s1. simpl. rewrite lookup_insert_ne by (unfold top; lia).
    by rewrite lookup_insert_eq. }
  apply returns_bind.
  eapply returns_mono.
  { apply (split_spec zero t s2 old (Node childRole (nbase n)) childRole c);
      [done|by eapply node_is_role|unfold s2, top; simpl; lia|done..]. }
  intros [med sib] s3 (median & [= -> ->] & Hmed & Ha3 & Hsib3 & Hnx3 & Hfr3).
  simpl in Hnx3, Hsib3.
  assert (Htop3 : at_node t s3 top rootRole (Content [] (Some []))).
  { exists (Node rootRole (newBaseInternalNode zero t)).
    split; [|by apply newBaseInternalNode_is].
    rewrite Hfr3; [|unfold top; lia|unfold s2, top; simpl; lia].
    unfold s2. simpl. by rewrite lookup_insert_eq. }
  apply returns_bind. keys_wr at_insertF; [exact Htop3|done|sz|sz|].
  intros s4 H4 Hnx4 Hfr4. unfold set_ckeys in H4. simpl in H4.
  apply returns_bind. children_wr at_insertF; [exact H4|done|sz|sz|].
  intros s5 H5 Hnx5 Hfr5. unfold set_cchildren in H5. simpl in H5.
  apply returns_bind. children_wr at_insertF; [exact H5|done|sz|sz|].
  intros s6 H6 Hnx6 Hfr6. unfold set_cchildren in H6. simpl in H6.
  apply returns_ret. exists median. simpl.
  split; [done|]. split; [done|]. split; [done|].
  assert (Hsame : ∀ y, y ≠ top → cells s6 !! y = cells s3 !! y).
  { intros y Hy. by rewrite Hfr6, Hfr5, Hfr4. }
  split; [|split; [|split]].
  - eapply at_node_frame; [exact Ha3|]. apply Hsame. unfold top. lia.
  - eapply at_node_frame; [exact Hsib3|]. apply Hsame. unfold top. lia.
  - rewrite Hnx6, Hnx5, Hnx4, Hnx3. done.
  - intros y Hy. rewrite Hsame by (unfold top; lia).
    rewrite Hfr3; [|unfold old; lia|unfold s2, top; simpl; lia].
    unfold s2, s1. simpl.
    rewrite lookup_insert_ne by (unfold top, old; lia).
    by rewrite lookup_insert_ne by (unfold old; lia).
Qed.
End grow_specs.

Section reached.
Context {T : Type}.
Variable Compare : T → T → Z.
Variable zero : T.
Variable t : Z.
Implicit Types (s : store T) (a : ref) (c : content (T:=T)).

Lemma run_tree_ok cs b s :
  run Compare zero t cs = Ok (b, s) → ∃ lvl, tree_ok lvl b s.
Proof.
  intros Hrun. pose proof (run_ok Compare zero t cs) as H.
  by rewrite Hrun in H.
Qed.

Lemma at_node_child lvl s a r ka cv i x :
  levelled lvl s → at_node t s a r (Content ka (Some cv)) →
  cv !! i = Some x → (x < next s)%N.
Proof.
  intros Hs (n & Hn & Hr & Hb) Hx. simpl in Hb.
  destruct (nbase n) as [|ks cs] eqn:Hbase; [done|].
  destruct Hb as [_ (_ & <- & _)]. by eapply levelled_child.
Qed.

(** The chains below the new root are those below the old one, one
    longer. *)
Lemma grown_chains lvl s s' old top sib r c median d :
  levelled lvl s → at_node t s old r c → (0 ≤ t)%Z →
  (∀ y, (y < next s)%N → cells s' !! y = cells s !! y) →
  at_node t s' top rootRole (Content [median] (Some [next s; sib])) →
  at_node t s' (next s) childRole
    (Content (take (Z.to_nat (t - 1)) (ckeys c))
             (take (Z.to_nat t) <$> cchildren c)) →
  at_node t s' sib childRole
    (Content (drop (Z.to_nat t) (ckeys c))
             (drop (Z.to_nat t) <$> cchildren c)) →
  leaf_at (cells s') top d
  ↔ ∃ d0, d = S d0 ∧ leaf_at (cells s) old d0.
Proof.
  intros Hs Hold Ht Hfr Htop Hleft Hright.
  pose proof (levelled_bounded _ _ Hs) as Hbd.
  rewrite (leaf_at_internal t _ _ _ _ _ _ Htop).
  destruct c as [kv [cv|]]; simpl in *.
  - split.
    + intros (d' & i & x & -> & Hx & Hl). exists d'. split; [done|].
      apply (leaf_at_internal t _ _ _ _ _ _ Hold).
      destruct i as [|[|i]]; simpl in Hx; try done; injection Hx as <-.
      * apply (leaf_at_internal t _ _ _ _ _ _ Hleft) in Hl
          as (d0 & j & y & -> & Hy & Hl).
        apply lookup_take_Some in Hy as [Hy _].
        exists d0, j, y. split; [done|]. split; [done|].
        eapply leaf_at_back; [done|done| |done].
        by eapply at_node_child.
      * apply (leaf_at_internal t _ _ _ _ _ _ Hright) in Hl
          as (d0 & j & y & -> & Hy & Hl).
        rewrite lookup_drop in Hy.
        exists d0, (Z.to_nat t + j), y. split; [done|]. split; [done|].
        eapply leaf_at_back; [done|done| |done].
        by eapply at_node_child.
    + intros (d0 & -> & Hl).
      apply (leaf_at_internal t _ _ _ _ _ _ Hold) in Hl
        as (d1 & j & y & -> & Hy & Hl).
      apply (leaf_at_forth _ (cells s') _ _ Hbd Hfr) in Hl.
      destruct (decide (j < Z.to_nat t)).
      * exists (S d1), 0, (next s). split; [done|]. split; [done|].
        apply (leaf_at_internal t _ _ _ _ _ _ Hleft).
        exists d1, j, y. split; [done|]. split; [|done].
        by rewrite lookup_take_lt.
      * exists (S d1), 1, sib. split; [done|]. split; [done|].
        apply (leaf_at_internal t _ _ _ _ _ _ Hright).
        exists d1, (j - Z.to_nat t), y. split; [done|]. split; [|done].
        rewrite lookup_drop. rewrite <- Hy. f_equal. lia.
  - split.
    + intros (d' & i & x & -> & Hx & Hl). exists d'. split; [done|].
      apply (leaf_at_external t _ _ _ _ _ Hold).
      destruct i as [|[|i]]; simpl in Hx; try done; injection Hx as <-.
      * by apply (leaf_at_external t _ _ _ _ _ Hleft) in Hl.
      * by apply (leaf_at_external t _ _ _ _ _ Hright) in Hl.
    + intros (d0 & -> & Hl).
      apply (leaf_at_external t _ _ _ _ _ Hold) in Hl as ->.
      exists 0, 0, (next s). split; [done|]. split; [done|].
      by apply (leaf_at_external t _ _ _ _ _ Hleft).
Qed.
End reached.

(** * The claims that fail on the code *)

Ltac by_vm :=
  cbv zeta;
  match goal with
  | |- _ = ?v => vm_cast_no_check (eq_refl v)
  end.

Section failing_calls.
Import KV.
Local Open Scope Z_scope.

(** C1 (membership) fails: with [t = 512], after [Insert(1), ...,
    Insert(1535)], a second [Insert] of key 1024 and [Remove] of key
    1024, the net effect of the calls leaves 1024 absent, and [Search]
    still finds it.  [insertBelowMax] of [baseInternalNode] splits the
    full child whose median is 1024 and then descends to the left of
    the promoted key without noticing that the key is equal to it: the
    key is stored twice, and [Remove] takes out one copy. *)
Theorem search_finds_removed_key :
  let calls := ascending 1 1535
               ++ [CallInsert (1024, 1); CallRemove (1024, 0)] in
  left_present Compare (1024, 7) false calls = false
  ∧ found_after t calls (1024, 7) = Ok ((1024, 1), true).
Proof. cbv zeta. split; by_vm. Qed.

(** C3 (sortedness) fails: with [t = 512], after [Insert(1), ...,
    Insert(1535)] and a second [Insert] of key 1024 the in-order
    traversal holds key 1024 twice, so it is not strictly increasing. *)
Theorem traversal_not_increasing :
  let calls := ascending 1 1535 ++ [CallInsert (1024, 1)] in
  res_bind (run Compare zero t calls)
    (λ '(b, s), Ok (increasing Compare (traversal b s),
                    take 3 (drop 1022 (traversal b s))))
  = Ok (false, [(1023, 0); (1024, 1); (1024, 0)]).
Proof. by_vm. Qed.

(** C9 (overwrite) fails: with [t = 512], after [Insert(1), ...,
    Insert(1535)] key 1024 is stored with payload 0; [Insert] of key
    1024 with payload 1 leaves [Search] returning payload 0, and the
    tree then holds 1536 keys instead of 1535. *)
Theorem insert_equal_key_adds_a_key :
  let before := ascending 1 1535 in
  let after := before ++ [CallInsert (1024, 1)] in
  (found_after t before (1024, 1),
   res_bind (traversal_after t before) (λ l, Ok (length l)),
   found_after t after (1024, 1),
   res_bind (traversal_after t after) (λ l, Ok (length l)))
  = (Ok ((1024, 0), true), Ok 1535%nat,
     Ok ((1024, 0), true), Ok 1536%nat).
Proof. by_vm. Qed.

(** C2 (predecessor) fails.  With the constant [t] set to 2: after
    [Insert(10), ..., Insert(1)] the root holds key 7 over a left child
    with keys 3 and 5 and leaves [1 2], [4], [6]; [Remove(7)] puts key 2,
    the last key of the first leaf, in the root, where the maximum 6 of
    the left subtree belongs.  With [t] set to 3 the calls
    [Insert(21), ..., Insert(1)] and [Remove(13)] give the same picture.
    [deletePred] of [childInternalNode] follows the first child. *)
Theorem remove_takes_wrong_predecessor :
  (traversal_after 2 (descending 10 10),
   res_bind (run Compare zero 2 (descending 10 10))
     (λ '(b, s), Ok (key_counts 4 (cells s) (root b))),
   traversal_after 2 (descending 10 10 ++ [CallRemove (key 7)]),
   traversal_after 3 (descending 21 21 ++ [CallRemove (key 13)]))
  = (Ok [1; 2; 3; 4; 5; 6; 7; 8; 9; 10],
     Ok [1; 2; 2; 1; 1; 1; 1; 1],
     Ok [1; 3; 4; 5; 6; 2; 8; 9; 10],
     Ok [1; 2; 4; 5; 6; 7; 8; 9; 10; 11; 12; 3; 14; 15; 16; 17; 18; 19;
         20; 21]).
Proof. by_vm. Qed.

(** C4 (occupancy) fails.  With the constant [t] set to 2: after
    [Insert(1), ..., Insert(10)], [Remove(10)] and [Remove(4)] the last
    leaf holds no key, where [t - 1 = 1] is the minimum.  With [t] set
    to 3 the calls [Insert(1), ..., Insert(21)], [Remove(21)] and
    [Remove(9)] leave the last leaf empty in the same way.  [deleteSucc]
    of [childInternalNode] merges the last two children of its receiver
    and keeps the emptied one. *)
Theorem remove_leaves_empty_leaf :
  (res_bind (run Compare zero 2
               (ascending 1 10 ++ [CallRemove (key 10); CallRemove (key 4)]))
     (λ '(b, s), Ok (child_key_counts b s)),
   res_bind (run Compare zero 3
               (ascending 1 21 ++ [CallRemove (key 21); CallRemove (key 9)]))
     (λ '(b, s), Ok (child_key_counts b s)))
  = (Ok [1; 1; 1; 2; 1; 2; 0],
     Ok [2; 2; 2; 2; 3; 2; 2; 4; 0]).
Proof. by_vm. Qed.
End failing_calls.

(** * The claims that hold *)

(** [NewBTree] followed by any calls never runs out of the fuel that
    [Search], [Insert] and [Remove] give to the recursive methods. *)
Lemma run_has_fuel {T} (Compare : T → T → Z) zero t cs :
  run Compare zero t cs ≠ OutOfFuel.
Proof.
  pose proof (run_ok Compare zero t cs) as H.
  by destruct (run Compare zero t cs) as [[b s]| |].
Qed.

(** C5 (balance): in the tree that [NewBTree()] and any sequence of
    [Insert] and [Remove] calls return, every leaf is at the same depth
    from the root: two chains of child references from the root to a leaf
    have the same length. *)
Theorem leaves_at_one_depth {T} (Compare : T → T → Z) zero t cs b s :
  run Compare zero t cs = Ok (b, s) → balanced b s.
Proof.
  intros Hrun. pose proof (run_ok Compare zero t cs) as H.
  rewrite Hrun in H. destruct H as (lvl & Hs & _).
  intros d1 d2 H1 H2.
  rewrite (leaf_at_level lvl s _ _ Hs H1).
  by rewrite (leaf_at_level lvl s _ _ Hs H2).
Qed.

Lemma leaves_at_one_depth_witness :
  ∃ b s,
    run KV.Compare KV.zero 2
      (KV.ascending 1 10 ++ [CallRemove (KV.key 10); CallRemove (KV.key 4)])
    = Ok (b, s)
    ∧ balanced b s.
Proof.
  eexists _, _. split; [vm_compute; reflexivity|].
  apply (leaves_at_one_depth KV.Compare KV.zero 2
           (KV.ascending 1 10
            ++ [CallRemove (KV.key 10); CallRemove (KV.key 4)])).
  vm_compute. reflexivity.
Defined.

(** ** Binary search *)

Section find_facts.
Context {T : Type}.
Variable Compare : T → T → Z.
Variable zero : T.
Implicit Types (l : slice T) (v : list T) (item : T).

Lemma find_loop_range fuel l item low high i found :
  (0 ≤ low ≤ high)%Z → (high ≤ slen l)%Z →
  find_loop Compare zero fuel l item low high = (i, found) →
  (low ≤ i ≤ high)%Z
  ∧ (found = true →
     (i < high)%Z ∧ Compare item (nth (Z.to_nat i) (arr l) zero) = 0%Z).
Proof.
  revert low high. induction fuel as [|fuel IH]; intros low high Hlo Hhi; simpl.
  - intros [= <- <-]. split; [lia|done].
  - destruct (Z.ltb_spec low high) as [Hlt|Hge];
      [|intros [= <- <-]; split; [lia|done]].
    assert (Hq : ((low + high) `quot` 2 = (low + high) / 2)%Z)
      by (apply Z.quot_div_nonneg; lia).
    rewrite Hq.
    set (between := ((low + high) / 2)%Z).
    assert (Hb : (low ≤ between < high)%Z) by (unfold between; Z.div_mod_to_equations; lia).
    destruct (Z.ltb_spec (Compare item (nth (Z.to_nat between) (arr l) zero)) 0)
      as [Hneg|Hnn].
    { intros H. apply IH in H; [|lia|lia]. destruct H as [H1 H2].
      split; [lia|]. intros Hf. destruct (H2 Hf). split; [lia|done]. }
    destruct (Z.ltb_spec 0 (Compare item (nth (Z.to_nat between) (arr l) zero)))
      as [Hpos|Hnp].
    { intros H. apply IH in H; [|lia|lia]. destruct H as [H1 H2].
      split; [lia|]. intros Hf. destruct (H2 Hf). split; [lia|done]. }
    intros [= <- <-]. split; [lia|]. intros _. split; [lia|lia].
Qed.

Lemma find_range l item i found :
  find Compare zero l item = (i, found) →
  (0 ≤ i ≤ slen l)%Z
  ∧ (found = true →
     (i < slen l)%Z ∧ Compare item (nth (Z.to_nat i) (arr l) zero) = 0%Z).
Proof.
  unfold find. intros H. apply find_loop_range in H; [done| |lia].
  unfold slen. lia.
Qed.

Lemma find_hit l item i :
  swf l → find Compare zero l item = (i, true) →
  ∃ x, index l i = Ok x ∧ Compare item x = 0%Z.
Proof.
  intros Hwf H. apply find_range in H as [Hr Hf].
  destruct (Hf eq_refl) as [Hlt Heq].
  destruct (lookup_lt_is_Some_2 (arr l) (Z.to_nat i)) as [x Hx].
  { unfold swf, slen in *. lia. }
  exists x. rewrite nth_lookup, Hx in Heq. split; [|done].
  unfold index.
  destruct (Z.ltb_spec i 0); [lia|].
  destruct (Z.leb_spec (slen l) i); [lia|]. simpl. by rewrite Hx.
Qed.

Lemma view_nth l (j : nat) x :
  view l !! j = Some x → nth j (arr l) zero = x.
Proof.
  unfold view. intros H. apply lookup_take_Some in H as [H _].
  by apply nth_lookup_Some with (d := zero) in H.
Qed.

(** In a list that is increasing under an ordering, every earlier
    element is less than every later one. *)
Lemma increasing_pairs v :
  ordering Compare → increasing Compare v = true →
  ∀ i j x y, i < j → v !! i = Some x → v !! j = Some y →
             (Compare x y < 0)%Z.
Proof.
  intros [Hflip Htrans]. induction v as [|a v IH]; [done|].
  intros Hinc i j x y Hij Hx Hy.
  assert (Htail : increasing Compare v = true).
  { simpl in Hinc. destruct v; [done|]. by apply andb_prop in Hinc as [_ ?]. }
  destruct i as [|i].
  - simpl in Hx. injection Hx as ->.
    destruct j as [|j]; [lia|]. simpl in Hy.
    destruct v as [|b v]; [done|].
    simpl in Hinc. apply andb_prop in Hinc as [Hab _].
    apply Z.ltb_lt in Hab.
    destruct j as [|j].
    + simpl in Hy. by injection Hy as ->.
    + assert (Hby : (Compare b y < 0)%Z).
      { apply (IH Htail 0 (S j) b y); [lia|done|done]. }
      destruct (Z.lt_ge_cases (Compare x y) 0) as [|Hge]; [done|].
      assert (Compare y x ≤ 0)%Z.
      { destruct (Z.le_gt_cases (Compare y x) 0) as [|Hgt]; [done|].
        apply Hflip in Hgt. lia. }
      assert (Compare b x ≤ 0)%Z by (apply (Htrans b y x); lia).
      apply Hflip in Hab. lia.
  - destruct j as [|j]; [lia|]. simpl in Hx, Hy.
    apply (IH Htail i j); [lia|done|done].
Qed.

Lemma find_loop_sorted fuel l item low high i :
  ordering Compare → swf l → increasing Compare (view l) = true →
  (0 ≤ low ≤ high)%Z → (high ≤ slen l)%Z → (high - low < Z.of_nat fuel)%Z →
  (∀ j x, view l !! j = Some x → (Z.of_nat j < low)%Z →
          (0 < Compare item x)%Z) →
  (∀ j x, view l !! j = Some x → (high ≤ Z.of_nat j)%Z →
          (Compare item x < 0)%Z) →
  find_loop Compare zero fuel l item low high = (i, false) →
  insertion_point Compare (view l) item (Z.to_nat i).
Proof.
  intros Hord Hwf Hinc. pose proof Hord as [Hflip Htrans].
  pose proof (increasing_pairs _ Hord Hinc) as Hpairs.
  revert low high. induction fuel as [|fuel IH];
    intros low high Hlo Hhi Hfuel Hbelow Habove; [lia|]. simpl.
  destruct (Z.ltb_spec low high) as [Hlt|Hge].
  2: { intros [= <-]. intros j x Hx. destruct (decide (j < Z.to_nat low)).
       - apply (Hbelow j x Hx). lia.
       - apply (Habove j x Hx). lia. }
  assert (Hq : ((low + high) `quot` 2 = (low + high) / 2)%Z)
    by (apply Z.quot_div_nonneg; lia).
  rewrite Hq.
  set (between := ((low + high) / 2)%Z).
  assert (Hb : (low ≤ between < high)%Z) by (unfold between; Z.div_mod_to_equations; lia).
  assert (Hsome : is_Some (view l !! Z.to_nat between)).
  { apply lookup_lt_is_Some. rewrite view_length by done. unfold slen in Hhi. lia. }
  destruct Hsome as [m Hm]. rewrite (view_nth _ _ _ Hm).
  destruct (Z.ltb_spec (Compare item m) 0) as [Hneg|Hnn].
  { apply IH; [lia|lia|lia|done|].
    intros j x Hx Hj.
    destruct (decide (j = Z.to_nat between)) as [->|Hne].
    { rewrite Hm in Hx. by injection Hx as <-. }
    assert (Compare m x < 0)%Z
      by (apply (Hpairs (Z.to_nat between) j); [lia|done|done]).
    destruct (Z.lt_ge_cases (Compare item x) 0) as [|Hge]; [done|].
    assert (Compare x item ≤ 0)%Z.
    { destruct (Z.le_gt_cases (Compare x item) 0) as [|Hgt]; [done|].
      apply Hflip in Hgt. lia. }
    assert (Compare m item ≤ 0)%Z by (apply (Htrans m x item); lia).
    assert (0 < Compare m item)%Z by (by apply Hflip). lia. }
  destruct (Z.ltb_spec 0 (Compare item m)) as [Hpos|Hnp]; [|done].
  apply IH; [lia|lia|lia| |done].
  intros j x Hx Hj.
  destruct (decide (j = Z.to_nat between)) as [->|Hne].
  { rewrite Hm in Hx. by injection Hx as <-. }
  assert (Compare x m < 0)%Z
    by (apply (Hpairs j (Z.to_nat between)); [lia|done|done]).
  destruct (Z.lt_ge_cases 0 (Compare item x)) as [|Hle]; [done|].
  assert (Compare m item < 0)%Z by (by apply Hflip).
  assert (Compare m x ≤ 0)%Z by (apply (Htrans m item x); lia).
  assert (0 < Compare m x)%Z by (by apply Hflip). lia.
Qed.

Lemma find_sorted l item i :
  ordering Compare → swf l → increasing Compare (view l) = true →
  find Compare zero l item = (i, false) →
  insertion_point Compare (view l) item (Z.to_nat i).
Proof.
  intros Hord Hwf Hinc. unfold find.
  apply find_loop_sorted; try done.
  - unfold slen. lia.
  - unfold slen. lia.
  - intros j x _ ?. lia.
  - intros j x Hx Hj. apply lookup_lt_Some in Hx.
    rewrite view_length in Hx by done. unfold slen in Hj. lia.
Qed.
End find_facts.

Lemma KV_ordering : ordering KV.Compare.
Proof. split; unfold KV.Compare; intros; lia. Qed.

(** ** [find], [insertTo], [removeFrom] *)

(** X1.  The index that [find] returns lies within the slice, and when
    [find] reports a match the element at that index compares equal to
    the item.  This holds whatever the order of the slice. *)
Theorem find_reports_a_match {T} (Compare : T → T → Z) (zero : T)
    (l : slice T) (item : T) (i : Z) (found : bool) :
  swf l → find Compare zero l item = (i, found) →
  (0 ≤ i ≤ slen l)%Z
  ∧ (found = true → ∃ x, index l i = Ok x ∧ Compare item x = 0%Z).
Proof.
  intros Hwf H. split; [by apply find_range in H as [Hr _]|].
  intros ->. by apply (find_hit Compare zero).
Qed.

Lemma find_reports_a_match_witness :
  (0 ≤ 1 ≤ slen Small.odd_keys)%Z
  ∧ (true = true →
     ∃ x, index Small.odd_keys 1 = Ok x ∧ KV.Compare (KV.key 3) x = 0%Z).
Proof.
  apply (find_reports_a_match KV.Compare KV.zero Small.odd_keys (KV.key 3)).
  - unfold swf. simpl. lia.
  - reflexivity.
Defined.

(** X2.  On a slice that is strictly increasing under an ordering, [find]
    reports a match exactly when some element compares equal to the item;
    when it reports none, the index returned is the place of the item:
    every element before it is smaller and every element from it on is
    greater. *)
Theorem find_on_increasing_slice {T} (Compare : T → T → Z) (zero : T)
    (l : slice T) (item : T) (i : Z) (found : bool) :
  ordering Compare → swf l → increasing Compare (view l) = true →
  find Compare zero l item = (i, found) →
  found = stored Compare item (view l)
  ∧ (found = false → insertion_point Compare (view l) item (Z.to_nat i)).
Proof.
  intros Hord Hwf Hinc H. destruct found.
  - split; [|done]. symmetry. apply existsb_exists.
    destruct (find_hit Compare zero _ _ _ Hwf H) as (x & Hx & Heq).
    exists x. split; [|by apply Z.eqb_eq].
    apply index_inv in Hx as [Hi Hx]. apply (list_elem_of_In (view l) x).
    apply (list_elem_of_lookup_2 _ (Z.to_nat i)). unfold view.
    rewrite lookup_take_lt by (unfold slen in Hi; lia). done.
  - pose proof (find_sorted _ _ _ _ _ Hord Hwf Hinc H) as Hp.
    split; [|done]. symmetry. apply not_true_is_false. intros Hs.
    apply existsb_exists in Hs as (x & Hin & Heq). apply Z.eqb_eq in Heq.
    apply (list_elem_of_In (view l) x) in Hin.
    apply list_elem_of_lookup_1 in Hin as [j Hj].
    specialize (Hp j x Hj). destruct (decide (j < Z.to_nat i)); lia.
Qed.

Lemma find_on_increasing_slice_witness :
  false = stored KV.Compare (KV.key 3) (view Small.two_keys)
  ∧ (false = false →
     insertion_point KV.Compare (view Small.two_keys) (KV.key 3) (Z.to_nat 1)).
Proof.
  apply (find_on_increasing_slice KV.Compare KV.zero Small.two_keys (KV.key 3)).
  - exact KV_ordering.
  - unfold swf. simpl. lia.
  - reflexivity.
  - reflexivity.
Defined.

Lemma two_keys_holds :
  holds Small.two_keys 3 [KV.key 2; KV.key 4].
Proof. unfold holds, swf, Small.two_keys, view, cap. simpl. split; [lia|done]. Qed.

(** X3.  [insertTo] never grows the backing array.  For an index within
    the slice it puts the items at that index, keeping what was there on
    both sides, when the capacity allows it; when it does not, the call
    panics. *)
Theorem insertTo_within_capacity {E} (l : slice E) (c : Z) (v : list E)
    (i : nat) (items : list E) :
  holds l c v → i ≤ length v →
  match insertTo l (Z.of_nat i) items with
  | Ok l' =>
      (Z.of_nat (length v + length items) ≤ c)%Z
      ∧ holds l' c (take i v ++ items ++ drop i v)
  | Panic => (c < Z.of_nat (length v + length items))%Z
  | OutOfFuel => False
  end.
Proof.
  intros Hl Hi.
  destruct (Z.le_gt_cases (Z.of_nat (length v + length items)) c) as [Hc|Hc].
  - destruct (holds_insertTo l c v i items Hl Hi Hc) as (l' & -> & Hl').
    done.
  - unfold insertTo. rewrite (holds_slen _ _ _ Hl).
    destruct Hl as (_ & _ & Hcap).
    destruct (Z.ltb_spec (Z.of_nat (cap l))
                (Z.of_nat (length items) + Z.of_nat (length v))); lia.
Qed.

Lemma insertTo_within_capacity_witness :
  match insertTo Small.two_keys (Z.of_nat 1) [KV.key 3] with
  | Ok l' =>
      (Z.of_nat (length [KV.key 2; KV.key 4] + length [KV.key 3]) ≤ 3)%Z
      ∧ holds l' 3 (take 1 [KV.key 2; KV.key 4] ++ [KV.key 3]
                    ++ drop 1 [KV.key 2; KV.key 4])
  | Panic => (3 < Z.of_nat (length [KV.key 2; KV.key 4] + length [KV.key 3]))%Z
  | OutOfFuel => False
  end.
Proof.
  apply (insertTo_within_capacity Small.two_keys 3 [KV.key 2; KV.key 4] 1).
  - exact two_keys_holds.
  - simpl. lia.
Defined.

(** X4.  [removeFrom(i, j)] returns the elements from [i] up to [j] and
    closes the gap, keeping the capacity; it panics exactly when the
    range is reversed or ends past the length. *)
Theorem removeFrom_takes_a_range {E} (l : slice E) (c : Z) (v : list E)
    (i j : nat) :
  holds l c v →
  match removeFrom l (Z.of_nat i) (Z.of_nat j) with
  | Ok (removed, l') =>
      i ≤ j ≤ length v
      ∧ removed = take (j - i) (drop i v)
      ∧ holds l' c (take i v ++ drop j v)
  | Panic => j < i ∨ length v < j
  | OutOfFuel => False
  end.
Proof.
  intros Hl.
  destruct (decide (i ≤ j ≤ length v)) as [[Hi Hj]|Hn].
  - destruct (holds_removeFrom l c v i j Hl Hi Hj) as (l' & -> & Hl').
    done.
  - unfold removeFrom. rewrite (holds_slen _ _ _ Hl).
    destruct (Z.ltb_spec (Z.of_nat i) 0); [lia|]. simpl.
    destruct (Z.ltb_spec (Z.of_nat j) (Z.of_nat i)); simpl; [lia|].
    destruct (Z.ltb_spec (Z.of_nat (length v)) (Z.of_nat j)); simpl; lia.
Qed.

Lemma removeFrom_takes_a_range_witness :
  match removeFrom Small.two_keys (Z.of_nat 1) (Z.of_nat 2) with
  | Ok (removed, l') =>
      1 ≤ 2 ≤ length [KV.key 2; KV.key 4]
      ∧ removed = take (2 - 1) (drop 1 [KV.key 2; KV.key 4])
      ∧ holds l' 3 (take 1 [KV.key 2; KV.key 4] ++ drop 2 [KV.key 2; KV.key 4])
  | Panic => 2 < 1 ∨ length [KV.key 2; KV.key 4] < 2
  | OutOfFuel => False
  end.
Proof.
  apply (removeFrom_takes_a_range Small.two_keys 3 [KV.key 2; KV.key 4] 1 2).
  exact two_keys_holds.
Defined.

(** X5.  [insert] followed by [remove] at the same index gives the item
    back and leaves the slice as it was: same elements, same capacity. *)
Theorem insert_then_remove {E} (l : slice E) (c : Z) (v : list E)
    (i : nat) (x : E) :
  holds l c v → i ≤ length v → (Z.of_nat (length v) < c)%Z →
  ∃ l1 l2,
    insert_ l (Z.of_nat i) x = Ok l1
    ∧ remove_ l1 (Z.of_nat i) = Ok (x, l2)
    ∧ holds l2 c v.
Proof.
  intros Hl Hi Hc.
  destruct (holds_insert l c v i x Hl Hi Hc) as (l1 & H1 & Hl1).
  assert (Hx : (take i v ++ x :: drop i v) !! i = Some x).
  { rewrite lookup_app_r by (rewrite length_take; lia).
    rewrite length_take, Nat.min_l by lia. by rewrite Nat.sub_diag. }
  destruct (holds_remove l1 c _ i x Hl1 Hx) as (l2 & H2 & Hl2).
  exists l1, l2. split; [done|]. split; [done|].
  assert (Hv : take i (take i v ++ x :: drop i v)
               ++ drop (S i) (take i v ++ x :: drop i v) = v).
  { rewrite take_app_length' by (rewrite length_take; lia).
    rewrite cons_middle, app_assoc.
    rewrite drop_app_length' by (rewrite length_app, length_take; simpl; lia).
    apply take_drop. }
  by rewrite Hv in Hl2.
Qed.

Lemma insert_then_remove_witness :
  ∃ l1 l2,
    insert_ Small.two_keys (Z.of_nat 1) (KV.key 3) = Ok l1
    ∧ remove_ l1 (Z.of_nat 1) = Ok (KV.key 3, l2)
    ∧ holds l2 3 [KV.key 2; KV.key 4].
Proof.
  apply (insert_then_remove Small.two_keys 3 [KV.key 2; KV.key 4] 1 (KV.key 3)).
  - exact two_keys_holds.
  - simpl. lia.
  - simpl. lia.
Defined.

(** ** Increasing lists under an ordering *)

Section order_facts.
Context {T : Type}.
Variable Compare : T → T → Z.
Hypothesis Hord : ordering Compare.
Implicit Types (v : list T) (k x y : T).

Lemma compare_refl x : Compare x x = 0%Z.
Proof.
  destruct Hord as [Hflip _]. pose proof (Hflip x x). lia.
Qed.

Lemma compare_eq_sym x y : Compare x y = 0%Z → Compare y x = 0%Z.
Proof.
  destruct Hord as [Hflip _].
  pose proof (Hflip x y). pose proof (Hflip y x). lia.
Qed.

Lemma compare_lt_le x y z :
  (Compare x y < 0)%Z → (Compare y z ≤ 0)%Z → (Compare x z < 0)%Z.
Proof.
  destruct Hord as [Hflip Htrans]. intros Hxy Hyz.
  destruct (Z.lt_ge_cases (Compare x z) 0) as [|Hge]; [done|].
  assert (Compare z x ≤ 0)%Z by (pose proof (Hflip x z); lia).
  assert (Compare y x ≤ 0)%Z by (by apply (Htrans y z x)).
  pose proof (Hflip x y). lia.
Qed.

Lemma compare_le_lt x y z :
  (Compare x y ≤ 0)%Z → (Compare y z < 0)%Z → (Compare x z < 0)%Z.
Proof.
  destruct Hord as [Hflip Htrans]. intros Hxy Hyz.
  destruct (Z.lt_ge_cases (Compare x z) 0) as [|Hge]; [done|].
  assert (Compare z x ≤ 0)%Z by (pose proof (Hflip x z); lia).
  assert (Compare z y ≤ 0)%Z by (by apply (Htrans z x y)).
  pose proof (Hflip y z). lia.
Qed.

Lemma sorted_pairs_increasing v :
  sorted_pairs Compare v ↔ increasing Compare v = true.
Proof.
  split; [|intros H i j x y; by apply (increasing_pairs Compare v Hord H)].
  induction v as [|a v IH]; [done|]. intros Hp.
  assert (Htail : increasing Compare v = true).
  { apply IH. intros i j x y Hij Hx Hy. by apply (Hp (S i) (S j)); [lia|..]. }
  simpl. destruct v as [|b v]; [done|].
  apply andb_true_intro. split; [|done]. apply Z.ltb_lt.
  by apply (Hp 0 1); [lia|..].
Qed.

Lemma lookup_inserted v (i : nat) k j :
  i ≤ length v →
  (take i v ++ k :: drop i v) !! j
  = if decide (j < i) then v !! j
    else if decide (j = i) then Some k else v !! (j - 1).
Proof.
  intros Hi. destruct (decide (j < i)).
  - rewrite lookup_app_l by (rewrite length_take; lia).
    by rewrite lookup_take_lt.
  - rewrite lookup_app_r by (rewrite length_take; lia).
    rewrite length_take, Nat.min_l by lia.
    destruct (decide (j = i)) as [->|Hne].
    + by rewrite Nat.sub_diag.
    + replace (j - i) with (S (j - i - 1)) by lia. simpl.
      rewrite lookup_drop. f_equal. lia.
Qed.

Lemma lookup_removed v (i : nat) j :
  i < length v →
  (take i v ++ drop (S i) v) !! j
  = if decide (j < i) then v !! j else v !! (S j).
Proof.
  intros Hi. destruct (decide (j < i)).
  - rewrite lookup_app_l by (rewrite length_take; lia).
    by rewrite lookup_take_lt.
  - rewrite lookup_app_r by (rewrite length_take; lia).
    rewrite length_take, Nat.min_l by lia.
    rewrite lookup_drop. f_equal. lia.
Qed.

(** Putting [k] at its place keeps the list sorted. *)
Lemma sorted_pairs_inserted v k (i : nat) :
  i ≤ length v → sorted_pairs Compare v →
  insertion_point Compare v k i →
  sorted_pairs Compare (take i v ++ k :: drop i v).
Proof.
  destruct Hord as [Hflip _].
  intros Hi Hp Hk j1 j2 x y Hj.
  rewrite !lookup_inserted by done. intros Hx Hy.
  destruct (decide (j1 < i)), (decide (j2 < i)); try lia.
  - by apply (Hp j1 j2).
  - destruct (decide (j2 = i)).
    + injection Hy as <-. specialize (Hk j1 x Hx).
      rewrite decide_True in Hk by done. by apply Hflip.
    + by apply (Hp j1 (j2 - 1)); [lia|..].
  - destruct (decide (j1 = i)), (decide (j2 = i)); try lia.
    + injection Hx as <-. specialize (Hk (j2 - 1) y Hy).
      rewrite decide_False in Hk by lia. done.
    + by apply (Hp (j1 - 1) (j2 - 1)); [lia|..].
Qed.

(** Replacing an element by one that compares equal keeps the list
    sorted. *)
Lemma sorted_pairs_replaced v k (i : nat) x :
  v !! i = Some x → Compare k x = 0%Z → sorted_pairs Compare v →
  sorted_pairs Compare (<[i := k]> v).
Proof.
  intros Hx Hkx Hp j1 j2 y1 y2 Hj H1 H2.
  pose proof (compare_eq_sym _ _ Hkx) as Hxk.
  apply list_lookup_insert_Some in H1, H2.
  destruct H1 as [(<- & <- & _)|[Hn1 H1]], H2 as [(<- & <- & _)|[Hn2 H2]].
  - lia.
  - apply (compare_le_lt k x y2); [lia|]. by apply (Hp i j2).
  - apply (compare_lt_le y1 x k); [|lia]. by apply (Hp j1 i).
  - by apply (Hp j1 j2).
Qed.

Lemma sorted_pairs_removed v (i : nat) :
  i < length v → sorted_pairs Compare v →
  sorted_pairs Compare (take i v ++ drop (S i) v).
Proof.
  intros Hi Hp j1 j2 x y Hj. rewrite !lookup_removed by done.
  intros Hx Hy.
  destruct (decide (j1 < i)), (decide (j2 < i)); try lia.
  - by apply (Hp j1 j2).
  - by apply (Hp j1 (S j2)); [lia|..].
  - by apply (Hp (S j1) (S j2)); [lia|..].
Qed.

Lemma compare_eq_trans x y z :
  Compare x y = 0%Z → Compare y z = 0%Z → Compare x z = 0%Z.
Proof.
  intros Hxy Hyz.
  pose proof (compare_eq_sym _ _ Hxy). pose proof (compare_eq_sym _ _ Hyz).
  destruct Hord as [Hflip Htrans].
  assert (Compare x z ≤ 0)%Z by (apply (Htrans x y z); lia).
  assert (Compare z x ≤ 0)%Z by (apply (Htrans z y x); lia).
  pose proof (Hflip x z). lia.
Qed.

Lemma stored_inserted x v k (j : nat) :
  stored Compare x (take j v ++ k :: drop j v)
  = stored Compare x v || (Compare x k =? 0)%Z.
Proof.
  unfold stored. rewrite <- (take_drop j v) at 3.
  rewrite !existsb_app. simpl.
  destruct (existsb _ (take j v)), (existsb _ (drop j v)),
    (Compare x k =? 0)%Z; done.
Qed.

Lemma stored_replaced x v k (j : nat) y :
  v !! j = Some y → Compare k y = 0%Z →
  stored Compare x (<[j := k]> v)
  = stored Compare x v || (Compare x k =? 0)%Z.
Proof.
  intros Hy Hky. unfold stored.
  rewrite <- (take_drop_middle v j y Hy) at 2.
  rewrite insert_take_drop by (by eapply lookup_lt_Some).
  rewrite !existsb_app. simpl.
  assert (Heq : (Compare x k =? 0)%Z = (Compare x y =? 0)%Z).
  { destruct (Z.eqb_spec (Compare x k) 0) as [H|H],
      (Z.eqb_spec (Compare x y) 0) as [H'|H']; try done.
    - destruct H'. by apply (compare_eq_trans x k y).
    - destruct H. apply (compare_eq_trans x y k); [done|].
      by apply compare_eq_sym. }
  rewrite Heq.
  destruct (existsb _ (take j v)), (existsb _ (drop (S j) v)),
    (Compare x y =? 0)%Z; done.
Qed.

Lemma stored_lookup k v :
  stored Compare k v = true ↔ ∃ j x, v !! j = Some x ∧ Compare k x = 0%Z.
Proof.
  unfold stored. rewrite existsb_exists. split.
  - intros (x & Hin & Heq). apply Z.eqb_eq in Heq.
    apply (list_elem_of_In v x) in Hin.
    apply list_elem_of_lookup_1 in Hin as [j Hj]. by exists j, x.
  - intros (j & x & Hj & Heq). exists x. split; [|by apply Z.eqb_eq].
    apply (list_elem_of_In v x). by apply (list_elem_of_lookup_2 _ j).
Qed.

(** In a sorted list only one place holds a key equal to [k]. *)
Lemma sorted_pairs_unique v k (i j : nat) x y :
  sorted_pairs Compare v →
  v !! i = Some x → v !! j = Some y →
  Compare k x = 0%Z → Compare k y = 0%Z → i = j.
Proof.
  intros Hp Hx Hy Hkx Hky.
  pose proof (compare_eq_sym _ _ Hkx) as Hxk.
  pose proof (compare_eq_sym _ _ Hky) as Hyk.
  destruct Hord as [Hflip Htrans].
  destruct (Nat.lt_trichotomy i j) as [Hlt|[?|Hlt]]; [|done|].
  - pose proof (Hp i j x y Hlt Hx Hy).
    assert (Compare y x ≤ 0)%Z by (apply (Htrans y k x); lia).
    pose proof (Hflip x y). lia.
  - pose proof (Hp j i y x Hlt Hy Hx).
    assert (Compare x y ≤ 0)%Z by (apply (Htrans x k y); lia).
    pose proof (Hflip y x). lia.
Qed.

Lemma stored_removed x v k (j : nat) y :
  sorted_pairs Compare v → v !! j = Some y → Compare k y = 0%Z →
  stored Compare x (take j v ++ drop (S j) v)
  = stored Compare x v && negb (Compare x k =? 0)%Z.
Proof.
  intros Hp Hy Hky. apply lookup_lt_Some in Hy as Hlt.
  apply Bool.eq_iff_eq_true.
  rewrite andb_true_iff, negb_true_iff, Z.eqb_neq, !stored_lookup.
  split.
  - intros (i & z & Hz & Hxz). rewrite lookup_removed in Hz by done.
    assert (Hne : ∀ i', v !! i' = Some z → i' ≠ j → Compare x k ≠ 0%Z).
    { intros i' Hz' Hi' Hxk. apply Hi'.
      apply (sorted_pairs_unique v x i' j z y); [done..|].
      by apply (compare_eq_trans x k y). }
    destruct (decide (i < j)).
    + split; [by exists i, z|]. apply (Hne i); [done|lia].
    + split; [by exists (S i), z|]. apply (Hne (S i)); [done|lia].
  - intros [(i & z & Hz & Hxz) Hxk].
    assert (i ≠ j).
    { intros ->. rewrite Hy in Hz. injection Hz as <-. apply Hxk.
      apply (compare_eq_trans x y k); [done|]. by apply compare_eq_sym. }
    destruct (decide (i < j)).
    + exists i, z. rewrite lookup_removed by done.
      by rewrite decide_True.
    + exists (i - 1), z. rewrite lookup_removed by done.
      rewrite decide_False by lia. split; [|done].
      by replace (S (i - 1)) with i by lia.
Qed.

Lemma stored_absent x v k :
  stored Compare k v = false →
  stored Compare x v = stored Compare x v && negb (Compare x k =? 0)%Z.
Proof.
  intros Hk. destruct (stored Compare x v) eqn:Hx; [|done]. simpl.
  symmetry. apply negb_true_iff, Z.eqb_neq. intros Hxk.
  apply stored_lookup in Hx as (i & z & Hz & Hxz).
  assert (stored Compare k v = true); [|congruence].
  apply stored_lookup. exists i, z. split; [done|].
  apply (compare_eq_trans k x z); [|done]. by apply compare_eq_sym.
Qed.
End order_facts.

(** ** [Search] *)

Section search_facts.
Context {T : Type}.
Variable Compare : T → T → Z.
Variable zero : T.
Implicit Types (s : store T) (a : ref) (k : T).

Lemma keys_index_inv a i s x s' n :
  cells s !! a = Some n →
  indexF keysF a i s = Ok (x, s') →
  s' = s ∧ (0 ≤ i < slen (keys n))%Z ∧ arr (keys n) !! Z.to_nat i = Some x.
Proof.
  intros Hn. unfold indexF, getF, bind, load, lift. rewrite Hn. simpl.
  destruct (index (keys n) i) as [y| |] eqn:Hi; try done.
  intros [= <- <-]. split; [done|]. by apply index_inv.
Qed.

Lemma search_matches fuel a k s x found s' :
  search Compare zero fuel a k s = Ok ((x, found), s') →
  s' = s ∧ if found then Compare k x = 0%Z else x = zero.
Proof.
  revert a s. induction fuel as [|fuel IH]; intros a s; [done|]. simpl.
  unfold bind at 1. unfold load at 1.
  destruct (cells s !! a) as [n|] eqn:Hn; [|done].
  destruct (find Compare zero (keys n) k) as [i hit] eqn:Hf.
  apply find_range in Hf as [_ Hhit].
  assert (Hfound : ∀ s1,
            bind (indexF keysF a i) (λ y, ret (y, true)) s = Ok ((x, found), s1) →
            hit = true → s1 = s ∧ if found then Compare k x = 0%Z else x = zero).
  { intros s1 H Hh. unfold bind in H.
    destruct (indexF keysF a i s) as [[z s2]| |] eqn:Hi; try done.
    injection H as <- <- <-.
    apply (keys_index_inv _ _ _ _ _ _ Hn) in Hi as (-> & _ & Hz).
    split; [done|]. destruct (Hhit Hh) as [_ Hc].
    by rewrite nth_lookup, Hz in Hc. }
  destruct (nbase n), hit.
  - intros H. by apply (Hfound s').
  - intros [= <- <- <-]. done.
  - intros H. by apply (Hfound s').
  - unfold bind at 1.
    destruct (indexF childrenF a i s) as [[c s1]| |] eqn:Hc; try done.
    assert (s1 = s) as ->.
    { unfold indexF, getF, bind, load, lift in Hc. rewrite Hn in Hc.
      destruct (fget childrenF n) as [cs| |]; try done. simpl in Hc.
      destruct (index cs i); try done. by injection Hc as <- <-. }
    apply IH.
Qed.
End search_facts.

(** ** Trees that are one leaf *)

Section leaf_trees.
Context {T : Type}.
Variable Compare : T → T → Z.
Variable zero : T.
Variable t : Z.
Hypothesis Hord : ordering Compare.
Implicit Types (s : store T) (a : ref) (k : T) (v : list T).

Lemma leaf_find s a r v n k i found :
  cells s !! a = Some n → node_is t n r (Content v None) →
  increasing Compare v = true →
  find Compare zero (keys n) k = (i, found) →
  (0 ≤ i ≤ Z.of_nat (length v))%Z
  ∧ if found
    then ∃ x, v !! Z.to_nat i = Some x ∧ Compare k x = 0%Z
    else insertion_point Compare v k (Z.to_nat i).
Proof.
  intros Hn [Hr Hb] Hinc Hf. simpl in Hb. unfold keys in Hf.
  destruct (nbase n) as [ks|]; [|done].
  destruct Hb as (Hwf & Hv & Hcap). subst v.
  pose proof (find_range _ _ _ _ _ _ Hf) as [Hi Hhit].
  unfold slen in Hi. rewrite view_length by done. split; [lia|].
  destruct found.
  - destruct (Hhit eq_refl) as [Hlt Hc].
    destruct (lookup_lt_is_Some_2 (view ks) (Z.to_nat i)) as [x Hx].
    { rewrite view_length by done. unfold slen in Hlt. lia. }
    exists x. split; [done|]. by rewrite (view_nth _ _ _ _ Hx) in Hc.
  - by apply (find_sorted Compare zero).
Qed.

Lemma leaf_insertBelowMax fuel s a r v k :
  at_node t s a r (Content v None) → increasing Compare v = true →
  (Z.of_nat (length v) < 2 * t - 1)%Z →
  returns (insertBelowMax Compare zero t (S fuel) a k) s
    (λ _ s',
       ∃ v' (j : nat),
         at_node t s' a r (Content v' None)
         ∧ sorted_pairs Compare v'
         ∧ v' !! j = Some k
         ∧ (if stored Compare k v
            then ∃ x, v !! j = Some x ∧ Compare k x = 0%Z
                      ∧ v' = <[j := k]> v
            else v' = take j v ++ k :: drop j v ∧ j ≤ length v)
         ∧ next s' = next s
         ∧ ∀ y, y ≠ a → cells s' !! y = cells s !! y).
Proof.
  intros Ha Hinc Hlen. simpl.
  pose proof (proj2 (sorted_pairs_increasing Compare Hord v) Hinc) as Hp.
  eapply at_node_load; [exact Ha|]. intros n Hn Hnc.
  destruct (find Compare zero (keys n) k) as [i found] eqn:Hf.
  destruct (leaf_find _ _ _ _ _ _ _ _ Hn Hnc Hinc Hf) as [Hi Hfound].
  destruct Hnc as [Hr Hb]. simpl in Hb.
  destruct (nbase n) as [ks|] eqn:Hbase; [|done].
  destruct found.
  - destruct Hfound as (x & Hx & Hkx).
    assert (Hst : stored Compare k v = true).
    { apply stored_lookup. by exists (Z.to_nat i), x. }
    keys_wr at_set_indexF; [exact Ha|done| |].
    { apply lookup_lt_Some in Hx. sz. }
    intros s1 Ha1 Hnx1 Hfr1. unfold set_ckeys in Ha1. simpl in Ha1.
    exists (<[Z.to_nat i := k]> v), (Z.to_nat i).
    apply lookup_lt_Some in Hx as Hlt.
    split; [done|]. split; [by eapply sorted_pairs_replaced|].
    split; [by apply list_lookup_insert_eq|]. rewrite Hst.
    split; [by exists x|done].
  - assert (Hst : stored Compare k v = false).
    { apply not_true_is_false. intros Hs.
      apply stored_lookup in Hs as (j & x & Hj & Hkx).
      specialize (Hfound j x Hj). destruct (decide (j < Z.to_nat i)); lia. }
    keys_wr at_insertF; [exact Ha|done|sz|sz|].
    intros s1 Ha1 Hnx1 Hfr1. unfold set_ckeys in Ha1. simpl in Ha1.
    exists (take (Z.to_nat i) v ++ k :: drop (Z.to_nat i) v), (Z.to_nat i).
    split; [done|].
    split; [apply sorted_pairs_inserted; [done|lia|done|done]|].
    split.
    { rewrite lookup_inserted by lia.
      rewrite decide_False by lia. by rewrite decide_True. }
    rewrite Hst. split; [|done]. split; [done|lia].
Qed.

Lemma leaf_search fuel s a r v k :
  at_node t s a r (Content v None) → increasing Compare v = true →
  returns (search Compare zero (S fuel) a k) s
    (λ res s',
       s' = s
       ∧ res.2 = stored Compare k v
       ∧ if res.2
         then ∃ j, v !! j = Some res.1 ∧ Compare k res.1 = 0%Z
         else res.1 = zero).
Proof.
  intros Ha Hinc. simpl.
  eapply at_node_load; [exact Ha|]. intros n Hn Hnc.
  destruct (find Compare zero (keys n) k) as [i found] eqn:Hf.
  destruct (leaf_find _ _ _ _ _ _ _ _ Hn Hnc Hinc Hf) as [Hi Hfound].
  destruct Hnc as [Hr Hb]. simpl in Hb.
  destruct (nbase n) as [ks|] eqn:Hbase; [|done].
  destruct found.
  - destruct Hfound as (x & Hx & Hkx).
    apply returns_bind. keys_rd at_indexF; [exact Ha|done|lia|exact Hx|].
    apply returns_ret. simpl. split; [done|]. split.
    + symmetry. apply (stored_lookup Compare). by exists (Z.to_nat i), x.
    + by exists (Z.to_nat i).
  - apply returns_ret. simpl. split; [done|]. split; [|done].
    symmetry. apply not_true_is_false. intros Hs.
    apply (stored_lookup Compare) in Hs as (j & x & Hj & Hkx).
    specialize (Hfound j x Hj). destruct (decide (j < Z.to_nat i)); lia.
Qed.

Lemma leaf_remove fuel s a r v k :
  at_node t s a r (Content v None) → increasing Compare v = true →
  returns (remove Compare zero t (S fuel) a k) s
    (λ _ s',
       ∃ v',
         at_node t s' a r (Content v' None)
         ∧ sorted_pairs Compare v'
         ∧ stored Compare k v' = false
         ∧ (if stored Compare k v
            then ∃ j x, v !! j = Some x ∧ Compare k x = 0%Z
                        ∧ v' = take j v ++ drop (S j) v
            else v' = v)
         ∧ next s' = next s
         ∧ ∀ y, y ≠ a → cells s' !! y = cells s !! y).
Proof.
  intros Ha Hinc. simpl.
  pose proof (proj2 (sorted_pairs_increasing Compare Hord v) Hinc) as Hp.
  eapply at_node_load; [exact Ha|]. intros n Hn Hnc.
  destruct (find Compare zero (keys n) k) as [i found] eqn:Hf.
  destruct (leaf_find _ _ _ _ _ _ _ _ Hn Hnc Hinc Hf) as [Hi Hfound].
  destruct Hnc as [Hr Hb]. simpl in Hb.
  destruct (nbase n) as [ks|] eqn:Hbase; [|done].
  destruct found.
  - destruct Hfound as (x & Hx & Hkx).
    assert (Hst : stored Compare k v = true).
    { apply (stored_lookup Compare). by exists (Z.to_nat i), x. }
    apply lookup_lt_Some in Hx as Hlt.
    apply returns_bind. keys_wr at_removeF; [exact Ha|done|lia|exact Hx|].
    intros s1 Ha1 Hnx1 Hfr1. unfold set_ckeys in Ha1. simpl in Ha1.
    apply returns_ret.
    exists (take (Z.to_nat i) v ++ drop (S (Z.to_nat i)) v).
    split; [done|]. split; [by apply sorted_pairs_removed|].
    split.
    { apply not_true_is_false. intros Hs.
      apply (stored_lookup Compare) in Hs as (j & y & Hj & Hky).
      rewrite lookup_removed in Hj by done.
      destruct (decide (j < Z.to_nat i)).
      - pose proof (sorted_pairs_unique Compare Hord v k _ _ _ _ Hp Hj Hx Hky Hkx).
        lia.
      - pose proof (sorted_pairs_unique Compare Hord v k _ _ _ _ Hp Hj Hx Hky Hkx).
        lia. }
    rewrite Hst. split; [|done]. by exists (Z.to_nat i), x.
  - assert (Hst : stored Compare k v = false).
    { apply not_true_is_false. intros Hs.
      apply (stored_lookup Compare) in Hs as (j & x & Hj & Hkx).
      specialize (Hfound j x Hj). destruct (decide (j < Z.to_nat i)); lia. }
    apply returns_ret. exists v. rewrite Hst. done.
Qed.

Lemma leaf_tree_Insert (b : BTree) s v k :
  (root b < next s)%N →
  at_node t s (root b) rootRole (Content v None) →
  increasing Compare v = true → (Z.of_nat (length v) < 2 * t - 1)%Z →
  returns (Insert Compare zero t b k) s
    (λ b' s',
       b' = b
       ∧ ∃ v' (j : nat),
           at_node t s' (root b) rootRole (Content v' None)
           ∧ sorted_pairs Compare v'
           ∧ v' !! j = Some k
           ∧ (if stored Compare k v
              then ∃ x, v !! j = Some x ∧ Compare k x = 0%Z
                        ∧ v' = <[j := k]> v
              else v' = take j v ++ k :: drop j v ∧ j ≤ length v)
           ∧ next s' = next s).
Proof.
  intros Hroot Ha Hinc Hlen.
  unfold Insert. apply returns_bind.
  eapply returns_isBelowMax; [exact Ha|]. cbn [ckeys].
  destruct (Z.ltb_spec (Z.of_nat (length v)) (2 * t - 1)) as [_|?]; [|lia].
  simpl. apply returns_bind, returns_ret.
  apply returns_bind, returns_depth_bound.
  destruct (N.to_nat (next s)) as [|fuel] eqn:Hfuel; [lia|].
  apply returns_bind.
  eapply returns_mono; [by apply (leaf_insertBelowMax fuel s (root b))|].
  intros [] s1 (v' & j & H1 & H2 & H3 & H4 & H5 & _).
  apply returns_ret. split; [done|]. by exists v', j.
Qed.

Lemma leaf_tree_Remove (b : BTree) s v k :
  (root b < next s)%N →
  at_node t s (root b) rootRole (Content v None) →
  increasing Compare v = true →
  returns (Remove Compare zero t b k) s
    (λ b' s',
       ∃ v',
         at_node t s' (root b') rootRole (Content v' None)
         ∧ sorted_pairs Compare v'
         ∧ stored Compare k v' = false
         ∧ (if stored Compare k v
            then ∃ j x, v !! j = Some x ∧ Compare k x = 0%Z
                        ∧ v' = take j v ++ drop (S j) v
            else v' = v)
         ∧ (root b' < next s')%N).
Proof.
  intros Hroot Ha Hinc.
  unfold Remove. apply returns_bind, returns_depth_bound.
  destruct (N.to_nat (next s)) as [|fuel] eqn:Hfuel; [lia|].
  apply returns_bind.
  eapply returns_mono; [by apply (leaf_remove fuel s (root b))|].
  intros [] s1 (v' & H1 & H2 & H3 & H4 & H5 & _).
  apply returns_bind. eapply returns_isAboveMin; [exact H1|]. cbn [ckeys].
  destruct (0 <? Z.of_nat (length v'))%Z; simpl.
  - apply returns_ret. exists v'. repeat (split; [done|]). lia.
  - apply returns_bind. unfold shrink.
    destruct H1 as (n & Hn & Hr & Hb). simpl in Hb.
    apply returns_bind. eapply returns_load; [done|].
    destruct (nbase n) as [ks|] eqn:Hbase; [|done].
    apply returns_alloc, returns_ret. exists v'. simpl.
    split; [|repeat (split; [done|]); lia].
    exists n. simpl. rewrite lookup_insert_eq. split; [done|].
    split; [done|]. simpl. by rewrite Hbase.
Qed.

Lemma leaf_tree_Search (b : BTree) s v k :
  (root b < next s)%N →
  at_node t s (root b) rootRole (Content v None) →
  increasing Compare v = true →
  ∃ x, Search Compare zero b k s = Ok ((x, stored Compare k v), s)
       ∧ if stored Compare k v
         then ∃ j, v !! j = Some x ∧ Compare k x = 0%Z
         else x = zero.
Proof.
  intros Hroot Ha Hinc.
  unfold Search. unfold bind at 1. unfold depth_bound.
  destruct (N.to_nat (next s)) as [|fuel] eqn:Hfuel; [lia|].
  destruct (leaf_search fuel s (root b) rootRole v k Ha Hinc)
    as ([x found] & s2 & Hs & -> & Hfound & Hx).
  simpl in Hfound, Hx. subst found. by exists x.
Qed.
End leaf_trees.

(** ** [Search], [Insert] and [Remove] on small trees *)

(** X6.  [Search] only reads: it leaves the store as it was.  A key it
    reports as found compares equal to the key looked for, and when it
    reports none it returns the zero value. *)
Theorem Search_returns_a_match {T} (Compare : T → T → Z) (zero : T)
    (b : BTree) (k : T) (s : store T) (x : T) (found : bool) (s' : store T) :
  Search Compare zero b k s = Ok ((x, found), s') →
  s' = s ∧ if found then Compare k x = 0%Z else x = zero.
Proof. unfold Search, bind, depth_bound. apply search_matches. Qed.

Lemma Search_returns_a_match_witness :
  Grown.levels3.2 = Grown.levels3.2
  ∧ KV.Compare (KV.key 7) (KV.key 7) = 0%Z.
Proof.
  apply (Search_returns_a_match KV.Compare KV.zero Grown.levels3.1 (KV.key 7)
           Grown.levels3.2 (KV.key 7) true Grown.levels3.2).
  vm_compute. reflexivity.
Defined.

(** X7.  A tree that is one sorted leaf with room left: [Insert(k)]
    keeps the leaf sorted, adds [k] to the keys stored (one key more
    when no equal key was stored, the same number when one was, which
    [k] then replaces), and [Search(k)] afterwards returns [k]
    itself. *)
Theorem insert_into_leaf_tree {T} (Compare : T → T → Z) (zero : T) (t : Z)
    (b : BTree) (s : store T) (v : list T) (k : T) :
  ordering Compare → (root b < next s)%N →
  at_node t s (root b) rootRole (Content v None) →
  increasing Compare v = true → (Z.of_nat (length v) < 2 * t - 1)%Z →
  ∃ s' v',
    Insert Compare zero t b k s = Ok (b, s')
    ∧ at_node t s' (root b) rootRole (Content v' None)
    ∧ increasing Compare v' = true
    ∧ length v' = (if stored Compare k v then length v else S (length v))
    ∧ (∀ x, stored Compare x v'
            = stored Compare x v || (Compare x k =? 0)%Z)
    ∧ Search Compare zero b k s' = Ok ((k, true), s').
Proof.
  intros Hord Hroot Ha Hinc Hlen.
  pose proof (leaf_tree_Insert Compare zero t Hord b s v k Hroot Ha Hinc Hlen)
    as Hins.
  destruct Hins as (b' & s' & Hrun & -> & v' & j & Ha' & Hp & Hj & Hv' & Hnx).
  exists s', v'. split; [done|]. split; [done|].
  assert (Hinc' : increasing Compare v' = true)
    by (by apply sorted_pairs_increasing).
  split; [done|]. split; [|split].
  - destruct (stored Compare k v).
    + destruct Hv' as (x & _ & _ & ->). by rewrite length_insert.
    + destruct Hv' as [-> Hle]. rewrite length_app, length_take. simpl.
      rewrite length_drop. lia.
  - intros x. destruct (stored Compare k v).
    + destruct Hv' as (y & Hy & Hky & ->). by apply (stored_replaced Compare Hord x v k j y).
    + destruct Hv' as [-> _]. apply stored_inserted.
  - destruct (leaf_tree_Search Compare zero t Hord b s' v' k) as (x & Hs & Hx);
      [lia|done|done|].
    assert (Hst : stored Compare k v' = true).
    { apply stored_lookup. exists j, k. split; [done|].
      by apply compare_refl. }
    rewrite Hst in Hs, Hx. destruct Hx as (j' & Hj' & Hkx).
    assert (j' = j).
    { apply (sorted_pairs_unique Compare Hord v' k j' j x k); try done.
      by apply compare_refl. }
    subst j'. rewrite Hj in Hj'. by injection Hj' as <-.
Qed.

Ltac concrete_node :=
  eexists; split;
  [vm_compute; reflexivity
  |split; [reflexivity|vm_compute; repeat split; (lia || reflexivity)]].

Lemma insert_into_leaf_tree_witness :
  ∃ s' v',
    Insert KV.Compare KV.zero 2 Grown.leaf2.1 (2, 7)%Z Grown.leaf2.2
    = Ok (Grown.leaf2.1, s')
    ∧ at_node 2 s' (root Grown.leaf2.1) rootRole (Content v' None)
    ∧ increasing KV.Compare v' = true
    ∧ length v'
      = (if stored KV.Compare (2, 7)%Z [KV.key 1; KV.key 2]
         then length [KV.key 1; KV.key 2]
         else S (length [KV.key 1; KV.key 2]))
    ∧ (∀ x, stored KV.Compare x v'
            = stored KV.Compare x [KV.key 1; KV.key 2]
              || (KV.Compare x (2, 7) =? 0)%Z)
    ∧ Search KV.Compare KV.zero Grown.leaf2.1 (2, 7)%Z s'
      = Ok (((2, 7)%Z, true), s').
Proof.
  apply (insert_into_leaf_tree KV.Compare KV.zero 2 Grown.leaf2.1
           Grown.leaf2.2 [KV.key 1; KV.key 2] (2, 7)%Z).
  - exact KV_ordering.
  - vm_compute. reflexivity.
  - concrete_node.
  - reflexivity.
  - simpl. lia.
Defined.

(** X8.  A tree that is one sorted leaf: [Remove(k)] takes out the key
    equal to [k] when there is one and changes nothing otherwise, the
    leaf stays sorted, every other key stays stored, and [Search(k)]
    afterwards reports no match.  The root is still a leaf, also when
    no key is left. *)
Theorem remove_from_leaf_tree {T} (Compare : T → T → Z) (zero : T) (t : Z)
    (b : BTree) (s : store T) (v : list T) (k : T) :
  ordering Compare → (root b < next s)%N →
  at_node t s (root b) rootRole (Content v None) →
  increasing Compare v = true →
  ∃ b' s' v',
    Remove Compare zero t b k s = Ok (b', s')
    ∧ at_node t s' (root b') rootRole (Content v' None)
    ∧ increasing Compare v' = true
    ∧ length v' = (if stored Compare k v then length v - 1 else length v)
    ∧ (∀ x, stored Compare x v'
            = stored Compare x v && negb (Compare x k =? 0)%Z)
    ∧ Search Compare zero b' k s' = Ok ((zero, false), s').
Proof.
  intros Hord Hroot Ha Hinc.
  pose proof (proj2 (sorted_pairs_increasing Compare Hord v) Hinc) as Hpv.
  pose proof (leaf_tree_Remove Compare zero t Hord b s v k Hroot Ha Hinc)
    as Hrem.
  destruct Hrem as (b' & s' & Hrun & v' & Ha' & Hp & Hk & Hv' & Hroot').
  exists b', s', v'. split; [done|]. split; [done|].
  assert (Hinc' : increasing Compare v' = true)
    by (by apply sorted_pairs_increasing).
  split; [done|]. split; [|split].
  - destruct (stored Compare k v).
    + destruct Hv' as (j & x & Hx & _ & ->). apply lookup_lt_Some in Hx.
      rewrite length_app, length_take, length_drop. lia.
    + by subst v'.
  - intros x. destruct (stored Compare k v) eqn:Hst.
    + destruct Hv' as (j & y & Hy & Hky & ->).
      by apply (stored_removed Compare Hord x v k j y).
    + subst v'. by apply stored_absent.
  - destruct (leaf_tree_Search Compare zero t Hord b' s' v' k)
      as (x & Hs & Hx); [done..|].
    rewrite Hk in Hs, Hx. by subst x.
Qed.

Lemma remove_from_leaf_tree_witness :
  ∃ b' s' v',
    Remove KV.Compare KV.zero 2 Grown.leaf2.1 (KV.key 1) Grown.leaf2.2
    = Ok (b', s')
    ∧ at_node 2 s' (root b') rootRole (Content v' None)
    ∧ increasing KV.Compare v' = true
    ∧ length v'
      = (if stored KV.Compare (KV.key 1) [KV.key 1; KV.key 2]
         then length [KV.key 1; KV.key 2] - 1
         else length [KV.key 1; KV.key 2])
    ∧ (∀ x, stored KV.Compare x v'
            = stored KV.Compare x [KV.key 1; KV.key 2]
              && negb (KV.Compare x (KV.key 1) =? 0)%Z)
    ∧ Search KV.Compare KV.zero b' (KV.key 1) s' = Ok ((KV.zero, false), s').
Proof.
  apply (remove_from_leaf_tree KV.Compare KV.zero 2 Grown.leaf2.1
           Grown.leaf2.2 [KV.key 1; KV.key 2] (KV.key 1)).
  - exact KV_ordering.
  - vm_compute. reflexivity.
  - concrete_node.
  - reflexivity.
Defined.

(** ** Full nodes *)

(** X9.  [split] on a node with [2t - 1] keys (and [2t] children when it
    is internal) returns the key in the middle and a new child node.
    The node keeps the [t - 1] keys before the middle one and the first
    [t] children; the new node gets the [t - 1] keys after it and the
    other [t] children.  No other object changes. *)
Theorem split_halves_full_node {T} (zero : T) (t : Z) (s : store T)
    (a : ref) (c : content) :
  at_node t s a childRole c → (a < next s)%N → (1 ≤ t)%Z →
  Z.of_nat (length (ckeys c)) = (2 * t - 1)%Z →
  (∀ cv, cchildren c = Some cv → Z.of_nat (length cv) = (2 * t)%Z) →
  ∃ median s',
    split zero t a s = Ok ((median, next s), s')
    ∧ ckeys c = take (Z.to_nat (t - 1)) (ckeys c)
                ++ median :: drop (Z.to_nat t) (ckeys c)
    ∧ Z.of_nat (length (take (Z.to_nat (t - 1)) (ckeys c))) = (t - 1)%Z
    ∧ Z.of_nat (length (drop (Z.to_nat t) (ckeys c))) = (t - 1)%Z
    ∧ at_node t s' a childRole
        (Content (take (Z.to_nat (t - 1)) (ckeys c))
                 (take (Z.to_nat t) <$> cchildren c))
    ∧ at_node t s' (next s) childRole
        (Content (drop (Z.to_nat t) (ckeys c))
                 (drop (Z.to_nat t) <$> cchildren c))
    ∧ next s' = N.succ (next s)
    ∧ ∀ y, y ≠ a → y ≠ next s → cells s' !! y = cells s !! y.
Proof.
  intros (n & Hn & Hc) Ha Ht Hlen Hclen.
  destruct (split_spec zero t s a n childRole c Hn Hc Ha Ht Hlen Hclen)
    as ([m sib] & s' & Hrun & median & [= -> ->] & Hmed & H1 & H2 & H3 & H4).
  exists median, s'. split; [done|]. split; [|split; [|split]]; [| | |done].
  - rewrite <- (take_drop_middle _ _ _ Hmed) at 1.
    by replace (S (Z.to_nat (t - 1))) with (Z.to_nat t) by lia.
  - rewrite length_take. lia.
  - rewrite length_drop. lia.
Qed.

Lemma split_halves_full_node_witness :
  ∃ median s',
    split KV.zero 2 4%N Grown.full_child.2
    = Ok ((median, next Grown.full_child.2), s')
    ∧ [KV.key 3; KV.key 4; KV.key 5]
      = take (Z.to_nat (2 - 1)) [KV.key 3; KV.key 4; KV.key 5]
        ++ median :: drop (Z.to_nat 2) [KV.key 3; KV.key 4; KV.key 5]
    ∧ Z.of_nat (length (take (Z.to_nat (2 - 1))
                          [KV.key 3; KV.key 4; KV.key 5])) = (2 - 1)%Z
    ∧ Z.of_nat (length (drop (Z.to_nat 2)
                          [KV.key 3; KV.key 4; KV.key 5])) = (2 - 1)%Z
    ∧ at_node 2 s' 4%N childRole
        (Content (take (Z.to_nat (2 - 1)) [KV.key 3; KV.key 4; KV.key 5])
                 (take (Z.to_nat 2) <$> None))
    ∧ at_node 2 s' (next Grown.full_child.2) childRole
        (Content (drop (Z.to_nat 2) [KV.key 3; KV.key 4; KV.key 5])
                 (drop (Z.to_nat 2) <$> None))
    ∧ next s' = N.succ (next Grown.full_child.2)
    ∧ ∀ y, y ≠ 4%N → y ≠ next Grown.full_child.2 →
           cells s' !! y = cells Grown.full_child.2 !! y.
Proof.
  apply (split_halves_full_node KV.zero 2 Grown.full_child.2 4%N
           (Content [KV.key 3; KV.key 4; KV.key 5] None)).
  - concrete_node.
  - vm_compute. reflexivity.
  - lia.
  - reflexivity.
  - intros cv H. discriminate H.
Defined.

(** X10.  [Insert] into a tree whose root holds [2t - 1] keys first puts
    a new root above it: the new root holds one key, the middle key of
    the old root, and two children, a copy of the old root cut down to
    its first [t - 1] keys and a new node with its last [t - 1] keys.
    Every chain of children from the root to a leaf gets one step
    longer.  The key is then inserted below the new root. *)
Theorem full_root_grows {T} (Compare : T → T → Z) (zero : T) (t : Z)
    (cs : list call) (b : BTree) (s : store T) (c : content) (k : T) :
  run Compare zero t cs = Ok (b, s) →
  at_node t s (root b) rootRole c → (1 ≤ t)%Z →
  Z.of_nat (length (ckeys c)) = (2 * t - 1)%Z →
  (∀ cv, cchildren c = Some cv → Z.of_nat (length cv) = (2 * t)%Z) →
  ∃ b' s' median,
    growRoot zero t b s = Ok (b', s')
    ∧ Insert Compare zero t b k s
      = bind (insertBelowMax Compare zero t (N.to_nat (next s')) (root b') k)
             (λ _, ret b') s'
    ∧ ckeys c !! Z.to_nat (t - 1) = Some median
    ∧ at_node t s' (root b') rootRole
        (Content [median] (Some [next s; N.succ (N.succ (next s))]))
    ∧ at_node t s' (next s) childRole
        (Content (take (Z.to_nat (t - 1)) (ckeys c))
                 (take (Z.to_nat t) <$> cchildren c))
    ∧ at_node t s' (N.succ (N.succ (next s))) childRole
        (Content (drop (Z.to_nat t) (ckeys c))
                 (drop (Z.to_nat t) <$> cchildren c))
    ∧ (∀ y, (y < next s)%N → cells s' !! y = cells s !! y)
    ∧ ∀ d, leaf_at (cells s') (root b') d
           ↔ ∃ d0, d = S d0 ∧ leaf_at (cells s) (root b) d0.
Proof.
  intros Hrun Ha Ht Hlen Hclen.
  destruct (run_tree_ok _ _ _ _ _ _ Hrun) as (lvl & Hs & [nr Hnr]).
  destruct (Hs _ _ Hnr) as (Hroot & _ & _).
  destruct (growRoot_spec zero t s b rootRole c Ha) as
    (b' & s' & Hgrow & median & Hmed & Hb' & Htop & Hleft & Hright & Hnx & Hfr);
    [lia|done..|].
  exists b', s', median. split; [done|]. split.
  { unfold Insert. unfold bind at 1.
    destruct Ha as (n & Hn & Hc).
    unfold isBelowMax, bind, load, ret. rewrite Hn.
    rewrite (holds_slen _ _ _ (node_is_keys t _ _ _ Hc)).
    destruct (Z.ltb_spec (Z.of_nat (length (ckeys c))) (2 * t - 1)); [lia|].
    simpl. by rewrite Hgrow. }
  repeat (split; [done|]). intros d. rewrite Hb'.
  rewrite Hb' in Htop.
  apply (grown_chains t lvl s s' (root b) (N.succ (next s))
           (N.succ (N.succ (next s))) rootRole c median);
    [done|done|lia|done..].
Qed.

Lemma full_root_grows_witness :
  ∃ b' s' median,
    growRoot KV.zero 2 Grown.leaf3.1 Grown.leaf3.2 = Ok (b', s')
    ∧ Insert KV.Compare KV.zero 2 Grown.leaf3.1 (KV.key 4) Grown.leaf3.2
      = bind (insertBelowMax KV.Compare KV.zero 2 (N.to_nat (next s'))
                (root b') (KV.key 4))
             (λ _, ret b') s'
    ∧ [KV.key 1; KV.key 2; KV.key 3] !! Z.to_nat (2 - 1) = Some median
    ∧ at_node 2 s' (root b') rootRole
        (Content [median]
           (Some [next Grown.leaf3.2; N.succ (N.succ (next Grown.leaf3.2))]))
    ∧ at_node 2 s' (next Grown.leaf3.2) childRole
        (Content (take (Z.to_nat (2 - 1)) [KV.key 1; KV.key 2; KV.key 3])
                 (take (Z.to_nat 2) <$> None))
    ∧ at_node 2 s' (N.succ (N.succ (next Grown.leaf3.2))) childRole
        (Content (drop (Z.to_nat 2) [KV.key 1; KV.key 2; KV.key 3])
                 (drop (Z.to_nat 2) <$> None))
    ∧ (∀ y, (y < next Grown.leaf3.2)%N →
            cells s' !! y = cells Grown.leaf3.2 !! y)
    ∧ ∀ d, leaf_at (cells s') (root b') d
           ↔ ∃ d0, d = S d0
                   ∧ leaf_at (cells Grown.leaf3.2) (root Grown.leaf3.1) d0.
Proof.
  apply (full_root_grows KV.Compare KV.zero 2 (KV.ascending 1 3)
           Grown.leaf3.1 Grown.leaf3.2
           (Content [KV.key 1; KV.key 2; KV.key 3] None) (KV.key 4)).
  - vm_compute. reflexivity.
  - concrete_node.
  - lia.
  - reflexivity.
  - intros cv H. discriminate H.
Defined.

(** X11.  [insertBelowMax] on an internal node never descends into a full
    child.  When the key is not among the keys of the node and the child
    at the index that [find] gives holds [2t - 1] keys, the child is
    split first: its middle key goes into the node at that index, the
    new sibling becomes the next child, and the insertion goes on in the
    sibling when the key is greater than the middle key and in the child
    otherwise. *)
Theorem full_child_split_before_descent {T} (Compare : T → T → Z) (zero : T)
    (t : Z) (fuel : nat) (s : store T) (a : ref) (n : node T) (r : role)
    (ka : list T) (cv : list ref) (k : T) (i : Z) (child : ref)
    (cc : content) :
  cells s !! a = Some n → node_is t n r (Content ka (Some cv)) →
  find Compare zero (keys n) k = (i, false) →
  cv !! Z.to_nat i = Some child → child ≠ a →
  (a < next s)%N → (child < next s)%N →
  at_node t s child childRole cc → (1 ≤ t)%Z →
  Z.of_nat (length (ckeys cc)) = (2 * t - 1)%Z →
  (∀ v, cchildren cc = Some v → Z.of_nat (length v) = (2 * t)%Z) →
  (Z.of_nat (length ka) < 2 * t - 1)%Z → (Z.of_nat (length cv) < 2 * t)%Z →
  ∃ median s1,
    ckeys cc !! Z.to_nat (t - 1) = Some median
    ∧ insertBelowMax Compare zero t (S fuel) a k s
      = insertBelowMax Compare zero t fuel
          (if (0 <? Compare k median)%Z then next s else child) k s1
    ∧ at_node t s1 a r
        (Content (take (Z.to_nat i) ka ++ median :: drop (Z.to_nat i) ka)
           (Some (take (Z.to_nat (i + 1)) cv
                  ++ next s :: drop (Z.to_nat (i + 1)) cv)))
    ∧ at_node t s1 child childRole
        (Content (take (Z.to_nat (t - 1)) (ckeys cc))
                 (take (Z.to_nat t) <$> cchildren cc))
    ∧ at_node t s1 (next s) childRole
        (Content (drop (Z.to_nat t) (ckeys cc))
                 (drop (Z.to_nat t) <$> cchildren cc))
    ∧ ∀ y, y ≠ a → y ≠ child → y ≠ next s → cells s1 !! y = cells s !! y.
Proof.
  intros Hn Hc Hf Hchild Hne Ha Hlt Hcc Ht Hfull Hcfull Hka Hcv.
  pose proof (find_range _ _ _ _ _ _ Hf) as [Hi _].
  rewrite (holds_slen _ _ _ (node_is_keys t _ _ _ Hc)) in Hi.
  cbn [ckeys] in Hi.
  assert (Hat : at_node t s a r (Content ka (Some cv))) by (by exists n).
  apply lookup_lt_Some in Hchild as Hilt.
  destruct (lookup_lt_is_Some_2 (ckeys cc) (Z.to_nat (t - 1))) as [median Hmed];
    [lia|].
  exists median.
  assert (Hgoal : leads_to (insertBelowMax Compare zero t (S fuel) a k) s
            (insertBelowMax Compare zero t fuel
               (if (0 <? Compare k median)%Z then next s else child) k)
            (λ s1,
               at_node t s1 a r
                 (Content (take (Z.to_nat i) ka ++ median :: drop (Z.to_nat i) ka)
                    (Some (take (Z.to_nat (i + 1)) cv
                           ++ next s :: drop (Z.to_nat (i + 1)) cv)))
               ∧ at_node t s1 child childRole
                   (Content (take (Z.to_nat (t - 1)) (ckeys cc))
                            (take (Z.to_nat t) <$> cchildren cc))
               ∧ at_node t s1 (next s) childRole
                   (Content (drop (Z.to_nat t) (ckeys cc))
                            (drop (Z.to_nat t) <$> cchildren cc))
               ∧ ∀ y, y ≠ a → y ≠ child → y ≠ next s →
                      cells s1 !! y = cells s !! y)).
  { simpl. apply leads_bind. eapply returns_load; [exact Hn|].
    rewrite Hf. destruct Hc as [Hr Hb]. simpl in Hb.
    destruct (nbase n) as [|ks cs0] eqn:Hbase; [done|].
    assert (Hc : node_is t n r (Content ka (Some cv))).
    { split; [done|]. simpl. by rewrite Hbase. }
    apply leads_bind.
    children_rd at_indexF; [exact Hat|done|lia|exact Hchild|].
    apply leads_bind. eapply returns_isBelowMax; [exact Hcc|].
    destruct (Z.ltb_spec (Z.of_nat (length (ckeys cc))) (2 * t - 1)); [lia|].
    simpl. apply leads_bind.
    destruct Hcc as (nc & Hnc & Hncc).
    eapply returns_mono;
      [apply (split_spec zero t s child nc childRole cc); done|].
    intros [m sib] s3 (median' & [= -> ->] & Hmed' & Hc3 & Hsib3 & Hnx3 & Hfr3).
    rewrite Hmed in Hmed'. injection Hmed' as <-.
    assert (Hat3 : at_node t s3 a r (Content ka (Some cv))).
    { eapply at_node_frame; [exact Hat|]. apply Hfr3; [done|lia]. }
    apply leads_bind. keys_wr at_insertF; [exact Hat3|done|sz|sz|].
    intros s4 H4 Hnx4 Hfr4. unfold set_ckeys in H4. cbn [ckeys cchildren] in H4.
    apply leads_bind. children_wr at_insertF; [exact H4|done|sz|sz|].
    intros s5 H5 Hnx5 Hfr5. unfold set_cchildren in H5.
    cbn [ckeys cchildren] in H5.
    apply leads_bind. keys_rd at_indexF; [exact H5|done|lia| |].
    { cbn [ckeys]. rewrite lookup_app_r by (rewrite length_take; lia).
      rewrite length_take, Nat.min_l by lia. by rewrite Nat.sub_diag. }
    assert (Hrest : ∀ y, y ≠ a → cells s5 !! y = cells s3 !! y).
    { intros y Hy. by rewrite Hfr5, Hfr4. }
    assert (HD : at_node t s5 child childRole
                   (Content (take (Z.to_nat (t - 1)) (ckeys cc))
                            (take (Z.to_nat t) <$> cchildren cc))
                 ∧ at_node t s5 (next s) childRole
                     (Content (drop (Z.to_nat t) (ckeys cc))
                              (drop (Z.to_nat t) <$> cchildren cc))
                 ∧ ∀ y, y ≠ a → y ≠ child → y ≠ next s →
                        cells s5 !! y = cells s !! y).
    { split; [|split].
      - eapply at_node_frame; [exact Hc3|]. by apply Hrest.
      - eapply at_node_frame; [exact Hsib3|]. apply Hrest. lia.
      - intros y Hya Hyc Hys. rewrite Hrest by done. by apply Hfr3. }
    destruct (0 <? Compare k median)%Z; by apply leads_here. }
  destruct Hgoal as (s1 & Heq & HD). exists s1. by split.
Qed.

Lemma full_child_split_before_descent_witness :
  ∃ median s1,
    [KV.key 3; KV.key 4; KV.key 5] !! Z.to_nat (2 - 1) = Some median
    ∧ insertBelowMax KV.Compare KV.zero 2 2 3%N (KV.key 6) Grown.full_child.2
      = insertBelowMax KV.Compare KV.zero 2 1
          (if (0 <? KV.Compare (KV.key 6) median)%Z
           then next Grown.full_child.2 else 4%N) (KV.key 6) s1
    ∧ at_node 2 s1 3%N rootRole
        (Content (take (Z.to_nat 1) [KV.key 2]
                  ++ median :: drop (Z.to_nat 1) [KV.key 2])
           (Some (take (Z.to_nat (1 + 1)) [2%N; 4%N]
                  ++ next Grown.full_child.2
                     :: drop (Z.to_nat (1 + 1)) [2%N; 4%N])))
    ∧ at_node 2 s1 4%N childRole
        (Content (take (Z.to_nat (2 - 1)) [KV.key 3; KV.key 4; KV.key 5])
                 (take (Z.to_nat 2) <$> None))
    ∧ at_node 2 s1 (next Grown.full_child.2) childRole
        (Content (drop (Z.to_nat 2) [KV.key 3; KV.key 4; KV.key 5])
                 (drop (Z.to_nat 2) <$> None))
    ∧ ∀ y, y ≠ 3%N → y ≠ 4%N → y ≠ next Grown.full_child.2 →
           cells s1 !! y = cells Grown.full_child.2 !! y.
Proof.
  eapply (full_child_split_before_descent KV.Compare KV.zero 2 1
            Grown.full_child.2 3%N _ rootRole [KV.key 2] [2%N; 4%N] (KV.key 6)
            1 4%N (Content [KV.key 3; KV.key 4; KV.key 5] None)).
  - vm_compute. reflexivity.
  - split; [reflexivity|vm_compute; repeat split; (lia || reflexivity)].
  - vm_compute. reflexivity.
  - reflexivity.
  - lia.
  - vm_compute. reflexivity.
  - vm_compute. reflexivity.
  - concrete_node.
  - lia.
  - reflexivity.
  - intros v H. discriminate H.
  - simpl. lia.
  - simpl. lia.
Defined.

(** ** Siblings *)

(** X12.  [merge] appends the separating key and then all keys of the
    sibling to the keys of the node, and the children of the sibling to
    its children; the sibling is left empty.  The two nodes must be of
    one kind and the result must fit the capacity.  No other object
    changes. *)
Theorem merge_joins_siblings {T} (t : Z) (s : store T) (a m : ref)
    (ka : list T) (ca : option (list ref)) (km : list T)
    (cm : option (list ref)) (median : T) :
  a ≠ m →
  at_node t s a childRole (Content ka ca) →
  at_node t s m childRole (Content km cm) →
  (is_Some ca ↔ is_Some cm) →
  (Z.of_nat (length ka + 1 + length km) ≤ 2 * t - 1)%Z →
  (∀ va vm, ca = Some va → cm = Some vm →
            (Z.of_nat (length va + length vm) ≤ 2 * t)%Z) →
  ∃ s',
    merge a median m s = Ok (tt, s')
    ∧ at_node t s' a childRole (Content (ka ++ median :: km) (joined ca cm))
    ∧ at_node t s' m childRole (Content [] ((λ _, []) <$> cm))
    ∧ next s' = next s
    ∧ ∀ y, y ≠ a → y ≠ m → cells s' !! y = cells s !! y.
Proof.
  intros Hne Ha Hm Hkind Hk Hc.
  destruct (merge_spec t s a m childRole ka ca km cm median Hne Ha Hm Hkind Hk Hc)
    as ([] & s' & Hrun & H).
  by exists s'.
Qed.

Lemma merge_joins_siblings_witness :
  ∃ s',
    merge 2%N (KV.key 2) 4%N Grown.two_leaves.2 = Ok (tt, s')
    ∧ at_node 2 s' 2%N childRole
        (Content ([KV.key 1] ++ KV.key 2 :: [KV.key 3]) (joined None None))
    ∧ at_node 2 s' 4%N childRole (Content [] ((λ _, []) <$> (None : option (list N))))
    ∧ next s' = next Grown.two_leaves.2
    ∧ ∀ y, y ≠ 2%N → y ≠ 4%N →
           cells s' !! y = cells Grown.two_leaves.2 !! y.
Proof.
  apply (merge_joins_siblings 2 Grown.two_leaves.2 2%N 4%N
           [KV.key 1] None [KV.key 3] None (KV.key 2)).
  - lia.
  - concrete_node.
  - concrete_node.
  - done.
  - simpl. lia.
  - intros va vm H. discriminate H.
Defined.

(** X13.  [shuffleLeft] moves one key from the right sibling through the
    parent: the key handed in is appended to the keys of the node, the
    first key of the sibling is removed and returned, and for internal
    nodes the first child of the sibling becomes the last child of the
    node. *)
Theorem shuffleLeft_borrows_from_right {T} (t : Z) (s : store T) (a m : ref)
    (ka : list T) (ca : option (list ref)) (km : list T)
    (cm : option (list ref)) (stolen x : T) :
  a ≠ m →
  at_node t s a childRole (Content ka ca) →
  at_node t s m childRole (Content km cm) →
  (is_Some ca ↔ is_Some cm) →
  (Z.of_nat (length ka) < 2 * t - 1)%Z →
  km !! 0 = Some x →
  (∀ va vm, ca = Some va → cm = Some vm →
            (Z.of_nat (length va) < 2 * t)%Z ∧ vm ≠ []) →
  ∃ s',
    shuffleLeft a stolen m s = Ok (x, s')
    ∧ at_node t s' a childRole
        (Content (ka ++ [stolen]) (joined ca (take 1 <$> cm)))
    ∧ at_node t s' m childRole (Content (drop 1 km) (drop 1 <$> cm))
    ∧ next s' = next s
    ∧ ∀ y, y ≠ a → y ≠ m → cells s' !! y = cells s !! y.
Proof.
  intros Hne Ha Hm Hkind Hk Hx Hc.
  destruct (shuffleLeft_spec t s a m childRole ka ca km cm stolen x
              Hne Ha Hm Hkind Hk Hx Hc)
    as (res & s' & Hrun & -> & H).
  by exists s'.
Qed.

Lemma shuffleLeft_borrows_from_right_witness :
  ∃ s',
    shuffleLeft 2%N (KV.key 2) 4%N Grown.uneven.2 = Ok (KV.key 3, s')
    ∧ at_node 2 s' 2%N childRole
        (Content ([KV.key 1] ++ [KV.key 2]) (joined None (take 1 <$> (None : option (list N)))))
    ∧ at_node 2 s' 4%N childRole
        (Content (drop 1 [KV.key 3; KV.key 4]) (drop 1 <$> (None : option (list N))))
    ∧ next s' = next Grown.uneven.2
    ∧ ∀ y, y ≠ 2%N → y ≠ 4%N → cells s' !! y = cells Grown.uneven.2 !! y.
Proof.
  apply (shuffleLeft_borrows_from_right 2 Grown.uneven.2 2%N 4%N
           [KV.key 1] None [KV.key 3; KV.key 4] None (KV.key 2) (KV.key 3)).
  - lia.
  - concrete_node.
  - concrete_node.
  - done.
  - simpl. lia.
  - reflexivity.
  - intros va vm H. discriminate H.
Defined.

(** X14.  [shuffleRight] moves one key from the left sibling through the
    parent: the key handed in is put before the keys of the node, the
    last key of the sibling is removed and returned, and for internal
    nodes the child of the sibling at the index of its key count is
    removed there and becomes the first child of the node. *)
Theorem shuffleRight_borrows_from_left {T} (t : Z) (s : store T) (a m : ref)
    (ka : list T) (ca : option (list ref)) (km : list T)
    (cm : option (list ref)) (stolen x : T) :
  a ≠ m →
  at_node t s a childRole (Content ka ca) →
  at_node t s m childRole (Content km cm) →
  (is_Some ca ↔ is_Some cm) →
  (Z.of_nat (length ka) < 2 * t - 1)%Z →
  km !! (length km - 1) = Some x →
  (∀ va vm, ca = Some va → cm = Some vm →
            (Z.of_nat (length va) < 2 * t)%Z ∧ length km < length vm) →
  ∃ s',
    shuffleRight a stolen m s = Ok (x, s')
    ∧ at_node t s' a childRole
        (Content (stolen :: ka)
           (joined ((λ vm, take 1 (drop (length km) vm)) <$> cm) ca))
    ∧ at_node t s' m childRole
        (Content (take (length km - 1) km)
           ((λ vm, take (length km) vm ++ drop (S (length km)) vm) <$> cm))
    ∧ next s' = next s
    ∧ ∀ y, y ≠ a → y ≠ m → cells s' !! y = cells s !! y.
Proof.
  intros Hne Ha Hm Hkind Hk Hx Hc.
  destruct (shuffleRight_spec t s a m childRole ka ca km cm stolen x
              Hne Ha Hm Hkind Hk Hx Hc)
    as (res & s' & Hrun & -> & H).
  by exists s'.
Qed.

Lemma shuffleRight_borrows_from_left_witness :
  ∃ s',
    shuffleRight 4%N (KV.key 2) 2%N Grown.uneven.2 = Ok (KV.key 1, s')
    ∧ at_node 2 s' 4%N childRole
        (Content (KV.key 2 :: [KV.key 3; KV.key 4])
           (joined ((λ vm, take 1 (drop (length [KV.key 1]) vm))
                      <$> (None : option (list N))) None))
    ∧ at_node 2 s' 2%N childRole
        (Content (take (length [KV.key 1] - 1) [KV.key 1])
           ((λ vm, take (length [KV.key 1]) vm
                   ++ drop (S (length [KV.key 1])) vm)
              <$> (None : option (list N))))
    ∧ next s' = next Grown.uneven.2
    ∧ ∀ y, y ≠ 4%N → y ≠ 2%N → cells s' !! y = cells Grown.uneven.2 !! y.
Proof.
  apply (shuffleRight_borrows_from_left 2 Grown.uneven.2 4%N 2%N
           [KV.key 3; KV.key 4] None [KV.key 1] None (KV.key 2) (KV.key 1)).
  - lia.
  - concrete_node.
  - concrete_node.
  - done.
  - simpl. lia.
  - reflexivity.
  - intros va vm H. discriminate H.
Defined.

(** ** A root without keys *)

Section shrink_facts.
Context {T : Type}.
Variable t : Z.
Implicit Types (s : store T) (a : ref) (c : content (T:=T)).

(** An object and a copy of its base in a later store show the same
    chains. *)
Lemma copied_chains lvl s s' a r c a' r' d :
  levelled lvl s →
  (∀ y, (y < next s)%N → cells s' !! y = cells s !! y) →
  at_node t s a r c → at_node t s' a' r' c →
  leaf_at (cells s') a' d ↔ leaf_at (cells s) a d.
Proof.
  intros Hs Hfr Ha Ha'. pose proof (levelled_bounded _ _ Hs) as Hbd.
  destruct c as [kv [cv|]].
  - rewrite (leaf_at_internal t _ _ _ _ _ _ Ha).
    rewrite (leaf_at_internal t _ _ _ _ _ _ Ha').
    split; intros (d' & i & x & -> & Hx & Hl); exists d', i, x;
      (split; [done|]); (split; [done|]).
    + eapply leaf_at_back; [done|done| |done]. by eapply at_node_child.
    + by eapply leaf_at_forth.
  - rewrite (leaf_at_external t _ _ _ _ _ Ha).
    by rewrite (leaf_at_external t _ _ _ _ _ Ha').
Qed.
End shrink_facts.

(** X15.  When the root's [remove] leaves an internal root without keys,
    [Remove] makes a copy of the root's first child the new root: the
    copy holds the keys and children of that child.  The chains of
    children from the new root to the leaves are those from that child,
    so with that child as the only child every chain from the root gets
    one step shorter. *)
Theorem empty_root_shrinks {T} (Compare : T → T → Z) (zero : T) (t : Z)
    (cs : list call) (b : BTree) (s s1 : store T) (k : T)
    (cv : list ref) (child : ref) (cc : content) :
  run Compare zero t cs = Ok (b, s) →
  remove Compare zero t (N.to_nat (next s)) (root b) k s = Ok (tt, s1) →
  at_node t s1 (root b) rootRole (Content [] (Some cv)) →
  cv !! 0 = Some child → at_node t s1 child childRole cc →
  ∃ s',
    Remove Compare zero t b k s = Ok (mkBTree (next s1), s')
    ∧ at_node t s' (next s1) rootRole cc
    ∧ (∀ y, (y < next s1)%N → cells s' !! y = cells s1 !! y)
    ∧ (∀ d, leaf_at (cells s') (next s1) d ↔ leaf_at (cells s1) child d)
    ∧ (cv = [child] →
       ∀ d, leaf_at (cells s1) (root b) (S d)
            ↔ leaf_at (cells s') (next s1) d).
Proof.
  intros Hrun Hrem Hroot Hchild Hcc.
  destruct (run_tree_ok _ _ _ _ _ _ Hrun) as (lvl & Hs & [nr Hnr]).
  destruct (Hs _ _ Hnr) as (Hrpos & Hrl & _).
  assert (Hs1 : levelled lvl s1).
  { pose proof (remove_upd Compare zero t lvl (N.to_nat (next s))
                  (lvl (root b)) (root b) k s Hs) as Hwp.
    unfold wp in Hwp. rewrite Hrem in Hwp.
    destruct Hwp as [[H _] _]; [right; lia|split; [lia|right; lia]|done]. }
  pose proof Hcc as (nc & Hnc & Hncc).
  set (s' := Store (<[next s1 := Node rootRole (nbase nc)]> (cells s1))
                   (N.succ (next s1))).
  assert (Hfr : ∀ y, (y < next s1)%N → cells s' !! y = cells s1 !! y).
  { intros y Hy. unfold s'. simpl. rewrite lookup_insert_ne; [done|lia]. }
  assert (Hnew : at_node t s' (next s1) rootRole cc).
  { exists (Node rootRole (nbase nc)). split.
    - unfold s'. simpl. by rewrite lookup_insert_eq.
    - by eapply node_is_role. }
  assert (Hcopy : ∀ d, leaf_at (cells s') (next s1) d
                       ↔ leaf_at (cells s1) child d).
  { intros d.
    by apply (copied_chains t lvl s1 s' child childRole cc (next s1) rootRole). }
  exists s'. split; [|split; [done|split; [done|split; [done|]]]].
  - unfold Remove. unfold bind at 1. unfold depth_bound.
    unfold bind at 1. rewrite Hrem.
    assert (Habove : returns (isAboveMin t (root b)) s1
                       (λ above s2, above = false ∧ s2 = s1)).
    { eapply returns_isAboveMin; [exact Hroot|]. done. }
    destruct Habove as (above & s2 & Hab & -> & ->).
    unfold bind at 1. rewrite Hab. simpl.
    assert (Hshrink : returns (shrink (root b)) s1
                        (λ r s2, r = next s1 ∧ s2 = s')).
    { unfold shrink. destruct Hroot as (n & Hn & Hr & Hb). simpl in Hb.
      apply returns_bind. eapply returns_load; [done|].
      destruct (nbase n) as [|ks cs0] eqn:Hbase; [done|].
      apply returns_bind.
      assert (Hat : at_node t s1 (root b) rootRole (Content [] (Some cv))).
      { exists n. split; [done|]. split; [done|]. simpl. by rewrite Hbase. }
      children_rd at_indexF; [exact Hat|done|lia|exact Hchild|].
      unfold asRoot. apply returns_bind. eapply returns_load; [done|].
      by apply returns_alloc. }
    destruct Hshrink as (r & s2 & Hsh & -> & ->).
    unfold bind. by rewrite Hsh.
  - intros -> d. rewrite Hcopy.
    rewrite (leaf_at_internal t _ _ _ _ _ _ Hroot). split.
    + intros (d' & i & x & [= <-] & Hx & Hl).
      destruct i; simpl in Hx; [|done]. by injection Hx as <-.
    + intros Hl. by exists d, 0, child.
Qed.

Lemma empty_root_shrinks_witness :
  ∃ s',
    Remove KV.Compare KV.zero 2 Grown.two_leaves.1 (KV.key 3)
      Grown.two_leaves.2
    = Ok (mkBTree (next (Grown.root_removed Grown.two_leaves (KV.key 3))), s')
    ∧ at_node 2 s' (next (Grown.root_removed Grown.two_leaves (KV.key 3)))
        rootRole (Content [KV.key 1; KV.key 2] None)
    ∧ (∀ y, (y < next (Grown.root_removed Grown.two_leaves (KV.key 3)))%N →
            cells s' !! y
            = cells (Grown.root_removed Grown.two_leaves (KV.key 3)) !! y)
    ∧ (∀ d, leaf_at (cells s')
              (next (Grown.root_removed Grown.two_leaves (KV.key 3))) d
            ↔ leaf_at (cells (Grown.root_removed Grown.two_leaves (KV.key 3)))
                2%N d)
    ∧ ([2%N] = [2%N] →
       ∀ d, leaf_at (cells (Grown.root_removed Grown.two_leaves (KV.key 3)))
              (root Grown.two_leaves.1) (S d)
            ↔ leaf_at (cells s')
                (next (Grown.root_removed Grown.two_leaves (KV.key 3))) d).
Proof.
  apply (empty_root_shrinks KV.Compare KV.zero 2
           (KV.ascending 1 4 ++ [CallRemove (KV.key 4)])
           Grown.two_leaves.1 Grown.two_leaves.2
           (Grown.root_removed Grown.two_leaves (KV.key 3)) (KV.key 3)
           [2%N] 2%N (Content [KV.key 1; KV.key 2] None)).
  - vm_compute. reflexivity.
  - vm_compute. reflexivity.
  - concrete_node.
  - reflexivity.
  - concrete_node.
Defined.

(** ** [deletePred] and [deleteSucc] *)

Section delete_specs.
Context {T : Type}.
Variable t : Z.
Implicit Types (s : store T) (a : ref) (c : content (T:=T)).

Lemma leaf_deletePred fuel s a r init x :
  at_node t s a r (Content (init ++ [x]) None) →
  returns (deletePred t (S fuel) a) s
    (λ res s',
       res = x ∧ at_node t s' a r (Content init None)
       ∧ next s' = next s
       ∧ ∀ y, y ≠ a → cells s' !! y = cells s !! y).
Proof.
  intros Ha. simpl. eapply at_node_load; [exact Ha|].
  intros n Hn [Hr Hb]. simpl in Hb.
  destruct (nbase n) as [ks|] eqn:Hbase; [|done].
  apply returns_bind. keys_rd at_lenF; [exact Ha|done|].
  keys_wr at_removeF; [exact Ha|done| | |].
  { cbn [ckeys]. rewrite length_app. simpl. lia. }
  { cbn [ckeys]. rewrite length_app. simpl.
    replace (Z.to_nat (Z.of_nat (length init + 1) - 1)) with (length init)
      by lia.
    by rewrite lookup_app_r, Nat.sub_diag by lia. }
  intros s1 Ha1 Hnx1 Hfr1. unfold set_ckeys in Ha1.
  cbn [ckeys cchildren] in Ha1. rewrite remove_at_end in Ha1. done.
Qed.

Lemma leaf_deleteSucc fuel s a r x rest :
  at_node t s a r (Content (x :: rest) None) →
  returns (deleteSucc t (S fuel) a) s
    (λ res s',
       res = x ∧ at_node t s' a r (Content rest None)
       ∧ next s' = next s
       ∧ ∀ y, y ≠ a → cells s' !! y = cells s !! y).
Proof.
  intros Ha. simpl. eapply at_node_load; [exact Ha|].
  intros n Hn [Hr Hb]. simpl in Hb.
  destruct (nbase n) as [ks|] eqn:Hbase; [|done].
  keys_wr at_removeF; [exact Ha|done|lia|done|].
  intros s1 Ha1 Hnx1 Hfr1. unfold set_ckeys in Ha1.
  cbn [ckeys cchildren] in Ha1. rewrite remove_at_front in Ha1. done.
Qed.

Lemma empty_leaf_panics fuel s a r :
  at_node t s a r (Content [] None) →
  deletePred t (S fuel) a s = Panic ∧ deleteSucc t (S fuel) a s = Panic.
Proof.
  intros (n & Hn & Hr & Hb). simpl in Hb.
  destruct (nbase n) as [ks|] eqn:Hbase; [|done].
  pose proof (holds_slen _ _ _ Hb) as Hlen. simpl in Hlen.
  assert (Hk : keys n = ks) by (unfold keys; by rewrite Hbase).
  split; simpl; unfold bind, load; rewrite Hn, Hbase.
  - unfold lenF, removeF, getF, bind, load, lift, ret. rewrite Hn. simpl.
    rewrite Hn. simpl. rewrite Hk, Hlen. done.
  - unfold removeF, getF, bind, load, lift. rewrite Hn. simpl.
    rewrite Hk. unfold remove_, removeFrom. rewrite Hlen. done.
Qed.

Lemma children_indexL s a n ks cs r ka cv (i : Z) x :
  cells s !! a = Some n → nbase n = baseInternalNode ks cs →
  node_is t n r (Content ka (Some cv)) →
  (0 ≤ i)%Z → cv !! Z.to_nat i = Some x →
  indexL childrenF a (len cs) i s = Ok (x, s).
Proof.
  intros Hn Hbase [_ Hb] Hi Hx. simpl in Hb. rewrite Hbase in Hb.
  destruct Hb as [_ Hcs].
  pose proof (holds_index cs _ cv (Z.to_nat i) x Hcs Hx) as Hix.
  rewrite Z2Nat.id in Hix by done.
  unfold indexL, getF, bind, load, lift. rewrite Hn. simpl. rewrite Hbase.
  unfold index in *. simpl in *. unfold slen in *. simpl.
  by destruct ((i <? 0)%Z || (Z.of_nat (len cs) <=? i)%Z),
    (arr cs !! Z.to_nat i); try done; injection Hix as ->.
Qed.

Lemma child_isAboveMin s a c :
  at_node t s a childRole c →
  isAboveMin t a s = Ok ((t - 1 <? Z.of_nat (length (ckeys c)))%Z, s).
Proof.
  intros Ha.
  destruct (returns_isAboveMin t s a childRole c
              (λ b s', b = (t - 1 <? Z.of_nat (length (ckeys c)))%Z ∧ s' = s)
              Ha) as (b & s' & H & -> & ->); done.
Qed.

Lemma internal_deletePred fuel s a r ka cv x cx :
  at_node t s a r (Content ka (Some cv)) → cv !! 0 = Some x →
  at_node t s x childRole cx → (t - 1 < Z.of_nat (length (ckeys cx)))%Z →
  deletePred t (S fuel) a s = deletePred t fuel x s.
Proof.
  intros (n & Hn & Hc) Hx Hcx Habove. simpl.
  unfold bind at 1. unfold load at 1. rewrite Hn.
  pose proof Hc as [_ Hb]. simpl in Hb.
  destruct (nbase n) as [|ks cs] eqn:Hbase; [done|].
  unfold bind at 1.
  rewrite (children_indexL s a n ks cs r ka cv 0 x Hn Hbase Hc) by done.
  unfold bind at 1. rewrite (child_isAboveMin _ _ _ Hcx).
  by destruct (Z.ltb_spec (t - 1) (Z.of_nat (length (ckeys cx)))); [|lia].
Qed.

Lemma internal_deleteSucc fuel s a r ka cv x cx :
  at_node t s a r (Content ka (Some cv)) → cv !! length ka = Some x →
  at_node t s x childRole cx → (t - 1 < Z.of_nat (length (ckeys cx)))%Z →
  deleteSucc t (S fuel) a s = deleteSucc t fuel x s.
Proof.
  intros (n & Hn & Hc) Hx Hcx Habove. simpl.
  unfold bind at 1. unfold load at 1. rewrite Hn.
  pose proof Hc as [_ Hb]. simpl in Hb.
  destruct (nbase n) as [|ks cs] eqn:Hbase; [done|].
  destruct Hb as [Hks _]. rewrite (holds_slen _ _ _ Hks).
  unfold bind at 1.
  rewrite (children_indexL s a n ks cs r ka cv _ x Hn Hbase Hc)
    by (try lia; by rewrite Nat2Z.id).
  unfold bind at 1. rewrite (child_isAboveMin _ _ _ Hcx).
  by destruct (Z.ltb_spec (t - 1) (Z.of_nat (length (ckeys cx)))); [|lia].
Qed.
End delete_specs.

(** X16.  On a leaf, [deletePred] removes and returns the last key and
    [deleteSucc] the first one; on a leaf without keys both panic. *)
Theorem leaf_gives_its_end_keys {T} (t : Z) (fuel : nat) (s : store T)
    (a : ref) (kv : list T) :
  at_node t s a childRole (Content kv None) →
  match deletePred t (S fuel) a s with
  | Ok (x, s') =>
      ∃ init, kv = init ++ [x] ∧ at_node t s' a childRole (Content init None)
              ∧ ∀ y, y ≠ a → cells s' !! y = cells s !! y
  | Panic => kv = []
  | OutOfFuel => False
  end
  ∧ match deleteSucc t (S fuel) a s with
    | Ok (x, s') =>
        ∃ rest, kv = x :: rest ∧ at_node t s' a childRole (Content rest None)
                ∧ ∀ y, y ≠ a → cells s' !! y = cells s !! y
    | Panic => kv = []
    | OutOfFuel => False
    end.
Proof.
  intros Ha. destruct kv as [|k0 kv].
  { destruct (empty_leaf_panics t fuel s a childRole Ha) as [-> ->]. done. }
  split.
  - destruct (exists_last (l := k0 :: kv)) as (init & x & Heq); [done|].
    rewrite Heq in Ha |- *.
    destruct (leaf_deletePred t fuel s a childRole init x Ha)
      as (res & s' & -> & -> & Ha' & _ & Hfr).
    by exists init.
  - destruct (leaf_deleteSucc t fuel s a childRole k0 kv Ha)
      as (res & s' & -> & -> & Ha' & _ & Hfr).
    by exists kv.
Qed.

Lemma leaf_gives_its_end_keys_witness :
  match deletePred 2 (S 0) 4%N Grown.uneven.2 with
  | Ok (x, s') =>
      ∃ init, [KV.key 3; KV.key 4] = init ++ [x]
              ∧ at_node 2 s' 4%N childRole (Content init None)
              ∧ ∀ y, y ≠ 4%N → cells s' !! y = cells Grown.uneven.2 !! y
  | Panic => [KV.key 3; KV.key 4] = []
  | OutOfFuel => False
  end
  ∧ match deleteSucc 2 (S 0) 4%N Grown.uneven.2 with
    | Ok (x, s') =>
        ∃ rest, [KV.key 3; KV.key 4] = x :: rest
                ∧ at_node 2 s' 4%N childRole (Content rest None)
                ∧ ∀ y, y ≠ 4%N → cells s' !! y = cells Grown.uneven.2 !! y
    | Panic => [KV.key 3; KV.key 4] = []
    | OutOfFuel => False
    end.
Proof.
  apply (leaf_gives_its_end_keys 2 0 Grown.uneven.2 4%N
           [KV.key 3; KV.key 4]).
  concrete_node.
Defined.

(** X17.  [deletePred] on an internal node goes down into the child at
    index 0, the first one: when that child is a leaf above minimum, the
    key removed and returned is the last key of that first leaf, and no
    other object changes. *)
Theorem deletePred_takes_from_first_child {T} (t : Z) (fuel : nat)
    (s : store T) (a : ref) (ka : list T) (cv : list ref)
    (child : ref) (init : list T) (x : T) :
  at_node t s a childRole (Content ka (Some cv)) → cv !! 0 = Some child →
  at_node t s child childRole (Content (init ++ [x]) None) →
  (t - 1 < Z.of_nat (length (init ++ [x])))%Z →
  ∃ s',
    deletePred t (S (S fuel)) a s = Ok (x, s')
    ∧ at_node t s' child childRole (Content init None)
    ∧ next s' = next s
    ∧ ∀ y, y ≠ child → cells s' !! y = cells s !! y.
Proof.
  intros Ha Hchild Hc Habove.
  rewrite (internal_deletePred t (S fuel) s a childRole ka cv child _ Ha Hchild Hc)
    by done.
  destruct (leaf_deletePred t fuel s child childRole init x Hc)
    as (res & s' & Hrun & -> & H).
  by exists s'.
Qed.

Lemma deletePred_takes_from_first_child_witness :
  ∃ s',
    deletePred 2 (S (S 0)) 7%N Grown.descended.2 = Ok (KV.key 2, s')
    ∧ at_node 2 s' 2%N childRole (Content [KV.key 1] None)
    ∧ next s' = next Grown.descended.2
    ∧ ∀ y, y ≠ 2%N → cells s' !! y = cells Grown.descended.2 !! y.
Proof.
  apply (deletePred_takes_from_first_child 2 0 Grown.descended.2 7%N
           [KV.key 3; KV.key 5] [2%N; 10%N; 6%N] 2%N
           [KV.key 1] (KV.key 2)).
  - concrete_node.
  - reflexivity.
  - concrete_node.
  - simpl. lia.
Defined.

(** X18.  [deleteSucc] on an internal node goes down into the child at
    the index of the key count, the last one: when that child is a leaf
    above minimum, the key removed and returned is the first key of that
    last leaf, and no other object changes. *)
Theorem deleteSucc_takes_from_last_child {T} (t : Z) (fuel : nat)
    (s : store T) (a : ref) (ka : list T) (cv : list ref)
    (child : ref) (x : T) (rest : list T) :
  at_node t s a childRole (Content ka (Some cv)) → cv !! length ka = Some child →
  at_node t s child childRole (Content (x :: rest) None) →
  (t - 1 < Z.of_nat (length (x :: rest)))%Z →
  ∃ s',
    deleteSucc t (S (S fuel)) a s = Ok (x, s')
    ∧ at_node t s' child childRole (Content rest None)
    ∧ next s' = next s
    ∧ ∀ y, y ≠ child → cells s' !! y = cells s !! y.
Proof.
  intros Ha Hchild Hc Habove.
  rewrite (internal_deleteSucc t (S fuel) s a childRole ka cv child _ Ha Hchild Hc)
    by done.
  destruct (leaf_deleteSucc t fuel s child childRole x rest Hc)
    as (res & s' & Hrun & -> & H).
  by exists s'.
Qed.

Lemma deleteSucc_takes_from_last_child_witness :
  ∃ s',
    deleteSucc 2 (S (S 0)) 9%N Grown.levels3.2 = Ok (KV.key 9, s')
    ∧ at_node 2 s' 10%N childRole (Content [KV.key 10] None)
    ∧ next s' = next Grown.levels3.2
    ∧ ∀ y, y ≠ 10%N → cells s' !! y = cells Grown.levels3.2 !! y.
Proof.
  apply (deleteSucc_takes_from_last_child 2 0 Grown.levels3.2 9%N
           [KV.key 6; KV.key 8] [5%N; 6%N; 10%N] 10%N
           (KV.key 9) [KV.key 10]).
  - concrete_node.
  - reflexivity.
  - concrete_node.
  - simpl. lia.
Defined.

(** ** No node is below itself *)

Section descent_facts.
Context {T : Type}.
Implicit Types (s : store T) (a c : ref).

Lemma child_of_level lvl s a c :
  levelled lvl s → child_of (cells s) a c → lvl c < lvl a.
Proof.
  intros Hs (n & ks & cs & i & Hn & Hb & Hc & [nc Hnc]).
  destruct (Hs _ _ Hn) as (_ & _ & Hok). unfold node_ok in Hok.
  rewrite Hb in Hok. unfold view in Hc.
  apply lookup_take_Some in Hc as [Hc _].
  eapply Forall_lookup_1 in Hok; [|exact Hc].
  destruct (Hs _ _ Hnc) as (Hpos & _ & _).
  destruct Hok as [->|[_ <-]]; lia.
Qed.

Lemma descendant_level lvl s a c :
  levelled lvl s → descendant (cells s) a c → lvl c < lvl a.
Proof.
  intros Hs Hd. induction Hd as [a c H|a m c H _ IH].
  - by eapply child_of_level.
  - pose proof (child_of_level _ _ _ _ Hs H). lia.
Qed.
End descent_facts.

(** X19.  In the store that [NewBTree()] and any sequence of [Insert] and
    [Remove] calls leave, no node is its own descendant: following child
    references never comes back to the node it started from, so every
    descent through the tree ends. *)
Theorem reachable_store_has_no_cycle {T} (Compare : T → T → Z) (zero : T)
    (t : Z) (cs : list call) (b : BTree) (s : store T) :
  run Compare zero t cs = Ok (b, s) →
  ∀ a, ¬ descendant (cells s) a a.
Proof.
  intros Hrun a Hd.
  destruct (run_tree_ok _ _ _ _ _ _ Hrun) as (lvl & Hs & _).
  pose proof (descendant_level lvl s a a Hs Hd). lia.
Qed.

Lemma reachable_store_has_no_cycle_witness :
  run KV.Compare KV.zero 2 (KV.ascending 1 10)
  = Ok (Grown.levels3.1, Grown.levels3.2)
  ∧ ¬ descendant (cells Grown.levels3.2) 8%N 8%N.
Proof.
  split; [vm_compute; reflexivity|].
  refine (reachable_store_has_no_cycle KV.Compare KV.zero 2 (KV.ascending 1 10)
            Grown.levels3.1 Grown.levels3.2 _ 8%N).
  vm_compute. reflexivity.
Defined.

(** ** [remove] at an internal node that does not hold the key *)

Section list_edits.
Context {E : Type}.
Implicit Types (v : list E).

Lemma replace_by_remove_insert v (j : nat) x :
  j < length v →
  take j (take j v ++ drop (S j) v) ++ x :: drop j (take j v ++ drop (S j) v)
  = <[j := x]> v.
Proof.
  intros Hj. rewrite insert_take_drop by done.
  rewrite take_app_length' by (rewrite length_take; lia).
  by rewrite drop_app_length' by (rewrite length_take; lia).
Qed.
End list_edits.

Section remove_fixups.
Context {T : Type}.
Variable Compare : T → T → Z.
Variable zero : T.
Variable t : Z.
Variable fuel : nat.
Variables (s : store T) (a : ref) (n : node T) (r : role).
Variables (ka : list T) (cv : list ref) (k : T) (i : Z).
Variables (child : ref) (kc : list T) (vc : option (list ref)).

Hypothesis Ht : (1 ≤ t)%Z.
Hypothesis Hn : cells s !! a = Some n.
Hypothesis Hc : node_is t n r (Content ka (Some cv)).
Hypothesis Hf : find Compare zero (keys n) k = (i, false).
Hypothesis Hchild : cv !! Z.to_nat i = Some child.
Hypothesis Hcc : at_node t s child childRole (Content kc vc).
Hypothesis Hmin : (Z.of_nat (length kc) ≤ t - 1)%Z.
Hypothesis Hne : child ≠ a.

Lemma fixup_index : (0 ≤ i ≤ Z.of_nat (length ka))%Z.
Proof.
  pose proof (find_range _ _ _ _ _ _ Hf) as [Hi _].
  by rewrite (holds_slen _ _ _ (node_is_keys t _ _ _ Hc)) in Hi.
Qed.

Lemma fixup_cap : (Z.of_nat (length ka) ≤ 2 * t - 1)%Z.
Proof. apply (holds_length _ _ _ (node_is_keys t _ _ _ Hc)). Qed.

Lemma fixup_at : at_node t s a r (Content ka (Some cv)).
Proof. by exists n. Qed.

(** The steps of [remove] up to the test of the child. *)
Ltac enter_remove :=
  simpl; apply leads_bind; (eapply returns_load; [exact Hn|]);
  rewrite Hf;
  let Hb := fresh "Hb" in
  pose proof Hc as [_ Hb]; simpl in Hb;
  destruct (nbase n) as [|? ?]; [done|]; clear Hb;
  apply leads_bind;
  (children_rd at_indexF; [exact fixup_at|done|lia|exact Hchild|]);
  apply leads_bind; (eapply returns_isAboveMin; [exact Hcc|]);
  cbn [ckeys];
  destruct (Z.ltb_spec (t - 1) (Z.of_nat (length kc))); [lia|].

(** X20.  [remove] at an internal node that does not hold the key, with
    the child for the key not above minimum and the left sibling above
    minimum: the separating key of the node goes to the front of the
    child (with the sibling's child past its keys, for internal nodes),
    the last key of the left sibling takes its place in the node, and
    the removal goes on in the child. *)
Lemma borrow_from_left left kl vl :
  (0 < i)%Z → cv !! Z.to_nat (i - 1) = Some left →
  at_node t s left childRole (Content kl vl) →
  (t - 1 < Z.of_nat (length kl))%Z →
  left ≠ a → left ≠ child → (is_Some vc ↔ is_Some vl) →
  (∀ vcv vlv, vc = Some vcv → vl = Some vlv →
              (Z.of_nat (length vcv) < 2 * t)%Z ∧ length kl < length vlv) →
  ∃ stolen x s1,
    ka !! Z.to_nat (i - 1) = Some stolen
    ∧ kl !! (length kl - 1) = Some x
    ∧ remove Compare zero t (S fuel) a k s
      = remove Compare zero t fuel child k s1
    ∧ at_node t s1 a r (Content (<[Z.to_nat (i - 1) := x]> ka) (Some cv))
    ∧ at_node t s1 child childRole
        (Content (stolen :: kc)
           (joined ((λ v, take 1 (drop (length kl) v)) <$> vl) vc))
    ∧ at_node t s1 left childRole
        (Content (take (length kl - 1) kl)
           ((λ v, take (length kl) v ++ drop (S (length kl)) v) <$> vl))
    ∧ ∀ y, y ≠ a → y ≠ child → y ≠ left → cells s1 !! y = cells s !! y.
Proof.
  intros Hi0 Hleft Hl Habove Hla Hlc Hkind Hint.
  pose proof fixup_index as Hi. pose proof fixup_at as Hat.
  pose proof fixup_cap as Hcap.
  destruct (lookup_lt_is_Some_2 ka (Z.to_nat (i - 1))) as [stolen Hst];
    [lia|].
  destruct (lookup_lt_is_Some_2 kl (length kl - 1)) as [x Hx]; [lia|].
  exists stolen, x.
  cut (leads_to (remove Compare zero t (S fuel) a k) s
         (remove Compare zero t fuel child k)
         (λ s1,
            at_node t s1 a r
              (Content (<[Z.to_nat (i - 1) := x]> ka) (Some cv))
            ∧ at_node t s1 child childRole
                (Content (stolen :: kc)
                   (joined ((λ v, take 1 (drop (length kl) v)) <$> vl) vc))
            ∧ at_node t s1 left childRole
                (Content (take (length kl - 1) kl)
                   ((λ v, take (length kl) v ++ drop (S (length kl)) v)
                      <$> vl))
            ∧ ∀ y, y ≠ a → y ≠ child → y ≠ left →
                   cells s1 !! y = cells s !! y)).
  { intros (s1 & Heq & HD). exists s1. by repeat (split; [done|]). }
  enter_remove. simpl.
  apply leads_bind.
  destruct (Z.ltb_spec 0 i); [|lia].
  apply returns_bind.
  children_rd at_indexF; [exact Hat|done|lia|exact Hleft|].
  eapply returns_isAboveMin; [exact Hl|]. cbn [ckeys].
  destruct (Z.ltb_spec (t - 1) (Z.of_nat (length kl))); [|lia].
  apply leads_bind. keys_wr at_removeF; [exact Hat|done|lia|exact Hst|].
  intros s1 Ha1 Hnx1 Hfr1. unfold set_ckeys in Ha1.
  cbn [ckeys cchildren] in Ha1.
  pose proof (at_node_frame t _ s1 _ _ _ Hcc (Hfr1 child Hne)) as Hc1.
  pose proof (at_node_frame t _ s1 _ _ _ Hl (Hfr1 left Hla)) as Hl1.
  apply leads_bind.
  children_rd at_indexF; [exact Ha1|done|lia|exact Hleft|].
  apply leads_bind.
  eapply returns_mono.
  { apply (shuffleRight_spec t s1 child left childRole kc vc kl vl stolen x);
      [done|done|done|done|lia|done|done]. }
  intros res s2 (-> & Hc2 & Hl2 & Hnx2 & Hfr2).
  pose proof (at_node_frame t _ s2 _ _ _ Ha1
                (Hfr2 a ltac:(done) ltac:(done))) as Ha2.
  apply leads_bind. keys_wr at_insertF; [exact Ha2|done| | |].
  { cbn [keys_view ckeys]. rewrite length_app, length_take, length_drop. lia. }
  { cbn [keys_view ckeys]. rewrite length_app, length_take, length_drop. lia. }
  intros s3 Ha3 Hnx3 Hfr3. unfold set_ckeys in Ha3.
  cbn [ckeys cchildren] in Ha3.
  rewrite replace_by_remove_insert in Ha3 by lia.
  apply leads_here.
  split; [done|]. split; [|split].
  - eapply at_node_frame; [exact Hc2|]. by apply Hfr3.
  - eapply at_node_frame; [exact Hl2|]. by apply Hfr3.
  - intros y Hya Hyc Hyl. rewrite Hfr3, Hfr2 by done. by apply Hfr1.
Qed.

(** Reading the left and the right sibling when they cannot lend. *)
Lemma left_cannot_lend (Q : bool → store T → Prop) :
  (i ≤ 0)%Z
  ∨ (∃ left kl vl,
       cv !! Z.to_nat (i - 1) = Some left
       ∧ at_node t s left childRole (Content kl vl)
       ∧ (Z.of_nat (length kl) ≤ t - 1)%Z) →
  Q false s →
  returns (if (0 <? i)%Z
           then bind (indexF childrenF a (i - 1)) (λ left, isAboveMin t left)
           else ret false) s Q.
Proof.
  intros Hleft HQ. destruct (Z.ltb_spec 0 i) as [Hi|Hi].
  - destruct Hleft as [?|(left & kl & vl & Hleft & Hl & Hkl)]; [lia|].
    apply returns_bind.
    children_rd at_indexF; [exact fixup_at|done|lia|exact Hleft|].
    eapply returns_isAboveMin; [exact Hl|]. cbn [ckeys].
    by destruct (Z.ltb_spec (t - 1) (Z.of_nat (length kl))); [lia|].
  - by apply returns_ret.
Qed.

Lemma right_cannot_lend (Q : bool → store T → Prop) :
  (Z.of_nat (length ka) ≤ i)%Z
  ∨ (∃ right kr vr,
       cv !! Z.to_nat (i + 1) = Some right
       ∧ at_node t s right childRole (Content kr vr)
       ∧ (Z.of_nat (length kr) ≤ t - 1)%Z) →
  Q false s →
  returns (if (i <? Z.of_nat (length ka))%Z
           then bind (indexF childrenF a (i + 1)) (λ right, isAboveMin t right)
           else ret false) s Q.
Proof.
  intros Hright HQ. pose proof fixup_index as Hi.
  destruct (Z.ltb_spec i (Z.of_nat (length ka))) as [Hlt|Hge].
  - destruct Hright as [?|(right & kr & vr & Hright & Hr & Hkr)]; [lia|].
    apply returns_bind.
    children_rd at_indexF; [exact fixup_at|done|lia|exact Hright|].
    eapply returns_isAboveMin; [exact Hr|]. cbn [ckeys].
    by destruct (Z.ltb_spec (t - 1) (Z.of_nat (length kr))); [lia|].
  - by apply returns_ret.
Qed.

(** X21.  The same when there is no left sibling above minimum and the
    right sibling is above minimum: the separating key of the node goes
    to the end of the child (with the first child of the sibling, for
    internal nodes), the first key of the right sibling takes its place
    in the node, and the removal goes on in the child. *)
Lemma borrow_from_right right kr vr :
  (i ≤ 0)%Z
  ∨ (∃ left kl vl,
       cv !! Z.to_nat (i - 1) = Some left
       ∧ at_node t s left childRole (Content kl vl)
       ∧ (Z.of_nat (length kl) ≤ t - 1)%Z) →
  (i < Z.of_nat (length ka))%Z → cv !! Z.to_nat (i + 1) = Some right →
  at_node t s right childRole (Content kr vr) →
  (t - 1 < Z.of_nat (length kr))%Z →
  right ≠ a → right ≠ child → (is_Some vc ↔ is_Some vr) →
  (∀ vcv vrv, vc = Some vcv → vr = Some vrv →
              (Z.of_nat (length vcv) < 2 * t)%Z ∧ vrv ≠ []) →
  ∃ stolen x s1,
    ka !! Z.to_nat i = Some stolen
    ∧ kr !! 0 = Some x
    ∧ remove Compare zero t (S fuel) a k s
      = remove Compare zero t fuel child k s1
    ∧ at_node t s1 a r (Content (<[Z.to_nat i := x]> ka) (Some cv))
    ∧ at_node t s1 child childRole
        (Content (kc ++ [stolen]) (joined vc (take 1 <$> vr)))
    ∧ at_node t s1 right childRole (Content (drop 1 kr) (drop 1 <$> vr))
    ∧ ∀ y, y ≠ a → y ≠ child → y ≠ right → cells s1 !! y = cells s !! y.
Proof.
  intros Hleft Hilt Hright Hr Habove Hra Hrc Hkind Hint.
  pose proof fixup_index as Hi. pose proof fixup_at as Hat.
  pose proof fixup_cap as Hcap.
  destruct (lookup_lt_is_Some_2 ka (Z.to_nat i)) as [stolen Hst]; [lia|].
  destruct (lookup_lt_is_Some_2 kr 0) as [x Hx]; [lia|].
  exists stolen, x.
  cut (leads_to (remove Compare zero t (S fuel) a k) s
         (remove Compare zero t fuel child k)
         (λ s1,
            at_node t s1 a r (Content (<[Z.to_nat i := x]> ka) (Some cv))
            ∧ at_node t s1 child childRole
                (Content (kc ++ [stolen]) (joined vc (take 1 <$> vr)))
            ∧ at_node t s1 right childRole
                (Content (drop 1 kr) (drop 1 <$> vr))
            ∧ ∀ y, y ≠ a → y ≠ child → y ≠ right →
                   cells s1 !! y = cells s !! y)).
  { intros (s1 & Heq & HD). exists s1. by repeat (split; [done|]). }
  enter_remove. simpl.
  apply leads_bind. apply left_cannot_lend; [done|].
  apply leads_bind. keys_rd at_lenF; [exact Hat|done|]. cbn [ckeys].
  apply leads_bind.
  destruct (Z.ltb_spec i (Z.of_nat (length ka))); [|lia].
  apply returns_bind.
  children_rd at_indexF; [exact Hat|done|lia|exact Hright|].
  eapply returns_isAboveMin; [exact Hr|]. cbn [ckeys].
  destruct (Z.ltb_spec (t - 1) (Z.of_nat (length kr))); [|lia].
  apply leads_bind. keys_wr at_removeF; [exact Hat|done|lia|exact Hst|].
  intros s1 Ha1 Hnx1 Hfr1. unfold set_ckeys in Ha1.
  cbn [ckeys cchildren] in Ha1.
  pose proof (at_node_frame t _ s1 _ _ _ Hcc (Hfr1 child Hne)) as Hc1.
  pose proof (at_node_frame t _ s1 _ _ _ Hr (Hfr1 right Hra)) as Hr1.
  apply leads_bind.
  children_rd at_indexF; [exact Ha1|done|lia|exact Hright|].
  apply leads_bind.
  eapply returns_mono.
  { apply (shuffleLeft_spec t s1 child right childRole kc vc kr vr stolen x);
      [done|done|done|done|lia|done|done]. }
  intros res s2 (-> & Hc2 & Hr2 & Hnx2 & Hfr2).
  pose proof (at_node_frame t _ s2 _ _ _ Ha1
                (Hfr2 a ltac:(done) ltac:(done))) as Ha2.
  apply leads_bind. keys_wr at_insertF; [exact Ha2|done| | |].
  { cbn [keys_view ckeys]. rewrite length_app, length_take, length_drop. lia. }
  { cbn [keys_view ckeys]. rewrite length_app, length_take, length_drop. lia. }
  intros s3 Ha3 Hnx3 Hfr3. unfold set_ckeys in Ha3.
  cbn [ckeys cchildren] in Ha3.
  rewrite replace_by_remove_insert in Ha3 by lia.
  apply leads_here.
  split; [done|]. split; [|split].
  - eapply at_node_frame; [exact Hc2|]. by apply Hfr3.
  - eapply at_node_frame; [exact Hr2|]. by apply Hfr3.
  - intros y Hya Hyc Hyr. rewrite Hfr3, Hfr2 by done. by apply Hfr1.
Qed.

(** X22.  The same when no sibling is above minimum and there is a left
    sibling: the left sibling takes the separating key and the keys and
    children of the child, the key and the child leave the node, and
    the removal goes on in the left sibling. *)
Lemma merge_into_left left kl vl :
  (0 < i)%Z → cv !! Z.to_nat (i - 1) = Some left →
  at_node t s left childRole (Content kl vl) →
  (Z.of_nat (length kl) ≤ t - 1)%Z →
  (Z.of_nat (length ka) ≤ i)%Z
  ∨ (∃ right kr vr,
       cv !! Z.to_nat (i + 1) = Some right
       ∧ at_node t s right childRole (Content kr vr)
       ∧ (Z.of_nat (length kr) ≤ t - 1)%Z) →
  left ≠ a → left ≠ child → (is_Some vl ↔ is_Some vc) →
  (∀ vlv vcv, vl = Some vlv → vc = Some vcv →
              (Z.of_nat (length vlv + length vcv) ≤ 2 * t)%Z) →
  ∃ key s1,
    ka !! Z.to_nat (i - 1) = Some key
    ∧ remove Compare zero t (S fuel) a k s
      = remove Compare zero t fuel left k s1
    ∧ at_node t s1 a r
        (Content (take (Z.to_nat (i - 1)) ka ++ drop (Z.to_nat i) ka)
           (Some (take (Z.to_nat i) cv ++ drop (S (Z.to_nat i)) cv)))
    ∧ at_node t s1 left childRole
        (Content (kl ++ key :: kc) (joined vl vc))
    ∧ at_node t s1 child childRole (Content [] ((λ _, []) <$> vc))
    ∧ ∀ y, y ≠ a → y ≠ child → y ≠ left → cells s1 !! y = cells s !! y.
Proof.
  intros Hi0 Hleft Hl Hkl Hright Hla Hlc Hkind Hint.
  pose proof fixup_index as Hi. pose proof fixup_at as Hat.
  pose proof fixup_cap as Hcap.
  destruct (lookup_lt_is_Some_2 ka (Z.to_nat (i - 1))) as [key Hkey];
    [lia|].
  exists key.
  cut (leads_to (remove Compare zero t (S fuel) a k) s
         (remove Compare zero t fuel left k)
         (λ s1,
            at_node t s1 a r
              (Content (take (Z.to_nat (i - 1)) ka ++ drop (Z.to_nat i) ka)
                 (Some (take (Z.to_nat i) cv ++ drop (S (Z.to_nat i)) cv)))
            ∧ at_node t s1 left childRole
                (Content (kl ++ key :: kc) (joined vl vc))
            ∧ at_node t s1 child childRole (Content [] ((λ _, []) <$> vc))
            ∧ ∀ y, y ≠ a → y ≠ child → y ≠ left →
                   cells s1 !! y = cells s !! y)).
  { intros (s1 & Heq & HD). exists s1. by repeat (split; [done|]). }
  enter_remove. simpl.
  apply leads_bind. apply left_cannot_lend; [right; by exists left, kl, vl|].
  apply leads_bind. keys_rd at_lenF; [exact Hat|done|]. cbn [ckeys].
  apply leads_bind. apply right_cannot_lend; [done|].
  destruct (Z.ltb_spec 0 i); [|lia].
  apply leads_bind.
  children_rd at_indexF; [exact Hat|done|lia|exact Hleft|].
  apply leads_bind. keys_wr at_removeF; [exact Hat|done|lia|exact Hkey|].
  intros s1 Ha1 Hnx1 Hfr1. unfold set_ckeys in Ha1.
  cbn [ckeys cchildren] in Ha1.
  replace (S (Z.to_nat (i - 1))) with (Z.to_nat i) in Ha1 by lia.
  pose proof (at_node_frame t _ s1 _ _ _ Hcc (Hfr1 child Hne)) as Hc1.
  pose proof (at_node_frame t _ s1 _ _ _ Hl (Hfr1 left Hla)) as Hl1.
  apply leads_bind.
  eapply returns_mono.
  { apply (merge_spec t s1 left child childRole kl vl kc vc key);
      [done|done|done|done|lia|done]. }
  intros [] s2 (Hl2 & Hc2 & Hnx2 & Hfr2).
  pose proof (at_node_frame t _ s2 _ _ _ Ha1
                (Hfr2 a ltac:(done) ltac:(done))) as Ha2.
  apply lookup_lt_Some in Hchild as Hilt.
  apply leads_bind.
  children_wr at_removeF; [exact Ha2|done|lia|exact Hchild|].
  intros s3 Ha3 Hnx3 Hfr3. unfold set_cchildren in Ha3.
  cbn [ckeys cchildren] in Ha3.
  apply leads_bind. children_rd at_indexF; [exact Ha3|done|lia| |].
  { cbn [cchildren]. rewrite lookup_app_l by (rewrite length_take; lia).
    rewrite lookup_take_lt by lia. exact Hleft. }
  apply leads_here.
  split; [done|]. split; [|split].
  - eapply at_node_frame; [exact Hl2|]. by apply Hfr3.
  - eapply at_node_frame; [exact Hc2|]. by apply Hfr3.
  - intros y Hya Hyc Hyl. rewrite Hfr3, Hfr2 by done. by apply Hfr1.
Qed.

(** X23.  The same when the child is the first one and the right
    sibling is not above minimum: the child takes the separating key
    and the keys and children of the right sibling, the key and the
    sibling leave the node, and the removal goes on in the child. *)
Lemma merge_with_right right kr vr :
  (i ≤ 0)%Z → (i < Z.of_nat (length ka))%Z →
  cv !! Z.to_nat (i + 1) = Some right →
  at_node t s right childRole (Content kr vr) →
  (Z.of_nat (length kr) ≤ t - 1)%Z →
  right ≠ a → right ≠ child → (is_Some vc ↔ is_Some vr) →
  (∀ vcv vrv, vc = Some vcv → vr = Some vrv →
              (Z.of_nat (length vcv + length vrv) ≤ 2 * t)%Z) →
  ∃ key s1,
    ka !! Z.to_nat i = Some key
    ∧ remove Compare zero t (S fuel) a k s
      = remove Compare zero t fuel child k s1
    ∧ at_node t s1 a r
        (Content (take (Z.to_nat i) ka ++ drop (S (Z.to_nat i)) ka)
           (Some (take (Z.to_nat (i + 1)) cv
                  ++ drop (S (Z.to_nat (i + 1))) cv)))
    ∧ at_node t s1 child childRole
        (Content (kc ++ key :: kr) (joined vc vr))
    ∧ at_node t s1 right childRole (Content [] ((λ _, []) <$> vr))
    ∧ ∀ y, y ≠ a → y ≠ child → y ≠ right → cells s1 !! y = cells s !! y.
Proof.
  intros Hi0 Hilt Hright Hr Hkr Hra Hrc Hkind Hint.
  pose proof fixup_index as Hi. pose proof fixup_at as Hat.
  pose proof fixup_cap as Hcap.
  destruct (lookup_lt_is_Some_2 ka (Z.to_nat i)) as [key Hkey]; [lia|].
  exists key.
  cut (leads_to (remove Compare zero t (S fuel) a k) s
         (remove Compare zero t fuel child k)
         (λ s1,
            at_node t s1 a r
              (Content (take (Z.to_nat i) ka ++ drop (S (Z.to_nat i)) ka)
                 (Some (take (Z.to_nat (i + 1)) cv
                        ++ drop (S (Z.to_nat (i + 1))) cv)))
            ∧ at_node t s1 child childRole
                (Content (kc ++ key :: kr) (joined vc vr))
            ∧ at_node t s1 right childRole (Content [] ((λ _, []) <$> vr))
            ∧ ∀ y, y ≠ a → y ≠ child → y ≠ right →
                   cells s1 !! y = cells s !! y)).
  { intros (s1 & Heq & HD). exists s1. by repeat (split; [done|]). }
  enter_remove. simpl.
  apply leads_bind. apply left_cannot_lend; [by left|].
  apply leads_bind. keys_rd at_lenF; [exact Hat|done|]. cbn [ckeys].
  apply leads_bind.
  apply right_cannot_lend; [right; by exists right, kr, vr|].
  destruct (Z.ltb_spec 0 i); [lia|].
  apply leads_bind. keys_rd at_lenF; [exact Hat|done|]. cbn [ckeys].
  destruct (Z.ltb_spec i (Z.of_nat (length ka))); [|lia].
  apply leads_bind. keys_wr at_removeF; [exact Hat|done|lia|exact Hkey|].
  intros s1 Ha1 Hnx1 Hfr1. unfold set_ckeys in Ha1.
  cbn [ckeys cchildren] in Ha1.
  pose proof (at_node_frame t _ s1 _ _ _ Hcc (Hfr1 child Hne)) as Hc1.
  pose proof (at_node_frame t _ s1 _ _ _ Hr (Hfr1 right Hra)) as Hr1.
  apply leads_bind.
  children_rd at_indexF; [exact Ha1|done|lia|exact Hright|].
  apply leads_bind.
  eapply returns_mono.
  { apply (merge_spec t s1 child right childRole kc vc kr vr key);
      [done|done|done|done|lia|done]. }
  intros [] s2 (Hc2 & Hr2 & Hnx2 & Hfr2).
  pose proof (at_node_frame t _ s2 _ _ _ Ha1
                (Hfr2 a ltac:(done) ltac:(done))) as Ha2.
  apply leads_bind.
  children_wr at_removeF; [exact Ha2|done|lia|exact Hright|].
  intros s3 Ha3 Hnx3 Hfr3. unfold set_cchildren in Ha3.
  cbn [ckeys cchildren] in Ha3.
  apply leads_here.
  split; [done|]. split; [|split].
  - eapply at_node_frame; [exact Hc2|]. by apply Hfr3.
  - eapply at_node_frame; [exact Hr2|]. by apply Hfr3.
  - intros y Hya Hyc Hyr. rewrite Hfr3, Hfr2 by done. by apply Hfr1.
Qed.
End remove_fixups.

Ltac settle :=
  first
    [ lia
    | (vm_compute; reflexivity)
    | concrete_node
    | (split; [reflexivity|vm_compute; repeat split; (lia || reflexivity)])
    | (cbn [length]; lia)
    | (let H := fresh in split; intros H; exact H)
    | (let H := fresh in intros ? ? H; discriminate H) ].

Lemma borrow_from_left_witness :
  ∃ stolen x s1,
    [KV.key 3; KV.key 5] !! Z.to_nat (1 - 1) = Some stolen
    ∧ [KV.key 1; KV.key 2] !! (length [KV.key 1; KV.key 2] - 1) = Some x
    ∧ remove KV.Compare KV.zero 2 (S 1) 7%N (KV.key 4) Grown.descended.2
      = remove KV.Compare KV.zero 2 1 10%N (KV.key 4) s1
    ∧ at_node 2 s1 7%N childRole
        (Content (<[Z.to_nat (1 - 1) := x]> [KV.key 3; KV.key 5])
           (Some [2%N; 10%N; 6%N]))
    ∧ at_node 2 s1 10%N childRole
        (Content (stolen :: [KV.key 4])
           (joined ((λ v, take 1 (drop (length [KV.key 1; KV.key 2]) v))
                      <$> (None : option (list N))) None))
    ∧ at_node 2 s1 2%N childRole
        (Content (take (length [KV.key 1; KV.key 2] - 1) [KV.key 1; KV.key 2])
           ((λ v, take (length [KV.key 1; KV.key 2]) v
                  ++ drop (S (length [KV.key 1; KV.key 2])) v)
              <$> (None : option (list N))))
    ∧ ∀ y, y ≠ 7%N → y ≠ 10%N → y ≠ 2%N →
           cells s1 !! y = cells Grown.descended.2 !! y.
Proof.
  eapply borrow_from_left with (r := childRole) (kl := [KV.key 1; KV.key 2]);
    try settle.
Defined.

Lemma borrow_from_right_witness :
  ∃ stolen x s1,
    [KV.key 6; KV.key 8] !! Z.to_nat 1 = Some stolen
    ∧ [KV.key 9; KV.key 10] !! 0 = Some x
    ∧ remove KV.Compare KV.zero 2 (S 1) 9%N (KV.key 7) Grown.levels3.2
      = remove KV.Compare KV.zero 2 1 6%N (KV.key 7) s1
    ∧ at_node 2 s1 9%N childRole
        (Content (<[Z.to_nat 1 := x]> [KV.key 6; KV.key 8])
           (Some [5%N; 6%N; 10%N]))
    ∧ at_node 2 s1 6%N childRole
        (Content ([KV.key 7] ++ [stolen])
           (joined None (take 1 <$> (None : option (list N)))))
    ∧ at_node 2 s1 10%N childRole
        (Content (drop 1 [KV.key 9; KV.key 10])
           (drop 1 <$> (None : option (list N))))
    ∧ ∀ y, y ≠ 9%N → y ≠ 6%N → y ≠ 10%N →
           cells s1 !! y = cells Grown.levels3.2 !! y.
Proof.
  eapply borrow_from_right with (r := childRole);
    try settle.
  right. exists 5%N, [KV.key 5], None.
  split; [reflexivity|]. split; [concrete_node|simpl; lia].
Defined.

Lemma merge_into_left_witness :
  ∃ key s1,
    [KV.key 6; KV.key 8] !! Z.to_nat (1 - 1) = Some key
    ∧ remove KV.Compare KV.zero 2 (S 1) 9%N (KV.key 7) Grown.thinned.2
      = remove KV.Compare KV.zero 2 1 5%N (KV.key 7) s1
    ∧ at_node 2 s1 9%N childRole
        (Content (take (Z.to_nat (1 - 1)) [KV.key 6; KV.key 8]
                  ++ drop (Z.to_nat 1) [KV.key 6; KV.key 8])
           (Some (take (Z.to_nat 1) [5%N; 6%N; 10%N]
                  ++ drop (S (Z.to_nat 1)) [5%N; 6%N; 10%N])))
    ∧ at_node 2 s1 5%N childRole
        (Content ([KV.key 5] ++ key :: [KV.key 7]) (joined None None))
    ∧ at_node 2 s1 6%N childRole
        (Content [] ((λ _, []) <$> (None : option (list N))))
    ∧ ∀ y, y ≠ 9%N → y ≠ 6%N → y ≠ 5%N →
           cells s1 !! y = cells Grown.thinned.2 !! y.
Proof.
  eapply merge_into_left with (r := childRole);
    try settle.
  right. exists 10%N, [KV.key 9], None.
  split; [reflexivity|]. split; [concrete_node|simpl; lia].
Defined.

Lemma merge_with_right_witness :
  ∃ key s1,
    [KV.key 6; KV.key 8] !! Z.to_nat 0 = Some key
    ∧ remove KV.Compare KV.zero 2 (S 1) 9%N (KV.key 5) Grown.thinned.2
      = remove KV.Compare KV.zero 2 1 5%N (KV.key 5) s1
    ∧ at_node 2 s1 9%N childRole
        (Content (take (Z.to_nat 0) [KV.key 6; KV.key 8]
                  ++ drop (S (Z.to_nat 0)) [KV.key 6; KV.key 8])
           (Some (take (Z.to_nat (0 + 1)) [5%N; 6%N; 10%N]
                  ++ drop (S (Z.to_nat (0 + 1))) [5%N; 6%N; 10%N])))
    ∧ at_node 2 s1 5%N childRole
        (Content ([KV.key 5] ++ key :: [KV.key 7]) (joined None None))
    ∧ at_node 2 s1 6%N childRole
        (Content [] ((λ _, []) <$> (None : option (list N))))
    ∧ ∀ y, y ≠ 9%N → y ≠ 5%N → y ≠ 6%N →
           cells s1 !! y = cells Grown.thinned.2 !! y.
Proof.
  eapply merge_with_right with (r := childRole);
    try settle.
Defined.

(** ** [remove] at an internal node that holds the key *)

Section remove_found.
Context {T : Type}.
Variable Compare : T → T → Z.
Variable zero : T.
Variable t : Z.
Variable fuel : nat.
Variables (s : store T) (a : ref) (n : node T) (r : role).
Variables (ka : list T) (cv : list ref) (k : T) (i : Z).
Variables (child : ref) (kc : list T) (vc : option (list ref)).
Variables (right : ref) (kr : list T) (vr : option (list ref)).

Hypothesis Ht : (1 ≤ t)%Z.
Hypothesis Hn : cells s !! a = Some n.
Hypothesis Hc : node_is t n r (Content ka (Some cv)).
Hypothesis Hf : find Compare zero (keys n) k = (i, true).
Hypothesis Hchild : cv !! Z.to_nat i = Some child.
Hypothesis Hcc : at_node t s child childRole (Content kc vc).
Hypothesis Hmin : (Z.of_nat (length kc) ≤ t - 1)%Z.
Hypothesis Hright : cv !! Z.to_nat (i + 1) = Some right.
Hypothesis Hr : at_node t s right childRole (Content kr vr).
Hypothesis Hkr : (Z.of_nat (length kr) ≤ t - 1)%Z.
Hypothesis Hne : child ≠ a.
Hypothesis Hra : right ≠ a.
Hypothesis Hrc : right ≠ child.
Hypothesis Hkind : is_Some vc ↔ is_Some vr.
Hypothesis Hint : ∀ vcv vrv, vc = Some vcv → vr = Some vrv →
  (Z.of_nat (length vcv + length vrv) ≤ 2 * t)%Z.

(** X25.  [remove] at an internal node that holds a key equal to [k],
    with the children on both sides of that key not above minimum: the
    key moves down between the keys of the left child and those of the
    right child, which are joined in the left child, the key and the
    right child leave the node, and the removal goes on in the joined
    child. *)
Lemma found_key_moves_down :
  ∃ key s1,
    ka !! Z.to_nat i = Some key
    ∧ Compare k key = 0%Z
    ∧ remove Compare zero t (S fuel) a k s
      = remove Compare zero t fuel child k s1
    ∧ at_node t s1 a r
        (Content (take (Z.to_nat i) ka ++ drop (S (Z.to_nat i)) ka)
           (Some (take (Z.to_nat (i + 1)) cv
                  ++ drop (S (Z.to_nat (i + 1))) cv)))
    ∧ at_node t s1 child childRole
        (Content (kc ++ key :: kr) (joined vc vr))
    ∧ at_node t s1 right childRole (Content [] ((λ _, []) <$> vr))
    ∧ ∀ y, y ≠ a → y ≠ child → y ≠ right → cells s1 !! y = cells s !! y.
Proof.
  pose proof (find_range _ _ _ _ _ _ Hf) as [Hi Hhit].
  destruct (Hhit eq_refl) as [Hilt Hcmp].
  pose proof (node_is_keys t _ _ _ Hc) as Hks. cbn [ckeys] in Hks.
  rewrite (holds_slen _ _ _ Hks) in Hi, Hilt.
  assert (Hat : at_node t s a r (Content ka (Some cv))) by (by exists n).
  destruct (lookup_lt_is_Some_2 ka (Z.to_nat i)) as [key Hkey]; [lia|].
  assert (Hkk : Compare k key = 0%Z).
  { destruct Hks as (Hwf & Hv & _). rewrite <- Hv in Hkey.
    by rewrite (view_nth _ _ _ _ Hkey) in Hcmp. }
  exists key.
  cut (leads_to (remove Compare zero t (S fuel) a k) s
         (remove Compare zero t fuel child k)
         (λ s1,
            at_node t s1 a r
              (Content (take (Z.to_nat i) ka ++ drop (S (Z.to_nat i)) ka)
                 (Some (take (Z.to_nat (i + 1)) cv
                        ++ drop (S (Z.to_nat (i + 1))) cv)))
            ∧ at_node t s1 child childRole
                (Content (kc ++ key :: kr) (joined vc vr))
            ∧ at_node t s1 right childRole (Content [] ((λ _, []) <$> vr))
            ∧ ∀ y, y ≠ a → y ≠ child → y ≠ right →
                   cells s1 !! y = cells s !! y)).
  { intros (s1 & Heq & HD). exists s1. by repeat (split; [done|]). }
  simpl. apply leads_bind. eapply returns_load; [exact Hn|].
  rewrite Hf. pose proof Hc as [_ Hb]. simpl in Hb.
  destruct (nbase n) as [|ks0 cs0]; [done|]. clear Hb.
  apply leads_bind.
  children_rd at_indexF; [exact Hat|done|lia|exact Hchild|].
  apply leads_bind. eapply returns_isAboveMin; [exact Hcc|]. cbn [ckeys].
  destruct (Z.ltb_spec (t - 1) (Z.of_nat (length kc))); [lia|].
  apply leads_bind.
  children_rd at_indexF; [exact Hat|done|lia|exact Hright|].
  apply leads_bind. eapply returns_isAboveMin; [exact Hr|]. cbn [ckeys].
  destruct (Z.ltb_spec (t - 1) (Z.of_nat (length kr))); [lia|].
  apply leads_bind. keys_wr at_removeF; [exact Hat|done|lia|exact Hkey|].
  intros s1 Ha1 Hnx1 Hfr1. unfold set_ckeys in Ha1.
  cbn [ckeys cchildren] in Ha1.
  pose proof (at_node_frame t _ s1 _ _ _ Hcc (Hfr1 child Hne)) as Hc1.
  pose proof (at_node_frame t _ s1 _ _ _ Hr (Hfr1 right Hra)) as Hr1.
  apply leads_bind.
  children_rd at_indexF; [exact Ha1|done|lia|exact Hright|].
  apply leads_bind.
  eapply returns_mono.
  { apply (merge_spec t s1 child right childRole kc vc kr vr key);
      [done|done|done|done|lia|done]. }
  intros [] s2 (Hc2 & Hr2 & Hnx2 & Hfr2).
  pose proof (at_node_frame t _ s2 _ _ _ Ha1
                (Hfr2 a ltac:(done) ltac:(done))) as Ha2.
  apply leads_bind.
  children_wr at_removeF; [exact Ha2|done|lia|exact Hright|].
  intros s3 Ha3 Hnx3 Hfr3. unfold set_cchildren in Ha3.
  cbn [ckeys cchildren] in Ha3.
  apply leads_here.
  split; [done|]. split; [|split].
  - eapply at_node_frame; [exact Hc2|]. by apply Hfr3.
  - eapply at_node_frame; [exact Hr2|]. by apply Hfr3.
  - intros y Hya Hyc Hyr. rewrite Hfr3, Hfr2 by done. by apply Hfr1.
Qed.
End remove_found.

Lemma found_key_moves_down_witness :
  ∃ key s1,
    [KV.key 6; KV.key 8] !! Z.to_nat 0 = Some key
    ∧ KV.Compare (KV.key 6) key = 0%Z
    ∧ remove KV.Compare KV.zero 2 (S 1) 9%N (KV.key 6) Grown.thinned.2
      = remove KV.Compare KV.zero 2 1 5%N (KV.key 6) s1
    ∧ at_node 2 s1 9%N childRole
        (Content (take (Z.to_nat 0) [KV.key 6; KV.key 8]
                  ++ drop (S (Z.to_nat 0)) [KV.key 6; KV.key 8])
           (Some (take (Z.to_nat (0 + 1)) [5%N; 6%N; 10%N]
                  ++ drop (S (Z.to_nat (0 + 1))) [5%N; 6%N; 10%N])))
    ∧ at_node 2 s1 5%N childRole
        (Content ([KV.key 5] ++ key :: [KV.key 7]) (joined None None))
    ∧ at_node 2 s1 6%N childRole
        (Content [] ((λ _, []) <$> (None : option (list N))))
    ∧ ∀ y, y ≠ 9%N → y ≠ 5%N → y ≠ 6%N →
           cells s1 !! y = cells Grown.thinned.2 !! y.
Proof.
  eapply found_key_moves_down with (r := childRole);
    try settle.
Defined.

(** ** [remove] of a key held above leaves *)

Section remove_above_leaves.
Context {T : Type}.
Variable Compare : T → T → Z.
Variable zero : T.
Variable t : Z.
Variable fuel : nat.
Variables (s : store T) (a : ref) (n : node T) (r : role).
Variables (ka : list T) (cv : list ref) (k : T) (i : Z).
Variable child : ref.

Hypothesis Hn : cells s !! a = Some n.
Hypothesis Hc : node_is t n r (Content ka (Some cv)).
Hypothesis Hf : find Compare zero (keys n) k = (i, true).
Hypothesis Hchild : cv !! Z.to_nat i = Some child.
Hypothesis Hne : child ≠ a.

Lemma found_index : (0 ≤ i < Z.of_nat (length ka))%Z.
Proof.
  pose proof (find_range _ _ _ _ _ _ Hf) as [Hi Hhit].
  destruct (Hhit eq_refl) as [Hilt _].
  rewrite (holds_slen _ _ _ (node_is_keys t _ _ _ Hc)) in Hilt.
  cbn [ckeys] in Hilt. lia.
Qed.

(** X26.  [remove] at an internal node that holds a key equal to [k],
    with a leaf above minimum as the child before that key: the last
    key of that leaf is taken out of the leaf and put in the place of
    the key, and nothing else changes. *)
Lemma key_replaced_by_leaf_predecessor init x :
  at_node t s child childRole (Content (init ++ [x]) None) →
  (t - 1 < Z.of_nat (length (init ++ [x])))%Z →
  ∃ s',
    remove Compare zero t (S (S fuel)) a k s = Ok (tt, s')
    ∧ at_node t s' a r (Content (<[Z.to_nat i := x]> ka) (Some cv))
    ∧ at_node t s' child childRole (Content init None)
    ∧ ∀ y, y ≠ a → y ≠ child → cells s' !! y = cells s !! y.
Proof.
  intros Hcc Habove. pose proof found_index as Hi.
  assert (Hat : at_node t s a r (Content ka (Some cv))) by (by exists n).
  cut (returns (remove Compare zero t (S (S fuel)) a k) s
         (λ _ s',
            at_node t s' a r (Content (<[Z.to_nat i := x]> ka) (Some cv))
            ∧ at_node t s' child childRole (Content init None)
            ∧ ∀ y, y ≠ a → y ≠ child → cells s' !! y = cells s !! y)).
  { intros ([] & s' & Hrun & HD). by exists s'. }
  cbn [remove]. apply returns_bind. eapply returns_load; [exact Hn|].
  rewrite Hf. pose proof Hc as [_ Hb]. simpl in Hb.
  destruct (nbase n) as [|ks0 cs0]; [done|]. clear Hb.
  apply returns_bind.
  children_rd at_indexF; [exact Hat|done|lia|exact Hchild|].
  apply returns_bind. eapply returns_isAboveMin; [exact Hcc|]. cbn [ckeys].
  destruct (Z.ltb_spec (t - 1) (Z.of_nat (length (init ++ [x])))); [|lia].
  apply returns_bind.
  eapply returns_mono; [by apply (leaf_deletePred t fuel s child)|].
  intros res s1 (-> & Hc1 & Hnx1 & Hfr1).
  pose proof (at_node_frame t _ s1 _ _ _ Hat (Hfr1 a ltac:(done))) as Ha1.
  keys_wr at_set_indexF; [exact Ha1|done|sz|].
  intros s2 Ha2 Hnx2 Hfr2. unfold set_ckeys in Ha2.
  cbn [ckeys cchildren] in Ha2.
  split; [done|]. split.
  - eapply at_node_frame; [exact Hc1|]. by apply Hfr2.
  - intros y Hya Hyc. rewrite Hfr2 by done. by apply Hfr1.
Qed.

(** X27.  The same with the child before the key not above minimum and
    a leaf above minimum as the child after it: the first key of that
    leaf is taken out of the leaf and put in the place of the key, and
    nothing else changes. *)
Lemma key_replaced_by_leaf_successor kc vc right x rest :
  at_node t s child childRole (Content kc vc) →
  (Z.of_nat (length kc) ≤ t - 1)%Z →
  cv !! Z.to_nat (i + 1) = Some right → right ≠ a →
  at_node t s right childRole (Content (x :: rest) None) →
  (t - 1 < Z.of_nat (length (x :: rest)))%Z →
  ∃ s',
    remove Compare zero t (S (S fuel)) a k s = Ok (tt, s')
    ∧ at_node t s' a r (Content (<[Z.to_nat i := x]> ka) (Some cv))
    ∧ at_node t s' right childRole (Content rest None)
    ∧ ∀ y, y ≠ a → y ≠ right → cells s' !! y = cells s !! y.
Proof.
  intros Hcc Hmin Hright Hra Hr Habove. pose proof found_index as Hi.
  assert (Hat : at_node t s a r (Content ka (Some cv))) by (by exists n).
  cut (returns (remove Compare zero t (S (S fuel)) a k) s
         (λ _ s',
            at_node t s' a r (Content (<[Z.to_nat i := x]> ka) (Some cv))
            ∧ at_node t s' right childRole (Content rest None)
            ∧ ∀ y, y ≠ a → y ≠ right → cells s' !! y = cells s !! y)).
  { intros ([] & s' & Hrun & HD). by exists s'. }
  cbn [remove]. apply returns_bind. eapply returns_load; [exact Hn|].
  rewrite Hf. pose proof Hc as [_ Hb]. simpl in Hb.
  destruct (nbase n) as [|ks0 cs0]; [done|]. clear Hb.
  apply returns_bind.
  children_rd at_indexF; [exact Hat|done|lia|exact Hchild|].
  apply returns_bind. eapply returns_isAboveMin; [exact Hcc|]. cbn [ckeys].
  destruct (Z.ltb_spec (t - 1) (Z.of_nat (length kc))); [lia|].
  apply returns_bind.
  children_rd at_indexF; [exact Hat|done|lia|exact Hright|].
  apply returns_bind. eapply returns_isAboveMin; [exact Hr|]. cbn [ckeys].
  destruct (Z.ltb_spec (t - 1) (Z.of_nat (length (x :: rest)))); [|lia].
  apply returns_bind.
  eapply returns_mono; [by apply (leaf_deleteSucc t fuel s right)|].
  intros res s1 (-> & Hr1 & Hnx1 & Hfr1).
  pose proof (at_node_frame t _ s1 _ _ _ Hat (Hfr1 a ltac:(done))) as Ha1.
  keys_wr at_set_indexF; [exact Ha1|done|sz|].
  intros s2 Ha2 Hnx2 Hfr2. unfold set_ckeys in Ha2.
  cbn [ckeys cchildren] in Ha2.
  split; [done|]. split.
  - eapply at_node_frame; [exact Hr1|]. by apply Hfr2.
  - intros y Hya Hyr. rewrite Hfr2 by done. by apply Hfr1.
Qed.
End remove_above_leaves.

Lemma key_replaced_by_leaf_predecessor_witness :
  ∃ s',
    remove KV.Compare KV.zero 2 (S (S 0)) 7%N (KV.key 3) Grown.descended.2
    = Ok (tt, s')
    ∧ at_node 2 s' 7%N childRole
        (Content (<[Z.to_nat 0 := KV.key 2]> [KV.key 3; KV.key 5])
           (Some [2%N; 10%N; 6%N]))
    ∧ at_node 2 s' 2%N childRole (Content [KV.key 1] None)
    ∧ ∀ y, y ≠ 7%N → y ≠ 2%N → cells s' !! y = cells Grown.descended.2 !! y.
Proof.
  eapply key_replaced_by_leaf_predecessor with (r := childRole);
    try settle.
Defined.

Lemma key_replaced_by_leaf_successor_witness :
  ∃ s',
    remove KV.Compare KV.zero 2 (S (S 0)) 9%N (KV.key 8) Grown.levels3.2
    = Ok (tt, s')
    ∧ at_node 2 s' 9%N childRole
        (Content (<[Z.to_nat 1 := KV.key 9]> [KV.key 6; KV.key 8])
           (Some [5%N; 6%N; 10%N]))
    ∧ at_node 2 s' 10%N childRole (Content [KV.key 10] None)
    ∧ ∀ y, y ≠ 9%N → y ≠ 10%N → cells s' !! y = cells Grown.levels3.2 !! y.
Proof.
  eapply key_replaced_by_leaf_successor
    with (r := childRole) (child := 6%N) (kc := [KV.key 7]) (vc := None);
    try settle.
Defined.

(** ** Runs that stay within one leaf *)

Section short_runs.
Context {T : Type}.
Variable Compare : T → T → Z.
Variable zero : T.
Variable t : Z.
Hypothesis Hord : ordering Compare.
Implicit Types (s : store T) (v : list T) (cs : list (call (T:=T))).

End short_runs.



(** ** Equal keys and [splice] *)

(** X28.  [insertBelowMax] on a node, leaf or internal, in which [find]
    hits a key equal to [k]: [k] is written over that key in place; the
    number of keys, the children and all other objects stay as they
    are. *)
Theorem equal_key_overwritten_in_place {T} (Compare : T → T → Z) (zero : T)
    (t : Z) (fuel : nat) (s : store T) (a : ref) (n : node T) (r : role)
    (c : content) (k : T) (i : Z) :
  cells s !! a = Some n → node_is t n r c →
  find Compare zero (keys n) k = (i, true) →
  ∃ old s',
    ckeys c !! Z.to_nat i = Some old
    ∧ Compare k old = 0%Z
    ∧ insertBelowMax Compare zero t (S fuel) a k s = Ok (tt, s')
    ∧ at_node t s' a r (Content (<[Z.to_nat i := k]> (ckeys c)) (cchildren c))
    ∧ next s' = next s
    ∧ ∀ y, y ≠ a → cells s' !! y = cells s !! y.
Proof.
  intros Hn Hc Hf.
  pose proof (find_range _ _ _ _ _ _ Hf) as [Hi Hhit].
  destruct (Hhit eq_refl) as [Hilt Hcmp].
  pose proof (node_is_keys t _ _ _ Hc) as Hks.
  rewrite (holds_slen _ _ _ Hks) in Hilt.
  destruct (lookup_lt_is_Some_2 (ckeys c) (Z.to_nat i)) as [old Hold]; [lia|].
  exists old.
  assert (Hko : Compare k old = 0%Z).
  { destruct Hks as (Hwf & Hv & _). rewrite <- Hv in Hold.
    by rewrite (view_nth _ _ _ _ Hold) in Hcmp. }
  assert (Hat : at_node t s a r c) by (by exists n).
  cut (returns (insertBelowMax Compare zero t (S fuel) a k) s
         (λ _ s',
            at_node t s' a r
              (Content (<[Z.to_nat i := k]> (ckeys c)) (cchildren c))
            ∧ next s' = next s
            ∧ ∀ y, y ≠ a → cells s' !! y = cells s !! y)).
  { intros ([] & s' & Hrun & HD). exists s'. by repeat (split; [done|]). }
  simpl. apply returns_bind. eapply returns_load; [exact Hn|]. rewrite Hf.
  destruct (nbase n);
    (keys_wr at_set_indexF; [exact Hat|done|lia|]);
    intros s1 Ha1 Hnx1 Hfr1; done.
Qed.

Lemma equal_key_overwritten_in_place_witness :
  ∃ old s',
    [KV.key 6; KV.key 8] !! Z.to_nat 1 = Some old
    ∧ KV.Compare (8, 5)%Z old = 0%Z
    ∧ insertBelowMax KV.Compare KV.zero 2 (S 0) 9%N (8, 5)%Z Grown.levels3.2
      = Ok (tt, s')
    ∧ at_node 2 s' 9%N childRole
        (Content (<[Z.to_nat 1 := (8, 5)%Z]> [KV.key 6; KV.key 8])
           (Some [5%N; 6%N; 10%N]))
    ∧ next s' = next Grown.levels3.2
    ∧ ∀ y, y ≠ 9%N → cells s' !! y = cells Grown.levels3.2 !! y.
Proof.
  eapply (equal_key_overwritten_in_place KV.Compare KV.zero 2 0
            Grown.levels3.2 9%N _ childRole
            (Content [KV.key 6; KV.key 8] (Some [5%N; 6%N; 10%N]))
            (8, 5)%Z 1).
  - vm_compute. reflexivity.
  - split; [reflexivity|vm_compute; repeat split; (lia || reflexivity)].
  - vm_compute. reflexivity.
Defined.

(** X29.  [x.keys.splice(i, j, &m.keys)] on two different nodes moves the
    keys of [m] from index [j] on into the keys of [x] at index [i], in
    their order, when they fit the capacity of [x]: [m] keeps its first
    [j] keys, [x] keeps its keys on both sides, and nothing else
    changes. *)
Theorem splice_moves_a_tail {T} (t : Z) (s : store T) (a m : ref)
    (ra rm : role) (ca cm : content (T:=T)) (i j : nat) :
  a ≠ m → at_node t s a ra ca → at_node t s m rm cm →
  i ≤ length (ckeys ca) → j ≤ length (ckeys cm) →
  (Z.of_nat (length (ckeys ca) + (length (ckeys cm) - j)) ≤ 2 * t - 1)%Z →
  ∃ s',
    spliceF keysF a (Z.of_nat i) (Z.of_nat j) m s = Ok (tt, s')
    ∧ at_node t s' a ra
        (Content (take i (ckeys ca) ++ drop j (ckeys cm) ++ drop i (ckeys ca))
           (cchildren ca))
    ∧ at_node t s' m rm (Content (take j (ckeys cm)) (cchildren cm))
    ∧ ∀ y, y ≠ a → y ≠ m → cells s' !! y = cells s !! y.
Proof.
  intros Hne Ha Hm Hi Hj Hfit.
  cut (returns (spliceF keysF a (Z.of_nat i) (Z.of_nat j) m) s
         (λ _ s',
            at_node t s' a ra
              (Content (take i (ckeys ca) ++ drop j (ckeys cm)
                        ++ drop i (ckeys ca)) (cchildren ca))
            ∧ at_node t s' m rm (Content (take j (ckeys cm)) (cchildren cm))
            ∧ ∀ y, y ≠ a → y ≠ m → cells s' !! y = cells s !! y)).
  { intros ([] & s' & Hrun & H). by exists s'. }
  keys_wr at_spliceF; [exact Hne|exact Ha|done|exact Hm|done| | | |].
  { lia. } { lia. } { lia. }
  intros s' Ha' Hm' _ Hfr. unfold set_ckeys in Ha', Hm'.
  rewrite (Nat2Z.id i), (Nat2Z.id j) in Ha'. rewrite (Nat2Z.id j) in Hm'.
  split; [done|]. by split.
Qed.

Lemma splice_moves_a_tail_witness :
  ∃ s',
    spliceF keysF 2%N (Z.of_nat 1) (Z.of_nat 1) 4%N Grown.uneven.2 = Ok (tt, s')
    ∧ at_node 2 s' 2%N childRole
        (Content (take 1 [KV.key 1] ++ drop 1 [KV.key 3; KV.key 4]
                  ++ drop 1 [KV.key 1]) None)
    ∧ at_node 2 s' 4%N childRole (Content (take 1 [KV.key 3; KV.key 4]) None)
    ∧ ∀ y, y ≠ 2%N → y ≠ 4%N → cells s' !! y = cells Grown.uneven.2 !! y.
Proof.
  apply (splice_moves_a_tail 2 Grown.uneven.2 2%N 4%N childRole childRole
           (Content [KV.key 1] None) (Content [KV.key 3; KV.key 4] None) 1 1).
  - lia.
  - concrete_node.
  - concrete_node.
  - simpl. lia.
  - simpl. lia.
  - simpl. lia.
Defined.

(** ** The value receiver of [deleteSucc] *)

Section value_receiver.
Context {T : Type}.
Variable t : Z.
Implicit Types (s : store T) (a : ref) (l : slice T).

(** Removing the last element moves nothing in the array. *)
Lemma remove_last_array l x :
  swf l → view l !! (len l - 1) = Some x → 0 < len l →
  remove_ (Slice (arr l) (len l)) (slen l - 1)
  = Ok (x, Slice (arr l) (len l - 1)).
Proof.
  intros Hwf Hx Hpos. unfold remove_, removeFrom, slen, swf in *. simpl.
  destruct (Z.ltb_spec (Z.of_nat (len l) - 1) 0); [lia|].
  destruct (Z.ltb_spec (Z.of_nat (len l) - 1 + 1) (Z.of_nat (len l) - 1));
    [lia|].
  destruct (Z.ltb_spec (Z.of_nat (len l)) (Z.of_nat (len l) - 1 + 1));
    [lia|]. simpl.
  replace (Z.to_nat (Z.of_nat (len l) - 1)) with (len l - 1) by lia.
  replace (Z.to_nat (Z.of_nat (len l) - 1 + 1)) with (len l) by lia.
  replace (Z.to_nat (Z.of_nat (len l)
                     - (Z.of_nat (len l) - 1 + 1 - (Z.of_nat (len l) - 1))))
    with (len l - 1) by lia.
  unfold view in Hx. apply lookup_take_Some in Hx as [Hx _].
  assert (Hsub : sub (arr l) (len l - 1) (len l) = [x]).
  { unfold sub. replace (len l - (len l - 1)) with 1 by lia.
    by rewrite (drop_S _ x _ Hx). }
  rewrite Hsub. simpl.
  assert (Hcopy : copy (arr l) (len l - 1) (len l)
                    (sub (arr l) (len l) (len l)) = arr l).
  { unfold copy, sub. rewrite Nat.sub_diag, take_0, take_nil. simpl.
    rewrite Nat.add_0_r. apply take_drop. }
  by rewrite Hcopy.
Qed.

(** With a value receiver the length written back is the old one, so
    removing the last key through it leaves the object as it was. *)
Lemma keys_removeL_last s a (n : node T) ks cs x :
  cells s !! a = Some n → nbase n = baseInternalNode ks cs →
  swf ks → view ks !! (len ks - 1) = Some x → 0 < len ks →
  removeL keysF a (len ks) (slen ks - 1) s = Ok ((x, len ks - 1), s).
Proof.
  intros Hn Hbase Hwf Hx Hpos.
  unfold removeL, getF, putF, bind, load, lift, store_, ret.
  rewrite Hn. simpl. unfold keys. rewrite Hbase.
  rewrite (remove_last_array ks x Hwf Hx Hpos). simpl. rewrite Hn. simpl.
  unfold with_keys. rewrite Hbase.
  assert (Hsame : Node (nrole n) (baseInternalNode (Slice (arr ks) (len ks)) cs)
                  = n).
  { destruct n as [rn bn]. simpl in *. subst bn. by destruct ks. }
  rewrite Hsame, insert_id by done. by destruct s.
Qed.
End value_receiver.

(** X30.  [deleteSucc] on an internal node, with its last child and the
    child before it both not above minimum: the child before takes the
    last key of the node and the keys and children of the last child,
    and the call goes on in it.  The receiver is a copy of the node, so
    the node itself stays as it was: it still holds that key and still
    has the emptied child as its last child. *)
Theorem deleteSucc_merge_keeps_node {T} (t : Z) (fuel : nat) (s : store T)
    (a : ref) (ka : list T) (cv : list ref) (key : T) (child left : ref)
    (kc kl : list T) (vc vl : option (list ref)) :
  at_node t s a childRole (Content ka (Some cv)) →
  ka !! (length ka - 1) = Some key →
  cv !! length ka = Some child → cv !! (length ka - 1) = Some left →
  at_node t s child childRole (Content kc vc) →
  (Z.of_nat (length kc) ≤ t - 1)%Z →
  at_node t s left childRole (Content kl vl) →
  (Z.of_nat (length kl) ≤ t - 1)%Z →
  left ≠ child → left ≠ a → child ≠ a →
  (is_Some vl ↔ is_Some vc) →
  (∀ vlv vcv, vl = Some vlv → vc = Some vcv →
              (Z.of_nat (length vlv + length vcv) ≤ 2 * t)%Z) →
  ∃ s1,
    deleteSucc t (S fuel) a s = deleteSucc t fuel left s1
    ∧ at_node t s1 a childRole (Content ka (Some cv))
    ∧ at_node t s1 left childRole (Content (kl ++ key :: kc) (joined vl vc))
    ∧ at_node t s1 child childRole (Content [] ((λ _, []) <$> vc))
    ∧ ∀ y, y ≠ left → y ≠ child → cells s1 !! y = cells s !! y.
Proof.
  intros Ha Hkey Hchild Hleft Hcc Hkc Hl Hkl Hlc Hla Hca Hkind Hint.
  apply lookup_lt_Some in Hkey as Hpos.
  destruct (merge_spec t s left child childRole kl vl kc vc key)
    as ([] & s1 & Hmerge & Hl1 & Hc1 & Hnx1 & Hfr1); [done..|lia|done|].
  exists s1. split.
  - pose proof Ha as (n & Hn & Hc). pose proof Hc as [_ Hb]. simpl in Hb.
    simpl. unfold bind at 1. unfold load at 1. rewrite Hn.
    destruct (nbase n) as [|ks cs] eqn:Hbase; [done|].
    destruct Hb as [Hks Hcs].
    pose proof Hks as (Hwf & Hv & _).
    assert (Hlen : len ks = length ka).
    { rewrite <- Hv. by rewrite view_length. }
    unfold bind at 1.
    rewrite (children_indexL t s a n ks cs childRole ka cv (slen ks) child
               Hn Hbase Hc);
      [|unfold slen; lia|unfold slen; by rewrite Nat2Z.id, Hlen].
    unfold bind at 1. rewrite (child_isAboveMin t _ _ _ Hcc). cbn [ckeys].
    destruct (Z.ltb_spec (t - 1) (Z.of_nat (length kc))); [lia|].
    unfold bind at 1.
    rewrite (children_indexL t s a n ks cs childRole ka cv (slen ks - 1) left
               Hn Hbase Hc);
      [|unfold slen; lia
       |unfold slen;
        by replace (Z.to_nat (Z.of_nat (len ks) - 1)) with (length ka - 1)
          by lia].
    unfold bind at 1. rewrite (child_isAboveMin t _ _ _ Hl). cbn [ckeys].
    destruct (Z.ltb_spec (t - 1) (Z.of_nat (length kl))); [lia|].
    unfold bind at 1.
    rewrite (keys_removeL_last s a n ks cs key Hn Hbase Hwf);
      [|by rewrite Hv, Hlen|lia].
    unfold bind at 1. by rewrite Hmerge.
  - split; [|split; [done|split; [done|]]].
    + eapply at_node_frame; [exact Ha|]. by apply Hfr1.
    + intros y Hyl Hyc. by apply Hfr1.
Qed.

Lemma deleteSucc_merge_keeps_node_witness :
  ∃ s1,
    deleteSucc 2 (S 1) 9%N Grown.thinned.2 = deleteSucc 2 1 6%N s1
    ∧ at_node 2 s1 9%N childRole
        (Content [KV.key 6; KV.key 8] (Some [5%N; 6%N; 10%N]))
    ∧ at_node 2 s1 6%N childRole
        (Content ([KV.key 7] ++ KV.key 8 :: [KV.key 9]) (joined None None))
    ∧ at_node 2 s1 10%N childRole
        (Content [] ((λ _, []) <$> (None : option (list N))))
    ∧ ∀ y, y ≠ 6%N → y ≠ 10%N → cells s1 !! y = cells Grown.thinned.2 !! y.
Proof.
  apply (deleteSucc_merge_keeps_node 2 1 Grown.thinned.2 9%N
           [KV.key 6; KV.key 8] [5%N; 6%N; 10%N] (KV.key 8) 10%N 6%N
           [KV.key 9] [KV.key 7] None None);
    try settle.
Defined.
